(** * Number Poker: the game service (server/src/services/gameService.ts)

    A shallow embedding of the authoritative game service: the deck
    builder, the equation evaluator, the scoring and payout resolver and
    the session state machine, followed by the properties checked
    against the specification.

    Conventions of the embedding.
    - A JavaScript [number] holding chips, bets or card values is a [Z]:
      the embedding follows the games that are played with whole
      amounts.  On whole numbers below 2^53 the binary64 arithmetic of
      the code is exact and is the arithmetic of [Z].  The service also
      takes an amount with a fraction; its sums then round, and what is
      stated here about the sum of several amounts (chips and pot taken
      together, a bet brought up to the current bet, the two halves of
      a pot) is stated for whole amounts only.  The result of an
      equation is an IEEE-754 binary64 value, modelled by Rocq's
      primitive [float].
    - A string is the sequence of the bytes of its UTF-8 encoding.
    - A [Player] object is addressed by its position in [game.players];
      a function that receives [player] in the source receives that
      position here and updates the list in place.
    - [throw] is an outcome that carries the state as it was when the
      error was raised, so that "no state change" is a statement and not
      a convention.
    - [Math.random()] is the field [random] of the modelled state: the
      raw draws still to come.  [Math.floor(Math.random() * k)] takes
      the next draw modulo [k].
    - Socket notifications ([notifyGameUpdate]) do not touch the game
      state and are left out; the [requireSwap] request is kept as the
      payload of the dealing step that raises it.
    - [handleBotTurn] is [async] and suspends on a one second timer
      before it touches the game, so a call to it changes nothing in the
      action that triggers it. *)

From Stdlib Require Import ZArith String Ascii List Bool Lia Permutation.
From Stdlib Require PrimFloat FloatOps SpecFloat FloatAxioms DecimalString
  DecimalPos.
From stdpp Require Import base list strings.
Import ListNotations.

Local Open Scope string_scope.
Local Open Scope Z_scope.
Local Open Scope list_scope.

(** ** Data model (shared/types.ts, with the fields the service adds) *)

Inductive CardColor := gold | silver | bronze | dark.

Inductive OperationType := add | subtract | multiply | divide | squareRoot.

Inductive Card :=
| NumberCard (value : Z) (color : CardColor)
| OperationCard (operation : OperationType).

Inductive BetType := small | big | both.

(** [{ small?: string; big?: string }] *)
Record Equations := mkEquations {
  eqSmall : option string;
  eqBig : option string
}.

Record Player := mkPlayer {
  id : string;
  name : string;
  chips : Z;
  cards : list Card;
  operationCards : list OperationType;
  bet : Z;
  betType : option BetType;
  isActive : bool;
  isFolded : bool;
  isSquareRoot : bool;
  hasMultiply : bool;
  submittedEquations : option Equations
}.

Inductive Phase :=
| waiting | preflop | dealing1 | betting1 | dealing2 | betting2
| equation | ended.

(** One target of an [equationResults] entry: [{ expr; result }]. *)
Record EvaluatedEquation := mkEvaluated {
  expr : string;
  result : PrimFloat.float
}.

Record EquationResult := mkEquationResult {
  playerId : string;
  playerName : string;
  resultBetType : BetType;
  resultSmall : option EvaluatedEquation;
  resultBig : option EvaluatedEquation
}.

Record GameState := mkGame {
  gameId : string;
  players : list Player;
  deck : list Card;
  currentPlayer : string;
  pot : Z;
  currentBet : Z;
  phase : Phase;
  round : Z;
  winnersSmall : list string;
  winnersBig : list string;
  equationResults : option (list EquationResult);
  (* not a field of the interface: the values [Math.random()] is going
     to return, as raw draws *)
  random : list nat
}.

Global Instance CardColor_eq_dec : EqDecision CardColor.
Proof. solve_decision. Defined.
Global Instance OperationType_eq_dec : EqDecision OperationType.
Proof. solve_decision. Defined.
Global Instance Card_eq_dec : EqDecision Card.
Proof. solve_decision. Defined.
Global Instance BetType_eq_dec : EqDecision BetType.
Proof. solve_decision. Defined.
Global Instance Phase_eq_dec : EqDecision Phase.
Proof. solve_decision. Defined.

(** ** Deck builder *)

(** The next value of [Math.random()]; an exhausted source yields 0. *)
Definition draw (rnd : list nat) : nat * list nat :=
  match rnd with
  | [] => (0%nat, [])
  | r :: rest => (r, rest)
  end.

(** [[deck[i], deck[j]] = [deck[j], deck[i]]] *)
Definition swap (d : list Card) (i j : nat) : list Card :=
  match d !! i, d !! j with
  | Some ci, Some cj => <[j := ci]> (<[i := cj]> d)
  | _, _ => d
  end.

(** [for (let i = deck.length - 1; i > 0; i--)] with
    [j = Math.floor(Math.random() * (i + 1))]. *)
Fixpoint shuffle (i : nat) (d : list Card) (rnd : list nat)
  : list Card * list nat :=
  match i with
  | O => (d, rnd)
  | S i' =>
      let '(r, rnd') := draw rnd in
      let j := (r mod (i + 1))%nat in
      shuffle i' (swap d i j) rnd'
  end.

Definition colors : list CardColor := [gold; silver; bronze; dark].

(** [for (let value = 0; value <= 10; value++)] *)
Definition values : list Z := [0; 1; 2; 3; 4; 5; 6; 7; 8; 9; 10].

(** The deck as the two construction loops leave it, before shuffling. *)
Definition orderedDeck : list Card :=
  flat_map (fun color => map (fun value => NumberCard value color) values)
           colors
  ++ flat_map (fun _ : nat =>
                 [OperationCard multiply; OperationCard squareRoot])
              (seq 0 4).

Definition createDeck (rnd : list nat) : list Card * list nat :=
  shuffle (length orderedDeck - 1) orderedDeck rnd.

(** Number of copies of a card in a deck. *)
Definition copies (c : Card) (d : list Card) : nat :=
  count_occ Card_eq_dec d c.

(** What the specification asks of a deck, as a multiset. *)
Definition expectedCopies (c : Card) : nat :=
  match c with
  | NumberCard v _ => if (0 <=? v) && (v <=? 10) then 1%nat else 0%nat
  | OperationCard multiply => 4%nat
  | OperationCard squareRoot => 4%nat
  | OperationCard _ => 0%nat
  end.

(** ** Equation evaluator ([safeEval]) *)

(** A text is the sequence of the bytes of its UTF-8 encoding.

    The characters [String.prototype.trim] removes are the white space
    and the line terminators of the language.  Six of them are one byte
    long: U+0009 to U+000D and U+0020. *)
Definition isSpace (c : ascii) : bool :=
  let n := nat_of_ascii c in
  ((9 <=? n) && (n <=? 13))%nat || (n =? 32)%nat.

(** The others are two or three bytes long: U+00A0; U+1680; U+2000 to
    U+200A, U+2028, U+2029 and U+202F; U+205F; U+3000; U+FEFF.  [lead]
    is the first byte of a character and [following] are its other
    bytes. *)
Definition isWideSpace (lead : nat) (following : list nat) : bool :=
  match following with
  | [b] => (lead =? 194)%nat && (b =? 160)%nat
  | [b; c] =>
      (lead =? 225)%nat && (b =? 154)%nat && (c =? 128)%nat
      || (lead =? 226)%nat && (b =? 128)%nat
         && (((128 <=? c) && (c <=? 138))%nat
             || (c =? 168)%nat || (c =? 169)%nat || (c =? 175)%nat)
      || (lead =? 226)%nat && (b =? 129)%nat && (c =? 159)%nat
      || (lead =? 227)%nat && (b =? 128)%nat && (c =? 128)%nat
      || (lead =? 239)%nat && (b =? 187)%nat && (c =? 191)%nat
  | _ => false
  end.

(** The number of bytes of the character of [trim] that a text starts
    with, and 0 when it starts with none. *)
Definition spaceAhead (s : string) : nat :=
  match s with
  | String a rest =>
      if isSpace a then 1%nat
      else
        match rest with
        | String b (String c _) =>
            if isWideSpace (nat_of_ascii a) [nat_of_ascii b] then 2%nat
            else if isWideSpace (nat_of_ascii a)
                      [nat_of_ascii b; nat_of_ascii c]
            then 3%nat else 0%nat
        | String b EmptyString =>
            if isWideSpace (nat_of_ascii a) [nat_of_ascii b] then 2%nat
            else 0%nat
        | EmptyString => 0%nat
        end
  | EmptyString => 0%nat
  end.

(** The same for a text read from its end: [s] holds the bytes in
    reverse. *)
Definition spaceBehind (s : string) : nat :=
  match s with
  | String c rest =>
      if isSpace c then 1%nat
      else
        match rest with
        | String b (String a _) =>
            if isWideSpace (nat_of_ascii b) [nat_of_ascii c] then 2%nat
            else if isWideSpace (nat_of_ascii a)
                      [nat_of_ascii b; nat_of_ascii c]
            then 3%nat else 0%nat
        | String b EmptyString =>
            if isWideSpace (nat_of_ascii b) [nat_of_ascii c] then 2%nat
            else 0%nat
        | EmptyString => 0%nat
        end
  | EmptyString => 0%nat
  end.

(** [s] without the characters of [trim] it starts with; [width] tells
    how many bytes of such a character a text starts with, and [skip]
    counts the bytes of one still to be passed over. *)
Fixpoint trimFrom (width : string -> nat) (s : string) (skip : nat)
  : string :=
  match s with
  | String _ rest =>
      match skip with
      | S k => trimFrom width rest k
      | O =>
          match width s with
          | S k => trimFrom width rest k
          | O => s
          end
      end
  | EmptyString => s
  end.

Definition trimStart (s : string) : string := trimFrom spaceAhead s 0.

Fixpoint reverse (s acc : string) : string :=
  match s with
  | String c rest => reverse rest (String c acc)
  | EmptyString => acc
  end.

Definition trim (s : string) : string :=
  reverse (trimFrom spaceBehind (reverse (trimStart s) "") 0) "".

Definition isDigit (c : ascii) : bool :=
  let n := nat_of_ascii c in ((48 <=? n) && (n <=? 57))%nat.

Fixpoint everyDigit (s : string) : bool :=
  match s with
  | String c rest => isDigit c && everyDigit rest
  | EmptyString => true
  end.

(** [/^\d+$/.test(s)] *)
Definition isNumeral (s : string) : bool :=
  negb (s =? "")%string && everyDigit s.

(** [[\+\-\*\/\(\)]] *)
Definition isSeparator (c : ascii) : bool :=
  existsb (Ascii.eqb c) ["+"; "-"; "*"; "/"; "("; ")"]%char.

(** [expr.split(/(sqrt|[\+\-\*\/\(\)])/)]: the pieces between the
    matches and, because of the capture group, the matches themselves.
    [skip] counts the characters of a match of [sqrt] still to be passed
    over; [piece] is the piece being read. *)
Fixpoint splitFrom (s : string) (skip : nat) (piece : string)
  : list string :=
  match s with
  | EmptyString => [piece]
  | String c rest =>
      match skip with
      | S k => splitFrom rest k piece
      | O =>
          if String.prefix "sqrt" s then piece :: "sqrt" :: splitFrom rest 3 ""
          else if isSeparator c then
            piece :: String c "" :: splitFrom rest 0 ""
          else splitFrom rest 0 (piece ++ String c "")%string
      end
  end.

Definition split (e : string) : list string := splitFrom e 0 "".

Inductive TokenType := number | operator | sqrt.

Record Token := mkToken {
  tokenType : TokenType;
  tokenValue : string
}.

(** The token loop.  [None] is its [return null]. *)
Fixpoint tokenize (parts : list string) : option (list Token) :=
  match parts with
  | [] => Some []
  | p :: rest =>
      let part := trim p in
      if (part =? "")%string then tokenize rest
      else if isNumeral part then
        cons (mkToken number part) <$> tokenize rest
      else if (part =? "sqrt")%string then
        match rest with
        | [] => None
        | q :: rest' =>
            let nextPart := trim q in
            if String.prefix "(" nextPart then
              cons (mkToken sqrt ("Math.sqrt" ++ nextPart)%string)
                <$> tokenize rest'
            else if isNumeral nextPart then
              cons (mkToken sqrt ("Math.sqrt(" ++ nextPart ++ ")")%string)
                <$> tokenize rest'
            else None
        end
      else if existsb (String.eqb part) ["+"; "-"; "*"; "/"]%string then
        cons (mkToken operator part) <$> tokenize rest
      else tokenize rest
  end.

(** *** The expression the host evaluates

    [new Function(`return ${equation}`)()] hands the text to the
    JavaScript engine.  The text is a concatenation of token values, so
    it is written with digits, [+ - * /] and [Math.sqrt(].  Below is the
    engine on that alphabet: its lexer (numeric literals with the legacy
    octal form, maximal munch of [++] and [--], comments) and its
    grammar for unary and binary arithmetic.  Two constructs the
    alphabet can spell are left to the host itself: the exponent
    operator, whose value the language leaves to the implementation,
    and a regular-expression literal.  [hostEval text] stands for what
    [safeEval] returns for such a text. *)

Class Host := hostEval : string -> option PrimFloat.float.

Definition ofZ (z : Z) : PrimFloat.float :=
  FloatOps.SF2Prim
    (SpecFloat.binary_normalize FloatOps.prec FloatOps.emax z 0 false).

Fixpoint digitsPrefix (s : string) : string :=
  match s with
  | String c rest => if isDigit c then String c (digitsPrefix rest) else ""
  | EmptyString => ""
  end.

Fixpoint dropChars (n : nat) (s : string) : string :=
  match n, s with
  | S k, String _ rest => dropChars k rest
  | _, _ => s
  end.

Fixpoint digitsValue (base : Z) (s : string) (acc : Z) : Z :=
  match s with
  | String c rest =>
      digitsValue base rest (acc * base + (Z.of_nat (nat_of_ascii c) - 48))
  | EmptyString => acc
  end.

Fixpoint everyOctal (s : string) : bool :=
  match s with
  | String c rest => (nat_of_ascii c <? 56)%nat && everyOctal rest
  | EmptyString => true
  end.

(** The value of a run of digits read as a numeric literal of a
    non-strict function body: a leading zero followed by octal digits
    only is an octal literal. *)
Definition literal (digits : string) : PrimFloat.float :=
  match digits with
  | String "0" (String _ _ as more) =>
      if everyOctal more then ofZ (digitsValue 8 more 0)
      else ofZ (digitsValue 10 more 0)
  | _ => ofZ (digitsValue 10 digits 0)
  end.

Inductive JsToken :=
| JNumber (v : PrimFloat.float)
| JPlus | JMinus | JStar | JSlash.

Inductive Lexed :=
| Lexemes (ts : list JsToken)
| SyntaxError
| HostOnly.

(** Position of the first [*/] in a text, if there is one. *)
Fixpoint commentEnd (s : string) : option nat :=
  match s with
  | String "*" (String "/" _) => Some 0%nat
  | String _ rest => S <$> commentEnd rest
  | EmptyString => None
  end.

(** The lexer.  [skip] counts characters already consumed by a
    lookahead; [operand] tells whether the last lexeme ends an operand,
    which is what makes a following [/] a division. *)
Fixpoint lex (s : string) (skip : nat) (operand : bool)
    (out : list JsToken) : Lexed :=
  match s with
  | EmptyString => Lexemes (rev out)
  | String c rest =>
      match skip with
      | S k => lex rest k operand out
      | O =>
          if isDigit c then
            let digits := digitsPrefix s in
            if String.prefix "M" (dropChars (String.length digits) s)
            then SyntaxError
            else lex rest (String.length digits - 1) true
                     (JNumber (literal digits) :: out)
          else if Ascii.eqb c "+" then
            if String.prefix "+" rest then SyntaxError
            else lex rest 0 false (JPlus :: out)
          else if Ascii.eqb c "-" then
            if String.prefix "-" rest then SyntaxError
            else lex rest 0 false (JMinus :: out)
          else if Ascii.eqb c "*" then
            if String.prefix "*" rest then HostOnly
            else lex rest 0 false (JStar :: out)
          else if Ascii.eqb c "/" then
            if String.prefix "/" rest then Lexemes (rev out)
            else if String.prefix "*" rest then
              match commentEnd (dropChars 1 rest) with
              | Some n => lex rest (n + 3) operand out
              | None => SyntaxError
              end
            else if operand then lex rest 0 false (JSlash :: out)
            else HostOnly
          else if String.prefix "Math.sqrt(" s then
            let digits := digitsPrefix (dropChars 10 s) in
            if negb (digits =? "")%string
               && String.prefix ")" (dropChars (10 + String.length digits) s)
            then lex rest (10 + String.length digits) true
                     (JNumber (PrimFloat.sqrt (literal digits)) :: out)
            else SyntaxError
          else HostOnly
      end
  end.

(** Operands with their unary signs, and the binary operators between
    them.  [negate] is the parity of the minus signs read in front of
    the operand that is awaited. *)
Fixpoint operands (ts : list JsToken) (awaited negate : bool)
  : option (list (JsToken + PrimFloat.float)) :=
  match ts with
  | [] => if awaited then None else Some []
  | t :: rest =>
      if awaited then
        match t with
        | JPlus => operands rest true negate
        | JMinus => operands rest true (negb negate)
        | JNumber v =>
            cons (inr (if negate then PrimFloat.opp v else v))
              <$> operands rest false false
        | JStar | JSlash => None
        end
      else
        match t with
        | JNumber _ => None
        | _ => cons (inl t) <$> operands rest true false
        end
  end.

Definition additive (sum : option (PrimFloat.float * JsToken))
    (term : PrimFloat.float) : PrimFloat.float :=
  match sum with
  | None => term
  | Some (acc, JMinus) => PrimFloat.sub acc term
  | Some (acc, _) => PrimFloat.add acc term
  end.

(** Left-to-right evaluation with [*] and [/] binding tighter than [+]
    and [-]: [sum] is the finished part with the additive operator that
    follows it, [term] the product being formed. *)
Fixpoint chain (sum : option (PrimFloat.float * JsToken))
    (term : PrimFloat.float) (items : list (JsToken + PrimFloat.float))
  : option PrimFloat.float :=
  match items with
  | [] => Some (additive sum term)
  | inl JStar :: inr v :: rest => chain sum (PrimFloat.mul term v) rest
  | inl JSlash :: inr v :: rest => chain sum (PrimFloat.div term v) rest
  | inl op :: inr v :: rest => chain (Some (additive sum term, op)) v rest
  | _ => None
  end.

(** [isFinite(result) ? result : null], with [null] also for a thrown
    error, as the [catch] of [safeEval] has it. *)
Definition evaluate `{Host} (text : string) : option PrimFloat.float :=
  match lex text 0 false [] with
  | SyntaxError => None
  | HostOnly => hostEval text
  | Lexemes ts =>
      match operands ts true false with
      | Some (inr v :: items) =>
          match chain None v items with
          | Some r => if PrimFloat.is_finite r then Some r else None
          | None => None
          end
      | _ => None
      end
  end.

Definition safeEval `{Host} (e : string) : option PrimFloat.float :=
  let parts := filter (fun p => negb (trim p =? "")%string) (split e) in
  match tokenize parts with
  | None => None
  | Some [] => None
  | Some tokens =>
      evaluate (fold_left (fun text t => (text ++ tokenValue t)%string)
                          tokens "")
  end.

(** [String(value)] for the value of a number card: an integer in
    decimal. *)
Definition numberToString (v : Z) : string :=
  DecimalString.NilZero.string_of_int (Z.to_int v).

(** ** The equation builder of the client *)

(** A slot of the builder: a place that holds a card or is empty. *)
Record CardSlot := mkSlot {
  slotId : string;
  slotCard : option Card
}.

(** The operator that [calculateEquationResult] and [buildEquation]
    write for an operation card other than the square root. *)
Definition slotSymbol (o : OperationType) : string :=
  match o with
  | multiply => "*"
  | divide => "/"
  | add => "+"
  | subtract => "-"
  | squareRoot => ""
  end.

(** The token loop of [calculateEquationResult]; [None] is its
    [return null] for a square root that the next slot gives no number
    to. *)
Fixpoint slotTokens (slots : list CardSlot) : option (list Token) :=
  match slots with
  | [] => Some []
  | slot :: rest =>
      match slotCard slot with
      | None => slotTokens rest
      | Some (NumberCard v _) =>
          cons (mkToken number (numberToString v)) <$> slotTokens rest
      | Some (OperationCard squareRoot) =>
          match rest with
          | nextSlot :: rest' =>
              match slotCard nextSlot with
              | Some (NumberCard v _) =>
                  cons (mkToken sqrt
                          ("Math.sqrt(" ++ numberToString v ++ ")")%string)
                    <$> slotTokens rest'
              | _ => None
              end
          | [] => None
          end
      | Some (OperationCard o) =>
          cons (mkToken operator (slotSymbol o)) <$> slotTokens rest
      end
  end.

(** The value the builder shows for its slots. *)
Definition calculateEquationResult `{Host} (slots : list CardSlot)
  : option PrimFloat.float :=
  match slotTokens slots with
  | None => None
  | Some [] => None
  | Some tokens =>
      evaluate (fold_left (fun text t => (text ++ tokenValue t)%string)
                          tokens "")
  end.

(** The text [buildEquation] writes for a card. *)
Definition slotText (c : Card) : string :=
  match c with
  | NumberCard v _ => numberToString v
  | OperationCard squareRoot => "Math.sqrt"
  | OperationCard o => slotSymbol o
  end.

(** [ss.join('')] *)
Definition joined (ss : list string) : string :=
  fold_right String.append "" ss.

(** The equation the builder submits for its slots: [None] is [null],
    for an empty text. *)
Definition buildEquation (slots : list CardSlot) : option string :=
  let equation := joined (slotText <$> omap slotCard slots) in
  if (equation =? "")%string then None else Some equation.

(** ** Record updates *)

Definition setChips (v : Z) (p : Player) : Player :=
  mkPlayer (id p) (name p) v (cards p) (operationCards p) (bet p)
    (betType p) (isActive p) (isFolded p) (isSquareRoot p) (hasMultiply p)
    (submittedEquations p).

Definition setCards (v : list Card) (p : Player) : Player :=
  mkPlayer (id p) (name p) (chips p) v (operationCards p) (bet p)
    (betType p) (isActive p) (isFolded p) (isSquareRoot p) (hasMultiply p)
    (submittedEquations p).

Definition setOperationCards (v : list OperationType) (p : Player)
  : Player :=
  mkPlayer (id p) (name p) (chips p) (cards p) v (bet p)
    (betType p) (isActive p) (isFolded p) (isSquareRoot p) (hasMultiply p)
    (submittedEquations p).

Definition setBet (v : Z) (p : Player) : Player :=
  mkPlayer (id p) (name p) (chips p) (cards p) (operationCards p) v
    (betType p) (isActive p) (isFolded p) (isSquareRoot p) (hasMultiply p)
    (submittedEquations p).

Definition setBetType (v : option BetType) (p : Player) : Player :=
  mkPlayer (id p) (name p) (chips p) (cards p) (operationCards p) (bet p)
    v (isActive p) (isFolded p) (isSquareRoot p) (hasMultiply p)
    (submittedEquations p).

Definition setIsActive (v : bool) (p : Player) : Player :=
  mkPlayer (id p) (name p) (chips p) (cards p) (operationCards p) (bet p)
    (betType p) v (isFolded p) (isSquareRoot p) (hasMultiply p)
    (submittedEquations p).

Definition setIsFolded (v : bool) (p : Player) : Player :=
  mkPlayer (id p) (name p) (chips p) (cards p) (operationCards p) (bet p)
    (betType p) (isActive p) v (isSquareRoot p) (hasMultiply p)
    (submittedEquations p).

Definition setIsSquareRoot (v : bool) (p : Player) : Player :=
  mkPlayer (id p) (name p) (chips p) (cards p) (operationCards p) (bet p)
    (betType p) (isActive p) (isFolded p) v (hasMultiply p)
    (submittedEquations p).

Definition setHasMultiply (v : bool) (p : Player) : Player :=
  mkPlayer (id p) (name p) (chips p) (cards p) (operationCards p) (bet p)
    (betType p) (isActive p) (isFolded p) (isSquareRoot p) v
    (submittedEquations p).

Definition setSubmittedEquations (v : option Equations) (p : Player)
  : Player :=
  mkPlayer (id p) (name p) (chips p) (cards p) (operationCards p) (bet p)
    (betType p) (isActive p) (isFolded p) (isSquareRoot p) (hasMultiply p)
    v.

Definition setPlayers (v : list Player) (g : GameState) : GameState :=
  mkGame (gameId g) v (deck g) (currentPlayer g) (pot g) (currentBet g)
    (phase g) (round g) (winnersSmall g) (winnersBig g) (equationResults g)
    (random g).

Definition setDeck (v : list Card) (g : GameState) : GameState :=
  mkGame (gameId g) (players g) v (currentPlayer g) (pot g) (currentBet g)
    (phase g) (round g) (winnersSmall g) (winnersBig g) (equationResults g)
    (random g).

Definition setCurrentPlayer (v : string) (g : GameState) : GameState :=
  mkGame (gameId g) (players g) (deck g) v (pot g) (currentBet g)
    (phase g) (round g) (winnersSmall g) (winnersBig g) (equationResults g)
    (random g).

Definition setPot (v : Z) (g : GameState) : GameState :=
  mkGame (gameId g) (players g) (deck g) (currentPlayer g) v (currentBet g)
    (phase g) (round g) (winnersSmall g) (winnersBig g) (equationResults g)
    (random g).

Definition setCurrentBet (v : Z) (g : GameState) : GameState :=
  mkGame (gameId g) (players g) (deck g) (currentPlayer g) (pot g) v
    (phase g) (round g) (winnersSmall g) (winnersBig g) (equationResults g)
    (random g).

Definition setPhase (v : Phase) (g : GameState) : GameState :=
  mkGame (gameId g) (players g) (deck g) (currentPlayer g) (pot g)
    (currentBet g) v (round g) (winnersSmall g) (winnersBig g)
    (equationResults g) (random g).

Definition setWinnersSmall (v : list string) (g : GameState) : GameState :=
  mkGame (gameId g) (players g) (deck g) (currentPlayer g) (pot g)
    (currentBet g) (phase g) (round g) v (winnersBig g)
    (equationResults g) (random g).

Definition setWinnersBig (v : list string) (g : GameState) : GameState :=
  mkGame (gameId g) (players g) (deck g) (currentPlayer g) (pot g)
    (currentBet g) (phase g) (round g) (winnersSmall g) v
    (equationResults g) (random g).

Definition setEquationResults (v : option (list EquationResult))
    (g : GameState) : GameState :=
  mkGame (gameId g) (players g) (deck g) (currentPlayer g) (pot g)
    (currentBet g) (phase g) (round g) (winnersSmall g) (winnersBig g) v
    (random g).

Definition setRandom (v : list nat) (g : GameState) : GameState :=
  mkGame (gameId g) (players g) (deck g) (currentPlayer g) (pot g)
    (currentBet g) (phase g) (round g) (winnersSmall g) (winnersBig g)
    (equationResults g) v.

(** A mutation of the player object at position [i]. *)
Definition updatePlayer (i : nat) (f : Player -> Player) (g : GameState)
  : GameState :=
  setPlayers (alter f i (players g)) g.

(** [player.chips += amount] *)
Definition credit (i : nat) (amount : Z) (g : GameState) : GameState :=
  updatePlayer i (fun p => setChips (chips p + amount) p) g.

(** ** Scoring and payout resolver *)

(** An element of [results]: the player object (its position [ref] and
    its content, which the resolver does not change before it pays) and
    the values of its equations. *)
Record Entry := mkEntry {
  ref : nat;
  player : Player;
  entrySmall : option PrimFloat.float;
  entryBig : option PrimFloat.float
}.

(** A string that passes [if (expr)]: defined and not empty. *)
Definition truthy (e : option string) : option string :=
  match e with
  | Some s => if (s =? "")%string then None else Some s
  | None => None
  end.

Definition submittedSmall (p : Player) : option string :=
  match submittedEquations p with
  | Some e => eqSmall e
  | None => None
  end.

Definition submittedBig (p : Player) : option string :=
  match submittedEquations p with
  | Some e => eqBig e
  | None => None
  end.

Definition evaluated `{Host} (wanted : bool) (e : option string)
  : option EvaluatedEquation :=
  if wanted then
    match truthy e with
    | Some text =>
        match safeEval text with
        | Some val => Some (mkEvaluated text val)
        | None => None
        end
    | None => None
    end
  else None.

Definition wantsSmall (b : BetType) : bool :=
  match b with small | both => true | big => false end.

Definition wantsBig (b : BetType) : bool :=
  match b with big | both => true | small => false end.

(** The collection loop, from position [i] on.  It produces the entry of
    [results] and the entry of [equationResults] of each player that is
    not folded and has a bet type. *)
Fixpoint collect `{Host} (i : nat) (ps : list Player)
  : list (Entry * EquationResult) :=
  match ps with
  | [] => []
  | p :: rest =>
      match isFolded p, betType p with
      | false, Some b =>
          let s := evaluated (wantsSmall b) (submittedSmall p) in
          let l := evaluated (wantsBig b) (submittedBig p) in
          (mkEntry i p (result <$> s) (result <$> l),
           mkEquationResult (id p) (name p) b s l)
            :: collect (S i) rest
      | _, _ => collect (S i) rest
      end
  end.

(** [colorValues] *)
Definition colorValues (c : CardColor) : PrimFloat.float :=
  match c with
  | dark => ofZ 0
  | bronze => ofZ 1
  | silver => ofZ 2
  | gold => ofZ 3
  end.

(** [Math.min(...xs)] and [Math.max(...xs)] *)
Definition mathMin (xs : list PrimFloat.float) : PrimFloat.float :=
  fold_left (fun m x => if PrimFloat.ltb x m then x else m) xs
            PrimFloat.infinity.

Definition mathMax (xs : list PrimFloat.float) : PrimFloat.float :=
  fold_left (fun m x => if PrimFloat.ltb m x then x else m) xs
            PrimFloat.neg_infinity.

(** [p.cards.filter(c => c.type === 'number').map(c => colorValues[c.color])] *)
Fixpoint numberColors (cs : list Card) : list PrimFloat.float :=
  match cs with
  | [] => []
  | NumberCard _ c :: rest => colorValues c :: numberColors rest
  | OperationCard _ :: rest => numberColors rest
  end.

(** [Math.abs(v - goal)] *)
Definition distance (v : PrimFloat.float) (goal : Z) : PrimFloat.float :=
  PrimFloat.abs (PrimFloat.sub v (ofZ goal)).

(** The first pass for one target: the entries closest to [goal], in the
    order they are met. *)
Fixpoint closest (goal : Z) (value : Entry -> option PrimFloat.float)
    (rs : list Entry) (minDiff : PrimFloat.float) (winners : list Entry)
  : list Entry :=
  match rs with
  | [] => winners
  | r :: rest =>
      match value r with
      | Some v =>
          let diff := distance v goal in
          if PrimFloat.ltb diff minDiff then
            closest goal value rest diff [r]
          else if PrimFloat.eqb diff minDiff then
            closest goal value rest minDiff (winners ++ [r])
          else closest goal value rest minDiff winners
      | None => closest goal value rest minDiff winners
      end
  end.

Definition smallWinners (rs : list Entry) : list Entry :=
  closest 1 entrySmall rs PrimFloat.infinity [].

Definition bigWinners (rs : list Entry) : list Entry :=
  closest 20 entryBig rs PrimFloat.infinity [].

(** [winners.length > 0 ? winners.reduce(pick) : null] *)
Definition reduce (pick : Entry -> Entry -> Entry) (winners : list Entry)
  : option Entry :=
  match winners with
  | [] => None
  | a :: rest => Some (fold_left pick rest a)
  end.

Definition smallWinner (rs : list Entry) : option Entry :=
  reduce (fun a b =>
            let aMinCard := mathMin (numberColors (cards (player a))) in
            let bMinCard := mathMin (numberColors (cards (player b))) in
            if PrimFloat.ltb aMinCard bMinCard then a else b)
         (smallWinners rs).

Definition bigWinner (rs : list Entry) : option Entry :=
  reduce (fun a b =>
            let aMaxCard := mathMax (numberColors (cards (player a))) in
            let bMaxCard := mathMax (numberColors (cards (player b))) in
            if PrimFloat.ltb bMaxCard aMaxCard then a else b)
         (bigWinners rs).

(** [typeof value === 'number' && winner && winner.id !== r.player.id] *)
Definition lost (value : option PrimFloat.float) (winner : option Entry)
    (r : Entry) : bool :=
  match value, winner with
  | Some _, Some w => negb (id (player w) =? id (player r))%string
  | _, _ => false
  end.

Definition bothBetLosers (rs : list Entry) (sw bw : option Entry)
  : list Entry :=
  filter (fun r => lost (entrySmall r) sw r || lost (entryBig r) bw r)
    (filter (fun r => bool_decide (betType (player r) = Some both)) rs).

Definition isLoser (losers : list Entry) (w : Entry) : bool :=
  existsb (fun p => (id (player p) =? id (player w))%string) losers.

Definition everyBetType (b : BetType) (rs : list Entry) : bool :=
  forallb (fun r => bool_decide (betType (player r) = Some b)) rs.

(** [winner.chips += amount; game.winners.small = [winner.id]] *)
Definition paySmall (w : Entry) (amount : Z) (g : GameState) : GameState :=
  setWinnersSmall [id (player w)] (credit (ref w) amount g).

Definition payBig (w : Entry) (amount : Z) (g : GameState) : GameState :=
  setWinnersBig [id (player w)] (credit (ref w) amount g).

(** [Math.floor(pot / 2)] and [Math.ceil(pot / 2)] for a whole pot; the
    two halves of a pot with a fraction are not modelled. *)
Definition floorHalf (n : Z) : Z := n / 2.
Definition ceilHalf (n : Z) : Z := - ((- n) / 2).

(** [flag && winner] in a condition: the winner, if the test passes. *)
Definition when (flag : bool) (winner : option Entry) : option Entry :=
  if flag then winner else None.

(** [smallWinner && bigWinner && smallWinner.id === bigWinner.id] *)
Definition sameWinner (sw bw : option Entry) : option (Entry * Entry) :=
  match sw, bw with
  | Some s, Some b =>
      if (id (player s) =? id (player b))%string then Some (s, b) else None
  | _, _ => None
  end.

(** [winner && !bothBetLosers.some(p => p.id === winner.id)] *)
Definition notDisqualified (losers : list Entry) (winner : option Entry)
  : option Entry :=
  match winner with
  | Some w => if isLoser losers w then None else Some w
  | None => None
  end.

(** The chain of branches that pays, before the pot is cleared. *)
Definition distribute (rs : list Entry) (sw bw : option Entry)
    (g : GameState) : GameState :=
  let allSmall := everyBetType small rs in
  let allBig := everyBetType big rs in
  let losers := bothBetLosers rs sw bw in
  match when allSmall sw with
  | Some s => paySmall s (pot g) g
  | None =>
  match when allBig bw with
  | Some b => payBig b (pot g) g
  | None =>
  match sameWinner sw bw with
  | Some (s, b) => setWinnersBig [id (player b)] (paySmall s (pot g) g)
  | None =>
      if (0 <? length losers)%nat then
        match notDisqualified losers sw with
        | Some s => paySmall s (pot g) g
        | None =>
            match notDisqualified losers bw with
            | Some b => payBig b (pot g) g
            | None => g
            end
        end
      else
        let g1 := match sw with
                  | Some s => paySmall s (floorHalf (pot g)) g
                  | None => g
                  end in
        match bw with
        | Some b => payBig b (ceilHalf (pot g1)) g1
        | None => g1
        end
  end end end.

Definition resolveEquationsAndDistributePot `{Host} (g : GameState)
  : GameState :=
  let collected := collect 0 (players g) in
  let results := fst <$> collected in
  let sw := smallWinner results in
  let bw := bigWinner results in
  let g1 := setEquationResults (Some (snd <$> collected)) g in
  setPot 0 (distribute results sw bw g1).

(** ** Session state machine *)

(** What a call of a method of the service leaves behind: it returns, it
    throws (the state is the one reached when the error is raised), or
    it never returns. *)
Inductive Outcome :=
| Done (g : GameState)
| Thrown (message : string) (g : GameState)
| Diverges.

Definition andThen (o : Outcome) (k : GameState -> Outcome) : Outcome :=
  match o with
  | Done g => k g
  | Thrown m g => Thrown m g
  | Diverges => Diverges
  end.

Notation "o >>> k" := (andThen o k) (at level 50, left associativity).

(** [p.id.startsWith('bot-')] *)
Definition isBot (p : Player) : bool := String.prefix "bot-" (id p).

Definition isNumber (c : Card) : bool :=
  match c with NumberCard _ _ => true | OperationCard _ => false end.

(** [p.cards.filter(c => c.type === 'number').length] *)
Definition numberCount (p : Player) : nat :=
  length (filter (fun c => isNumber c = true) (cards p)).

(** [!p.isFolded] and [!p.isFolded && p.isActive] *)
Definition standing (p : Player) : bool := negb (isFolded p).
Definition inPlay (p : Player) : bool := negb (isFolded p) && isActive p.

(** [ps.filter(keep)] *)
Definition keeping (keep : Player -> bool) (ps : list Player)
  : list Player :=
  filter (fun p => keep p = true) ps.

(** [ps.find(test)], with the position of the object found *)
Definition findPlayer (test : Player -> bool) (ps : list Player)
  : option (nat * Player) :=
  list_find (fun p => test p = true) ps.

Definition byId (s : string) (p : Player) : bool := (id p =? s)%string.

Definition startingOperationCards : list OperationType :=
  [add; subtract; divide].

(** The player object [joinGame] creates in the waiting phase. *)
Definition newPlayer (newPlayerId playerName : string) : Player :=
  mkPlayer newPlayerId playerName 1000 [] startingOperationCards 0 None
    true false false false None.

(** *** Dealing *)

(** The payload of the [requireSwap] event. *)
Record SwapRequest := mkSwapRequest {
  requestPlayerId : string;
  requestPlayerName : string;
  availableCards : list OperationType;
  multiplyCard : Card
}.

(** How the [while] loop of one player ends.  [stack] is the deck with
    the card [pop] takes next in front. *)
Inductive Dealt :=
| Served (p : Player) (stack : list Card) (rnd : list nat)
| Starved (p : Player) (rnd : list nat)
| Interrupted (p : Player) (stack : list Card) (rnd : list nat)
    (request : SwapRequest)
| Crashed (p : Player) (stack : list Card) (rnd : list nat).

(** [player.cards.push(card)] *)
Definition push (card : Card) (p : Player) : Player :=
  setCards (cards p ++ [card]) p.

(** [player.cards.some(c => c.type === 'operation' &&
    c.operation === 'multiply') || player.hasMultiply] *)
Definition hasMultiplyCard (p : Player) : bool :=
  existsb (fun c => bool_decide (c = OperationCard multiply)) (cards p)
  || hasMultiply p.

(** The [while] loop of [dealCards] for one player. *)
Fixpoint dealPlayer (target : nat) (p : Player) (stack : list Card)
    (rnd : list nat) {struct stack} : Dealt :=
  if (target <=? numberCount p)%nat then Served p stack rnd
  else
    match stack with
    | [] => Starved p rnd
    | card :: stack' =>
        match card with
        | OperationCard squareRoot =>
            dealPlayer target (push card (setIsSquareRoot true p)) stack' rnd
        | OperationCard multiply =>
            if hasMultiplyCard p then dealPlayer target p stack' rnd
            else if isSquareRoot p then dealPlayer target p stack' rnd
            else if (0 <? length (operationCards p))%nat && negb (isBot p)
            then
              Interrupted (setHasMultiply true p) stack' rnd
                (mkSwapRequest (id p) (name p) (operationCards p) card)
            else if isBot p then
              let '(r, rnd') := draw rnd in
              let randomIndex := (r mod length (operationCards p))%nat in
              match operationCards p !! randomIndex with
              | Some _ =>
                  dealPlayer target
                    (setIsSquareRoot false
                       (push card
                          (setOperationCards
                             (delete randomIndex (operationCards p)) p)))
                    stack' rnd'
              | None => Crashed (push card p) stack' rnd'
              end
            else
              dealPlayer target (setIsSquareRoot false (push card p))
                stack' rnd
        | _ =>
            dealPlayer target (setIsSquareRoot false (push card p))
              stack' rnd
        end
    end.

(** How the [for] loop over the players ends: every player served, or
    the [return] of a starved deck or of a swap request, or the error of
    a bot that has no operation card left to give. *)
Inductive Pass :=
| Completed (ps : list Player) (stack : list Card) (rnd : list nat)
| Halted (ps : list Player) (stack : list Card) (rnd : list nat)
    (request : option SwapRequest)
| Failed (ps : list Player) (stack : list Card) (rnd : list nat).

Definition withPlayer (p : Player) (rest : Pass) : Pass :=
  match rest with
  | Completed ps stack rnd => Completed (p :: ps) stack rnd
  | Halted ps stack rnd request => Halted (p :: ps) stack rnd request
  | Failed ps stack rnd => Failed (p :: ps) stack rnd
  end.

Fixpoint dealEach (target : nat) (ps : list Player) (stack : list Card)
    (rnd : list nat) : Pass :=
  match ps with
  | [] => Completed [] stack rnd
  | p :: rest =>
      match dealPlayer target p stack rnd with
      | Served p' stack' rnd' =>
          withPlayer p' (dealEach target rest stack' rnd')
      | Starved p' rnd' => Halted (p' :: rest) [] rnd' None
      | Interrupted p' stack' rnd' request =>
          Halted (p' :: rest) stack' rnd' (Some request)
      | Crashed p' stack' rnd' => Failed (p' :: rest) stack' rnd'
      end
  end.

(** The state once the loop has left [ps], [stack] and [rnd]; the array
    [game.deck] has the next card at its end. *)
Definition afterPass (ps : list Player) (stack : list Card)
    (rnd : list nat) (g : GameState) : GameState :=
  setRandom rnd (setDeck (rev stack) (setPlayers ps g)).

(** The retry branch: every hand is emptied, card by card from its end,
    and each multiply card met goes to the front of the deck, so that
    the multiply cards of a hand end up there in the order of the hand. *)
Definition returnCards (g : GameState) : GameState :=
  let multiplies (p : Player) : list Card :=
    filter (fun c => c = OperationCard multiply) (cards p) in
  setPlayers (setCards [] <$> players g)
    (setDeck (fold_left (fun d p => (multiplies p ++ d)%list)
                        (players g) (deck g))
       g).

Definition firstStanding (g : GameState) : GameState :=
  match findPlayer standing (players g) with
  | Some (_, p) => setCurrentPlayer (id p) g
  | None => g
  end.

(** The end of [dealCards]: the step to the betting phase. *)
Definition openBetting (g : GameState) : GameState :=
  if existsb hasMultiply (players g) then g
  else
    match phase g with
    | dealing1 =>
        if forallb (fun p => (2 <=? numberCount p)%nat) (players g)
        then setPhase betting1 g else g
    | dealing2 =>
        if forallb (fun p => (4 <=? numberCount p)%nat) (players g)
        then
          firstStanding
            (setPlayers (setBet 0 <$> players g)
               (setCurrentBet 0 (setPhase betting2 g)))
        else g
    | _ => g
    end.

(** [dealCards]; [retries] bounds the depth of its recursion. *)
Fixpoint dealCardsWithin (retries : nat) (g : GameState) (target : nat)
    (requireExactNumberCards : bool) : Outcome :=
  match dealEach target (players g) (rev (deck g)) (random g) with
  | Halted ps stack rnd _ => Done (afterPass ps stack rnd g)
  | Failed ps stack rnd =>
      Thrown "TypeError: swappedCard is undefined"
        (afterPass ps stack rnd g)
  | Completed ps stack rnd =>
      let g1 := afterPass ps stack rnd g in
      let allPlayersHaveTargetCards :=
        forallb (fun p => hasMultiply p || (numberCount p =? target)%nat)
                (players g1) in
      if requireExactNumberCards && negb allPlayersHaveTargetCards then
        if existsb hasMultiply (players g1) then Done g1
        else
          match retries with
          | S n => dealCardsWithin n (returnCards g1) target
                     requireExactNumberCards
          | O => Diverges
          end
      else Done (openBetting g1)
  end.

(** One retry is all a deal can need: it starts from empty hands. *)
Definition dealCards : GameState -> nat -> bool -> Outcome :=
  dealCardsWithin 1.

Definition continueDealing (g : GameState) : Outcome :=
  match phase g with
  | dealing1 => dealCards g 2 true
  | dealing2 => dealCards g 4 true
  | _ => Done g
  end.

(** *** Phases and turns *)

Definition endGame `{Host} (g : GameState) : GameState :=
  setPhase ended (resolveEquationsAndDistributePot g).

Definition advanceGamePhase `{Host} (g : GameState) : Outcome :=
  match phase g with
  | preflop => dealCards (setPhase dealing1 g) 2 true
  | betting1 => dealCards (setPhase dealing2 g) 4 true
  | betting2 => Done (firstStanding (setPhase equation g))
  | equation => Done (endGame g)
  | _ => Done g
  end.

(** The search loop of [moveToNextPlayer], from position [i], for at
    most [steps] positions.  [None]: none of them is in play. *)
Fixpoint nextInPlay (ps : list Player) (steps : nat) (i : nat)
  : option nat :=
  match steps with
  | O => None
  | S n =>
      match ps !! i with
      | Some p =>
          if inPlay p then Some i
          else nextInPlay ps n ((i + 1) mod length ps)%nat
      | None => None
      end
  end.

(** [ps.every(p => p.bet === currentBet)] *)
Definition allBetsMatched (g : GameState) (ps : list Player) : bool :=
  forallb (fun p => bet p =? currentBet g) ps.

Definition isBetting (ph : Phase) : bool :=
  match ph with
  | preflop | betting1 | betting2 => true
  | _ => false
  end.

(** A search that visits every position without finding a player in
    play goes round for ever: the loop has no other exit. *)
Definition moveToNextPlayer `{Host} (g : GameState) : Outcome :=
  match findPlayer (byId (currentPlayer g)) (players g) with
  | None => Done g
  | Some (currentPlayerIndex, _) =>
      let n := length (players g) in
      match nextInPlay (players g) n ((currentPlayerIndex + 1) mod n)%nat
      with
      | None => Diverges
      | Some nextPlayerIndex =>
          let hasCompletedRound :=
            (nextPlayerIndex <=? currentPlayerIndex)%nat in
          if hasCompletedRound
             && allBetsMatched g (keeping inPlay (players g))
             && isBetting (phase g)
          then advanceGamePhase g
          else
            match players g !! nextPlayerIndex with
            | Some p => Done (setCurrentPlayer (id p) g)
            | None => Done g
            end
      end
  end.

(** [game.winners.small = [winner.id]; game.winners.big = [winner.id];
    winner.chips += game.pot; game.phase = 'ended'] *)
Definition lastPlayerWins (winner : nat * Player) (g : GameState)
  : GameState :=
  setPhase ended
    (credit winner.1 (pot g)
       (setWinnersBig [id winner.2] (setWinnersSmall [id winner.2] g))).

(** [player.isFolded = true; player.isActive = false] *)
Definition marked (i : nat) (g : GameState) : GameState :=
  updatePlayer i (fun p => setIsActive false (setIsFolded true p)) g.

Definition checkPlayerElimination (g : GameState) (i : nat) : GameState :=
  match players g !! i with
  | Some player =>
      if chips player <=? 0 then
        let g1 := marked i g in
        if (length (keeping inPlay (players g1)) <=? 1)%nat then
          match findPlayer inPlay (players g1) with
          | Some winner => lastPlayerWins winner g1
          | None => g1
          end
        else g1
      else g
  | None => g
  end.

(** [Math.min(...xs)]; [None] is the [Infinity] of an empty list. *)
Definition minimum (xs : list Z) : option Z :=
  match xs with
  | [] => None
  | x :: rest => Some (fold_left Z.min rest x)
  end.

(** [amount > lowestChips] *)
Definition exceeds (amount : Z) (lowestChips : option Z) : bool :=
  match lowestChips with
  | Some lowest => lowest <? amount
  | None => false
  end.

(** [player.chips -= amount; player.bet += amount; game.pot += amount],
    for a whole amount *)
Definition paid (i : nat) (amount : Z) (g : GameState) : GameState :=
  let g1 := updatePlayer i
              (fun p => setBet (bet p + amount)
                          (setChips (chips p - amount) p)) g in
  setPot (pot g1 + amount) g1.

Definition handleBet `{Host} (g : GameState) (i : nat) (amount : Z)
  : Outcome :=
  match players g !! i with
  | None => Done g
  | Some player =>
      if amount <=? currentBet g then
        Thrown "Bet must be higher than current bet" g
      else if chips player <? amount then Thrown "Not enough chips" g
      else if exceeds amount
                 (minimum (chips <$> keeping standing (players g))) then
        Thrown "Cannot bet more than the lowest chip player's amount" g
      else
        let g1 := setCurrentBet amount (paid i amount g) in
        moveToNextPlayer (checkPlayerElimination g1 i)
  end.

(** [game.players.length === 2 && some bot && some human] *)
Definition isSinglePlayerMode (g : GameState) : bool :=
  (length (players g) =? 2)%nat
  && existsb isBot (players g)
  && existsb (fun p => negb (isBot p)) (players g).

Definition handleCall `{Host} (g : GameState) (i : nat) : Outcome :=
  match players g !! i with
  | None => Done g
  | Some player =>
      let callAmount := currentBet g - bet player in
      if chips player <? callAmount then Thrown "Not enough chips" g
      else
        let g1 := checkPlayerElimination (paid i callAmount g) i in
        if isSinglePlayerMode g1 && negb (isBot player)
           && (0 <? callAmount) && bool_decide (phase g1 = betting1)
        then advanceGamePhase g1
        else moveToNextPlayer g1
  end.

Definition handleFold `{Host} (g : GameState) (i : nat) : Outcome :=
  let g1 := updatePlayer i (setIsFolded true) g in
  let activePlayers := keeping standing (players g1) in
  match (if (length activePlayers <=? 1)%nat
         then findPlayer standing (players g1) else None) with
  | Some winner => Done (lastPlayerWins winner g1)
  | None => moveToNextPlayer g1
  end.

Definition handleBetType (g : GameState) (i : nat) (b : BetType)
  : Outcome :=
  if bool_decide (phase g = equation) then
    Done (updatePlayer i (setBetType (Some b)) g)
  else Thrown "Can only select bet type during equation phase" g.

(** [cards.findIndex(card => card.operation === swapCardType)] *)
Definition operationIndex (t : OperationType) (ops : list OperationType)
  : option nat :=
  fst <$> list_find (fun o => o = t) ops.

Definition handleSwap (g : GameState) (i : nat)
    (swapCardType : OperationType) : Outcome :=
  match players g !! i with
  | None => Done g
  | Some player =>
      match operationIndex swapCardType (operationCards player) with
      | None =>
          Thrown "Card type not found in player's operation cards" g
      | Some cardIndex =>
          continueDealing
            (updatePlayer i
               (fun p => setHasMultiply false
                           (push (OperationCard multiply)
                              (setOperationCards
                                 (delete cardIndex (operationCards p)) p)))
               g)
      end
  end.

(** *** Actions *)

(** [action.type]; ['bet'] is [doBet] here, [bet] being a field of
    [Player], and [otherAction] is any string the [switch] has no case
    for. *)
Inductive ActionType :=
| continue | doBet | call | fold | selectBetType | submitEquation
| swapCard | noSwap | otherAction.

Global Instance ActionType_eq_dec : EqDecision ActionType.
Proof. solve_decision. Defined.

Record GameAction := mkAction {
  actionType : ActionType;
  actionPlayerId : string;
  amount : option Z;
  actionBetType : option BetType;
  equations : option Equations;
  swapCardType : option OperationType
}.

Definition isBettingAction (t : ActionType) : bool :=
  match t with
  | doBet | call | fold | continue => true
  | _ => false
  end.

(** The test of [allSubmitted] on one player *)
Definition hasSubmitted (p : Player) : bool :=
  if isFolded p || negb (isActive p) then true
  else
    match betType p with
    | Some both =>
        bool_decide (is_Some (truthy (submittedSmall p)))
        && bool_decide (is_Some (truthy (submittedBig p)))
    | Some small => bool_decide (is_Some (truthy (submittedSmall p)))
    | Some big => bool_decide (is_Some (truthy (submittedBig p)))
    | None => false
    end.

Definition submit `{Host} (g : GameState) (i : nat) (player : Player)
    (e : Equations) : Outcome :=
  let missing (x : option string) := bool_decide (truthy x = None) in
  match betType player with
  | Some both =>
      if missing (eqSmall e) || missing (eqBig e) then
        Thrown
          "Both small and big equations are required when betting both" g
      else Done g
  | Some small =>
      if missing (eqSmall e) then
        Thrown "Small equation is required when betting small" g
      else Done g
  | Some big =>
      if missing (eqBig e) then
        Thrown "Big equation is required when betting big" g
      else Done g
  | None =>
      Thrown "Bet type must be selected before submitting equations" g
  end >>> fun g =>
  let g1 := updatePlayer i (setSubmittedEquations (Some e)) g in
  if forallb hasSubmitted (players g1) then
    advanceGamePhase (resolveEquationsAndDistributePot g1)
  else Done g1.

(** The second check of the [noSwap] case, after [continueDealing] *)
Definition closeDealing (g : GameState) : GameState :=
  match phase g with
  | dealing1 =>
      if forallb (fun p => (2 <=? numberCount p)%nat) (players g)
      then setPhase betting1 g else g
  | dealing2 =>
      if forallb (fun p => (4 <=? numberCount p)%nat) (players g)
      then setPlayers (setBet 0 <$> players g)
             (setCurrentBet 0 (setPhase betting2 g))
      else g
  | _ => g
  end.

(** The phase tests repeated inside the cases for the betting actions
    and for [selectBetType] cannot fail after the tests in front of the
    [switch]; the case for [submitEquation] has the only test of its
    phase. *)
Definition performAction `{Host} (g : GameState) (action : GameAction)
  : Outcome :=
  match findPlayer (byId (actionPlayerId action)) (players g) with
  | None => Thrown "Player not found" g
  | Some (i, player) =>
      let type := actionType action in
      if negb (id player =? currentPlayer g)%string
         && negb (bool_decide (phase g = equation))
         && negb (bool_decide (type = swapCard))
         && negb (bool_decide (phase g = dealing1))
         && negb (bool_decide (phase g = dealing2))
      then Thrown "Not your turn" g
      else
        let isBettingPhase := isBetting (phase g) in
        let isEquationPhase := bool_decide (phase g = equation) in
        let isDealingPhase :=
          bool_decide (phase g = dealing1)
          || bool_decide (phase g = dealing2)
          || existsb hasMultiply (players g) in
        if negb isBettingPhase && isBettingAction type then
          Thrown "Betting actions are only allowed during betting phases" g
        else if isDealingPhase && isBettingAction type then
          Thrown "Betting actions are not allowed during dealing phase" g
        else if negb isEquationPhase && bool_decide (type = selectBetType)
        then
          Thrown "Bet type selection is only allowed during equation phase"
            g
        else
          match type with
          | continue =>
              if allBetsMatched g (keeping standing (players g)) then
                advanceGamePhase g
              else
                Thrown
                  "Cannot continue until all players have matched the current bet"
                  g
          | doBet =>
              match amount action with
              | Some a => handleBet g i a
              | None => Thrown "Bet amount is required" g
              end
          | call => handleCall g i
          | fold => handleFold g i
          | selectBetType =>
              match actionBetType action with
              | Some b => handleBetType g i b
              | None => Thrown "Bet type is required" g
              end
          | submitEquation =>
              if negb isEquationPhase then
                Thrown
                  "Equation submission is only allowed during equation phase"
                  g
              else
                match equations action with
                | Some e => submit g i player e
                | None => Thrown "Equations are required" g
                end
          | swapCard =>
              match swapCardType action with
              | Some t => handleSwap g i t
              | None => Thrown "Swap card type is required" g
              end
          | noSwap =>
              continueDealing (updatePlayer i (setHasMultiply false) g)
              >>> fun g' => Done (closeDealing g')
          | otherAction => Thrown "Invalid action" g
          end
  end.

(** *** Starting a round *)

Definition botPlayer (matching : Z) : Player :=
  mkPlayer "bot-1" "Bot Player" matching [] startingOperationCards 0 None
    true false false false None.

(** The body of the [forEach] of [startGame] *)
Definition resetPlayer (p : Player) : Player :=
  let currentChips := chips p in
  setChips currentChips
    (setHasMultiply false
       (setSubmittedEquations None
          (setIsFolded false
             (setIsActive true
                (setBetType None
                   (setBet 0
                      (setOperationCards startingOperationCards
                         (setCards [] p)))))))).

Definition startGame (g : GameState) : Outcome :=
  let g1 :=
    match players g with
    | [only] => setPlayers [only; botPlayer (chips only)] g
    | _ => g
    end in
  let '(d, rnd) := createDeck (random g1) in
  let g2 := setPhase preflop (setDeck d (setRandom rnd g1)) in
  match players g2 with
  | [] => Thrown "TypeError: game.players[0] is undefined" g2
  | first :: _ =>
      Done
        (setPlayers (resetPlayer <$> players g2)
           (setEquationResults None
              (setWinnersBig []
                 (setWinnersSmall []
                    (setPot 0
                       (setCurrentBet 0
                          (setCurrentPlayer (id first) g2)))))))
  end.

(** *** Joining and leaving *)

(** The player object [joinGame] adds to a round that is under way. *)
Definition spectator (spectatorId playerName : string) : Player :=
  mkPlayer spectatorId (playerName ++ " (Spectator)")%string 0 [] [] 0 None
    false true false false None.

(** What [joinGame] gives back: the id it returns with the state it
    leaves, or the error it throws. *)
Inductive JoinResult :=
| JoinedAs (joinedId : string) (g : GameState)
| JoinRefused (message : string) (g : GameState).

(** [joinGame], for a game the registry holds.  [uuid] is the value the
    call of [uuidv4()] gives. *)
Definition joinGame (g : GameState) (playerName : string)
    (playerId : option string) (uuid : string) : JoinResult :=
  let existingPlayer :=
    match truthy playerId with
    | Some known =>
        match findPlayer
                (fun p => (id p =? known)%string
                          && (name p =? playerName)%string) (players g)
        with
        | Some (i, _) => Some (known, i)
        | None => None
        end
    | None => None
    end in
  match existingPlayer with
  | Some (known, i) => JoinedAs known (updatePlayer i (setIsActive true) g)
  | None =>
      if negb (bool_decide (phase g = waiting))
         && negb (bool_decide (phase g = ended))
      then
        JoinedAs uuid
          (setPlayers (players g ++ [spectator uuid playerName]) g)
      else if negb (bool_decide (phase g = waiting)) then
        JoinRefused "Game has already started" g
      else
        JoinedAs uuid
          (setPlayers (players g ++ [newPlayer uuid playerName]) g)
  end.

(** [p.isActive && !p.isFolded] *)
Definition connected (p : Player) : bool := isActive p && negb (isFolded p).

(** [handlePlayerDisconnect], for the first game of the registry that
    seats a player with the id [socketId]. *)
Definition handlePlayerDisconnect `{Host} (g : GameState)
    (socketId : string) : Outcome :=
  match findPlayer (byId socketId) (players g) with
  | None => Done g
  | Some (i, _) =>
      let g1 := updatePlayer i (setIsActive false) g in
      (if (currentPlayer g1 =? socketId)%string then moveToNextPlayer g1
       else Done g1)
      >>> fun g2 =>
        let activePlayers := keeping connected (players g2) in
        if (length activePlayers <=? 1)%nat
           && negb (bool_decide (phase g2 = waiting))
        then
          match findPlayer connected (players g2) with
          | Some winner => Done (lastPlayerWins winner g2)
          | None => Done (setPhase ended g2)
          end
        else Done g2
  end.

(** *** The turn of a bot *)

(** The symbol [generateEquation] writes for an operation card. *)
Definition operationSymbol (o : OperationType) : string :=
  match o with
  | multiply => "*"
  | divide => "/"
  | add => "+"
  | _ => "-"
  end.

(** The values of the number cards of a hand, in its order. *)
Fixpoint numberValues (cs : list Card) : list Z :=
  match cs with
  | [] => []
  | NumberCard v _ :: rest => v :: numberValues rest
  | OperationCard _ :: rest => numberValues rest
  end.

(** The loop of [generateEquation]: each number, followed by the symbol
    of the operation card of the same index when there is one. *)
Fixpoint generateFrom (values : list Z) (ops : list OperationType)
  : string :=
  match values with
  | [] => ""
  | v :: rest =>
      (numberToString v
       ++ match ops with
          | [] => generateFrom rest []
          | o :: ops' => operationSymbol o ++ generateFrom rest ops'
          end)%string
  end.

Definition generateEquation (bot : Player) : string :=
  generateFrom (numberValues (cards bot)) (operationCards bot).

Definition betTypes : list BetType := [small; big; both].

(** [try { ... } catch (error) { console.error(...) }] *)
Definition caught (o : Outcome) : Outcome :=
  match o with
  | Thrown _ g => Done g
  | _ => o
  end.

(** The first part of [handleBotTurn], which runs at once: the position
    of the bot whose turn a timer is set for, if the current player is a
    bot.  Nothing is changed before the timer fires. *)
Definition handleBotTurn (g : GameState) : option nat :=
  match findPlayer (byId (currentPlayer g)) (players g) with
  | Some (i, bot) => if isBot bot then Some i else None
  | None => None
  end.

(** The second part of [handleBotTurn], which runs when the timer
    fires, on the state of that moment, for the bot found before at
    position [i]. *)
Definition botTurn `{Host} (g : GameState) (i : nat) : Outcome :=
  match players g !! i with
  | None => Done g
  | Some bot =>
      caught
        (if bool_decide (phase g = equation) then
           match betType bot with
           | Some _ => Done g
           | None =>
               let '(r, rnd) := draw (random g) in
               match betTypes !! (r mod length betTypes)%nat with
               | None => Done g
               | Some randomBetType =>
                   handleBetType (setRandom rnd g) i randomBetType
                   >>> fun g1 =>
                     let text := generateEquation bot in
                     let equations :=
                       mkEquations
                         (if wantsSmall randomBetType then Some text
                          else None)
                         (if wantsBig randomBetType then Some text
                          else None) in
                     performAction g1
                       (mkAction submitEquation (id bot) None None
                          (Some equations) None)
               end
           end
         else if isBetting (phase g) then
           let callAmount := currentBet g - bet bot in
           if chips bot <? callAmount then handleFold g i
           else handleCall g i
         else Done g)
  end.

(** ** Vocabulary of the statements *)

(** The part of a player that dealing, paying and turn taking never
    change. *)
Definition seat (p : Player) : string * bool * bool :=
  (id p, isFolded p, isActive p).

(** The state a call leaves, whether it returns or throws. *)
Definition leaves (o : Outcome) (g' : GameState) : Prop :=
  o = Done g' ∨ ∃ m, o = Thrown m g'.

Definition dealtPlayer (d : Dealt) : Player :=
  match d with
  | Served p _ _ | Starved p _ | Interrupted p _ _ _ | Crashed p _ _ => p
  end.

Definition passPlayers (r : Pass) : list Player :=
  match r with
  | Completed ps _ _ | Halted ps _ _ _ | Failed ps _ _ => ps
  end.

(** Position [i] holds a player marked folded and inactive. *)
Definition eliminated (g : GameState) (i : nat) : Prop :=
  (fun p => (isFolded p, isActive p)) <$> players g !! i
  = Some (true, false).

(** [w], at position [k], is the only player in play besides the one at
    position [i]. *)
Definition soleSurvivor (g : GameState) (i k : nat) (w : Player) : Prop :=
  players g !! k = Some w ∧ k ≠ i ∧ inPlay w = true ∧
  ∀ j q, players g !! j = Some q → j ≠ i → inPlay q = true → j = k.

(** [w], at position [k], is recorded as winner of both targets, has
    been paid [total] and the session has ended. *)
Definition wonEverything (g' : GameState) (k : nat) (w : Player)
    (total : Z) : Prop :=
  winnersSmall g' = [id w] ∧ winnersBig g' = [id w] ∧ phase g' = ended ∧
  chips <$> players g' !! k = Some (chips w + total).

(** What a deal or a move to the next player carries over, seen through
    a projection [f] of the players: [f] of every player, the current
    bet and the pot, but for the reset of the bets ([reset]) that opens
    the second betting round. *)
Definition carried {A : Type} (f : Player -> A) (reset : bool)
    (g g' : GameState) : Prop :=
  f <$> players g'
  = f <$> (if reset then setBet 0 <$> players g else players g) ∧
  currentBet g' = (if reset then 0 else currentBet g) ∧
  pot g' = pot g.

(** The phases before and after a deal, and before and after a move to
    the next player. *)
Definition dealtPhase (reset : bool) (before after : Phase) : Prop :=
  if reset then before = dealing2 ∧ after = betting2
  else after = before ∨ (before = dealing1 ∧ after = betting1).

Definition movedPhase (reset : bool) (before after : Phase) : Prop :=
  if reset then before = betting1 ∧ after = betting2
  else after = betting2 → before = betting2.

(** What is left of the deck when the loop of a player, or the loop over
    the players, ends; a starved loop has emptied it. *)
Definition dealtStack (d : Dealt) : list Card :=
  match d with
  | Served _ stack _ | Interrupted _ stack _ _ | Crashed _ stack _ => stack
  | Starved _ _ => []
  end.

Definition passStack (r : Pass) : list Card :=
  match r with
  | Completed _ stack _ | Halted _ stack _ _ | Failed _ stack _ => stack
  end.

(** The cards of all hands, player after player. *)
Definition hands (ps : list Player) : list Card := mjoin (cards <$> ps).

(** Every card but a multiply card. *)
Definition notMultiply (cs : list Card) : list Card :=
  filter (fun c => c ≠ OperationCard multiply) cs.

(** [p.id === playerId && p.name === playerName] for an id that has
    been supplied: [p] is the player that a join with this name and id
    comes back as. *)
Definition seatedAs (playerName : string) (playerId : option string)
    (p : Player) : Prop :=
  playerId = Some (id p) ∧ id p ≠ "" ∧ name p = playerName.

(** The number of number cards that [continueDealing] deals up to. *)
Definition dealingTarget (ph : Phase) : option nat :=
  match ph with
  | dealing1 => Some 2%nat
  | dealing2 => Some 4%nat
  | _ => None
  end.

(** The multiply cards of a player: those in the hand, and the one
    offered for a swap that is still pending. *)
Definition multiplyCount (p : Player) : nat :=
  length (filter (fun c => c = OperationCard multiply) (cards p))
  + (if hasMultiply p then 1 else 0).

(** The part of a player that a deal never changes. *)
Definition account (p : Player)
  : string * string * Z * option BetType * bool * bool * option Equations :=
  (id p, name p, chips p, betType p, isActive p, isFolded p,
   submittedEquations p).

(** The error of a bot that is dealt a multiply card and has no
    operation card left to give for it. *)
Definition swapTypeError : string := "TypeError: swappedCard is undefined".

(** The order in which a round goes through its phases. *)
Definition phaseRank (ph : Phase) : nat :=
  match ph with
  | waiting => 0
  | preflop => 1
  | dealing1 => 2
  | betting1 => 3
  | dealing2 => 4
  | betting2 => 5
  | equation => 6
  | ended => 7
  end.

(** The operation cards of a player who is not a bot; the deal takes
    operation cards from bots only. *)
Definition humanOperationCards (p : Player)
  : option (list OperationType) :=
  if isBot p then None else Some (operationCards p).

(** A player holds a valid result for a target: the bet type asks for
    the target ([wanted]) and the equation submitted for it has a
    value. *)
Definition validFor `{Host} (wanted : BetType -> bool)
    (submitted : Player -> option string) (p : Player) : Prop :=
  ∃ b text v,
    betType p = Some b ∧ wanted b = true ∧
    truthy (submitted p) = Some text ∧ safeEval text = Some v.

(** A well-formed equation in the slots of the builder: operands and
    binary operators in turn, from an operand to an operand, an operand
    being a number card that is not negative or a square-root card with
    such a number card in the next slot; empty slots may lie between
    them.  [awaited] tells whether an operand is awaited. *)
Fixpoint alternating (awaited : bool) (slots : list CardSlot) : bool :=
  match slots with
  | [] => negb awaited
  | slot :: rest =>
      match slotCard slot with
      | None => alternating awaited rest
      | Some (NumberCard v _) =>
          awaited && (0 <=? v) && alternating false rest
      | Some (OperationCard squareRoot) =>
          awaited &&
          match rest with
          | nextSlot :: rest' =>
              match slotCard nextSlot with
              | Some (NumberCard v _) => (0 <=? v) && alternating false rest'
              | _ => false
              end
          | [] => false
          end
      | Some (OperationCard _) => negb awaited && alternating true rest
      end
  end.

(** The tokens the server reads in the parts of a text. *)
Definition tokensOf (parts : list string) : option (list Token) :=
  tokenize (filter (fun p => negb (trim p =? "")%string) parts).

(** The text of the slots, as [buildEquation] joins it. *)
Definition slotsText (slots : list CardSlot) : string :=
  joined (slotText <$> omap slotCard slots).

Definition totalChips (g : GameState) : Z :=
  fold_right Z.add 0 (chips <$> players g).

(** ** Scenarios *)

(** A host that accepts nothing beyond the arithmetic modelled above;
    the equations of the scenarios never reach it. *)
Definition arithmeticOnly : Host := fun _ => None.

(** A player seated with a hand, a bet type and submitted equations. *)
Definition seated (playerId playerName : string) (hand : list Card)
    (b : BetType) (e : Equations) : Player :=
  setSubmittedEquations (Some e)
    (setBetType (Some b)
       (setBet 50 (setChips 950 (setCards hand (newPlayer playerId playerName))))).

(** A table in the equation phase with a pot of 101. *)
Definition showdown (ps : list Player) : GameState :=
  mkGame "4711" ps [] "p1" 101 50 equation 1 [] [] None [].

(** The hands of the showdowns.  Ana's lowest card is the gold 0, and
    she also holds a dark card; Ben's lowest card is the bronze 1 and he
    holds no dark card. *)
Definition anaHand : list Card :=
  [NumberCard 0 gold; NumberCard 4 dark; NumberCard 2 silver;
   NumberCard 6 silver].

Definition benHand : list Card :=
  [NumberCard 1 bronze; NumberCard 3 bronze; NumberCard 5 silver;
   NumberCard 8 silver].

(** Both bet small; Ana reaches 2 and Ben 0, at distance 1 from the
    target both. *)
Definition anaSmall : Player :=
  seated "p1" "Ana" anaHand small (mkEquations (Some "6-4+0/2") None).

Definition benSmall : Player :=
  seated "p2" "Ben" benHand small (mkEquations (Some "5+3-8/1") None).

(** Ben bets big and his equation has no value: it ends in an
    operator. *)
Definition benInvalidBig : Player :=
  seated "p2" "Ben" benHand big (mkEquations None (Some "8+5-3/")).

(** Both players bet both.  Ana reaches 2 and 8, Ben 6 and 10: Ana wins
    small and loses big, Ben wins big and loses small. *)
Definition anaBoth : Player :=
  seated "p1" "Ana" anaHand both
    (mkEquations (Some "6-4+0/2") (Some "6+2-0/4")).

Definition benBoth : Player :=
  seated "p2" "Ben" benHand both
    (mkEquations (Some "8-5+3/1") (Some "8+5-3/1")).

(** Ben bets big only and reaches 10. *)
Definition benBig : Player :=
  seated "p2" "Ben" benHand big (mkEquations None (Some "8+5-3/1")).

(** Two players who have just joined, at the start of the first round. *)
Definition opening : GameState :=
  mkGame "4711" [newPlayer "p1" "Ana"; newPlayer "p2" "Ben"]
    (createDeck []).1 "p1" 0 0 preflop 1 [] [] None [].

Definition betOf (who : string) (a : Z) : GameAction :=
  mkAction doBet who (Some a) None None None.

Definition submitOf (who : string) (e : Equations) : GameAction :=
  mkAction submitEquation who None None (Some e) None.

(** Ana has bet 50 and Ben has raised to 100; Ana is to act. *)
Definition raised : GameState :=
  mkGame "4711"
    [ setBet 50 (setChips 950 (newPlayer "p1" "Ana"));
      setBet 100 (setChips 900 (newPlayer "p2" "Ben")) ]
    (createDeck []).1 "p1" 150 100 preflop 1 [] [] None [].

(** The state a re-raise of Ana to 150 leaves. *)
Definition afterReraise : GameState :=
  match performAction (H := arithmeticOnly) raised (betOf "p1" 150) with
  | Done g | Thrown _ g => g
  | Diverges => raised
  end.

(** Ana and a bot at the showdown: Ana has bet small and submitted, the
    bot has not chosen a bet type yet; the next random draw is 1. *)
Definition botHand : list Card :=
  [NumberCard 3 gold; NumberCard 5 dark; NumberCard 2 bronze;
   NumberCard 7 silver].

Definition botAtShowdown : Player :=
  setCards botHand (setBet 50 (setChips 950 (botPlayer 1000))).

Definition botShowdown : GameState :=
  setRandom [1%nat] (showdown [anaSmall; botAtShowdown]).


(** The slots of a builder that hold 3, +, an empty place, the square
    root and 9. *)
Definition threePlusRootNine : list CardSlot :=
  [ mkSlot "slot-1" (Some (NumberCard 3 gold));
    mkSlot "slot-2" (Some (OperationCard add));
    mkSlot "slot-3" None;
    mkSlot "slot-4" (Some (OperationCard squareRoot));
    mkSlot "slot-5" (Some (NumberCard 9 dark)) ].

(** A number card put in front of a square root. *)
Definition threeRootNine : list CardSlot :=
  [ mkSlot "slot-1" (Some (NumberCard 3 gold));
    mkSlot "slot-2" (Some (OperationCard squareRoot));
    mkSlot "slot-3" (Some (NumberCard 9 dark)) ].

(** The first betting round after the first deal: Ana is to act, and
    nobody has a pending swap. *)
Definition firstBetting : GameState :=
  mkGame "4711"
    [ setCards [NumberCard 4 gold; NumberCard 9 dark]
        (setBet 50 (setChips 950 (newPlayer "p1" "Ana")));
      setCards [NumberCard 2 silver; NumberCard 6 bronze]
        (setBet 50 (setChips 950 (newPlayer "p2" "Ben"))) ]
    [NumberCard 5 gold; NumberCard 1 dark] "p1" 100 50 betting1 1 [] []
    None [].

(** Ana has 100 chips left and Ben 500; Ana is to act. *)
Definition shortStack (currentBetNow : Z) : GameState :=
  mkGame "4711"
    [ setChips 100 (newPlayer "p1" "Ana");
      setBet currentBetNow
        (setChips (500 - currentBetNow) (newPlayer "p2" "Ben")) ]
    (createDeck []).1 "p1" currentBetNow currentBetNow preflop 1 [] []
    None [].

(** An ended round in which the second player has lost all chips and
    has been eliminated. *)
Definition afterElimination : GameState :=
  mkGame "4711"
    [ setChips 2000 (newPlayer "p1" "Ana");
      setIsFolded true
        (setIsActive false (setChips 0 (newPlayer "p2" "Ben"))) ]
    [] "p1" 2000 0 ended 1 ["p1"] ["p1"] None [].

(** The first deal of a round with a multiply card on top of the deck,
    at the end of the array, and a second one two cards below. *)
Definition multiplyOnTop : GameState :=
  mkGame "4711" [newPlayer "p1" "Ana"; newPlayer "p2" "Ben"]
    [NumberCard 5 gold; NumberCard 1 dark; NumberCard 7 gold;
     NumberCard 3 silver; OperationCard multiply; NumberCard 2 bronze;
     OperationCard multiply]
    "p1" 0 0 dealing1 1 [] [] None [].

(** The same deal once it has stopped to offer Ana the multiply card. *)
Definition swapOffered : GameState :=
  mkGame "4711"
    [setHasMultiply true (newPlayer "p1" "Ana"); newPlayer "p2" "Ben"]
    [NumberCard 5 gold; NumberCard 1 dark; NumberCard 7 gold;
     NumberCard 3 silver; OperationCard multiply; NumberCard 2 bronze]
    "p1" 0 0 dealing1 1 [] [] None [].

(** The same ended round with Cyd, who has joined while it was played
    and has watched it as a spectator. *)
Definition watched : GameState :=
  setPlayers (players afterElimination ++ [spectator "p3" "Cyd"])
    afterElimination.

(** The square-root flag is set, the player still lacks a number card,
    and a multiply card is on top of the deck. *)
Definition afterSquareRoot : Player :=
  setIsSquareRoot true
    (setCards [NumberCard 3 gold; OperationCard squareRoot]
       (newPlayer "p1" "Ana")).

(** * Properties *)

(** ** Deck builder *)

Section DeckBuilder.

Lemma swap_Permutation d i j : swap d i j ≡ₚ d.
Proof.
  unfold swap.
  destruct (d !! i) as [ci|] eqn:Hi; [|reflexivity].
  destruct (d !! j) as [cj|] eqn:Hj; [|reflexivity].
  by apply Permutation_insert_swap.
Qed.

Lemma shuffle_Permutation i : ∀ d rnd, (shuffle i d rnd).1 ≡ₚ d.
Proof.
  induction i as [|i IH]; intros d rnd; simpl; [reflexivity|].
  destruct (draw rnd) as [r rnd'].
  rewrite IH. apply swap_Permutation.
Qed.

Lemma copies_Permutation c d d' : d ≡ₚ d' → copies c d = copies c d'.
Proof.
  intros H. unfold copies.
  by apply (Permutation_count_occ Card_eq_dec).
Qed.

Lemma orderedDeck_number v col :
  In (NumberCard v col) orderedDeck → 0 ≤ v ≤ 10.
Proof.
  unfold orderedDeck. simpl. intros H.
  repeat (destruct H as [H|H]; [inversion H; lia|]).
  destruct H.
Qed.

Lemma orderedDeck_copies c : copies c orderedDeck = expectedCopies c.
Proof.
  destruct c as [v col | op].
  - unfold expectedCopies.
    destruct (Z.leb_spec 0 v) as [H0|H0];
      [destruct (Z.leb_spec v 10) as [H10|H10]|]; cbn [andb].
    + assert (Hv : v = 0 ∨ v = 1 ∨ v = 2 ∨ v = 3 ∨ v = 4 ∨ v = 5 ∨
                   v = 6 ∨ v = 7 ∨ v = 8 ∨ v = 9 ∨ v = 10) by lia.
      clear H0 H10.
      destruct col;
        repeat (destruct Hv as [-> | Hv]; [vm_compute; reflexivity|]);
        subst v; vm_compute; reflexivity.
    + apply count_occ_not_In. intros Hin.
      apply orderedDeck_number in Hin. lia.
    + apply count_occ_not_In. intros Hin.
      apply orderedDeck_number in Hin. lia.
  - destruct op; vm_compute; reflexivity.
Qed.

End DeckBuilder.

(** C7. Every deck produced by [createDeck] has 52 cards and holds, as a
    multiset, exactly one number card per value 0..10 and colour, four
    multiply and four squareRoot cards and no other card; the shuffle
    returns a permutation of the deck it is given, whatever the random
    draws. *)
Theorem createDeck_composition :
  (∀ i d rnd, (shuffle i d rnd).1 ≡ₚ d) ∧
  ∀ rnd,
    length (createDeck rnd).1 = 52%nat ∧
    ∀ c, copies c (createDeck rnd).1 = expectedCopies c.
Proof.
  split; [intros; apply shuffle_Permutation|].
  intros rnd.
  assert (H : (createDeck rnd).1 ≡ₚ orderedDeck)
    by apply shuffle_Permutation.
  split.
  - by rewrite (Permutation_length H).
  - intros c. rewrite (copies_Permutation _ _ _ H).
    apply orderedDeck_copies.
Qed.

(** ** Equation evaluator *)

(** C6. [safeEval] gives 14 for "2+3*4" (the product is formed first,
    the result is not the 20 of a left-to-right reading) and 7 for
    "sqrt4+5", and it returns its failure value, [null], without
    throwing, for "5/0", for the empty string and for "sqrt" with no
    operand. *)
Theorem safeEval_examples `{Host} :
  safeEval "2+3*4" = Some (ofZ 14) ∧
  safeEval "2+3*4" ≠ Some (ofZ 20) ∧
  safeEval "sqrt4+5" = Some (ofZ 7) ∧
  safeEval "5/0" = None ∧
  safeEval "" = None ∧
  safeEval "sqrt" = None.
Proof.
  repeat apply conj; try (vm_compute; reflexivity).
  intros E.
  assert (E0 : safeEval "2+3*4" = Some (ofZ 14)) by (vm_compute; reflexivity).
  rewrite E0 in E.
  apply (f_equal (fun r => match r with
                           | Some v => PrimFloat.eqb (ofZ 14) v
                           | None => false
                           end)) in E.
  vm_compute in E. discriminate E.
Qed.

(** ** Scoring and payout resolver *)

Section Resolver.

Context `{Host}.

Lemma collect_lookup ps : ∀ i e,
  e ∈ (collect i ps).*1 →
  ∃ k, ref e = (i + k)%nat ∧ ps !! k = Some (player e).
Proof.
  induction ps as [|p ps IH]; intros i e He; cbn [collect] in He.
  { by apply elem_of_nil in He. }
  assert (Hrest : e ∈ (collect (S i) ps).*1 →
                  ∃ k, ref e = (i + k)%nat ∧ (p :: ps) !! k = Some (player e)).
  { intros [k [Hk Hp]]%IH. exists (S k). split; [lia|done]. }
  destruct (isFolded p); [by apply Hrest|].
  destruct (betType p); [|by apply Hrest].
  cbn [fmap list_fmap fst] in He.
  apply elem_of_cons in He as [->|He]; [|by apply Hrest].
  exists 0%nat. split; [cbn; lia|done].
Qed.

Lemma results_lookup g e :
  e ∈ (collect 0 (players g)).*1 → players g !! ref e = Some (player e).
Proof. intros [k [-> Hk]]%collect_lookup. done. Qed.

Lemma closest_elem goal value rs : ∀ minDiff winners e,
  e ∈ closest goal value rs minDiff winners → e ∈ winners ∨ e ∈ rs.
Proof.
  induction rs as [|r rs IH]; intros minDiff winners e He;
    cbn [closest] in He; [by left|].
  destruct (value r) as [v|].
  - destruct (PrimFloat.ltb _ _).
    + apply IH in He as [He|He]; [|right; by right].
      apply list_elem_of_singleton in He as ->. right. by left.
    + destruct (PrimFloat.eqb _ _).
      * apply IH in He as [He|He]; [|right; by right].
        apply elem_of_app in He as [He|He]; [by left|].
        apply list_elem_of_singleton in He as ->. right. by left.
      * apply IH in He as [He|He]; [by left|right; by right].
  - apply IH in He as [He|He]; [by left|right; by right].
Qed.

Lemma fold_left_pick (pick : Entry → Entry → Entry) ws : ∀ a,
  (∀ x y, pick x y = x ∨ pick x y = y) →
  fold_left pick ws a = a ∨ fold_left pick ws a ∈ ws.
Proof.
  induction ws as [|w ws IH]; intros a Hpick; cbn; [by left|].
  destruct (IH (pick a w) Hpick) as [E|E].
  - rewrite E. destruct (Hpick a w) as [->| ->]; [by left|right; by left].
  - right. by right.
Qed.

Lemma reduce_elem pick ws w :
  (∀ x y, pick x y = x ∨ pick x y = y) →
  reduce pick ws = Some w → w ∈ ws.
Proof.
  intros Hpick. destruct ws as [|a ws]; cbn; [done|].
  intros [= <-]. destruct (fold_left_pick pick ws a Hpick) as [->|E];
    [by left|by right].
Qed.

Lemma smallWinner_elem rs s : smallWinner rs = Some s → s ∈ rs.
Proof.
  intros Hs. apply reduce_elem in Hs.
  - apply closest_elem in Hs as [Hs|Hs]; [by apply elem_of_nil in Hs|done].
  - intros x y. cbn. destruct (PrimFloat.ltb _ _); [by left|by right].
Qed.

Lemma bigWinner_elem rs b : bigWinner rs = Some b → b ∈ rs.
Proof.
  intros Hb. apply reduce_elem in Hb.
  - apply closest_elem in Hb as [Hb|Hb]; [by apply elem_of_nil in Hb|done].
  - intros x y. cbn. destruct (PrimFloat.ltb _ _); [by left|by right].
Qed.

Lemma bothBetLosers_elem rs sw bw x :
  x ∈ bothBetLosers rs sw bw →
  x ∈ rs ∧ betType (player x) = Some both ∧
  (lost (entrySmall x) sw x = true ∨ lost (entryBig x) bw x = true).
Proof.
  unfold bothBetLosers.
  intros [Hlost [Hboth Hx]%list_elem_of_filter]%list_elem_of_filter.
  apply bool_decide_unpack in Hboth.
  apply Is_true_true, orb_true_iff in Hlost. done.
Qed.

Lemma everyBetType_both rs x b :
  x ∈ rs → betType (player x) = Some both → b ≠ both →
  everyBetType b rs = false.
Proof.
  intros Hx Hboth Hb. apply not_true_is_false. intros Hall.
  unfold everyBetType in Hall. rewrite forallb_forall in Hall.
  specialize (Hall x (proj1 (list_elem_of_In _ _) Hx)).
  apply bool_decide_eq_true in Hall. congruence.
Qed.

Lemma isLoser_false losers w x :
  isLoser losers w = false → x ∈ losers → id (player x) ≠ id (player w).
Proof.
  unfold isLoser. intros Hw Hx E.
  apply not_true_iff_false in Hw. apply Hw.
  apply existsb_exists. exists x. split; [by apply list_elem_of_In|].
  by apply String.eqb_eq.
Qed.

Lemma lost_id value winner w x :
  lost value winner x = true → winner = Some w →
  id (player w) ≠ id (player x).
Proof.
  unfold lost. intros Hl ->. destruct value; [|done].
  apply negb_true_iff in Hl. by apply String.eqb_neq.
Qed.

Lemma sameWinner_not_loser rs sw bw s b :
  sameWinner sw bw = Some (s, b) →
  isLoser (bothBetLosers rs sw bw) s = false.
Proof.
  unfold sameWinner. destruct sw as [s'|]; [|done].
  destruct bw as [b'|]; [|done].
  destruct (id (player s') =? id (player b'))%string eqn:E; [|done].
  intros [= -> ->]. apply String.eqb_eq in E.
  apply not_true_is_false. intros Hl.
  unfold isLoser in Hl. apply existsb_exists in Hl as [x [Hx Hid]].
  apply list_elem_of_In, bothBetLosers_elem in Hx as (_ & _ & [Hl|Hl]).
  - apply (lost_id _ _ s) in Hl; [|done]. apply String.eqb_eq in Hid. done.
  - apply (lost_id _ _ b) in Hl; [|done]. apply String.eqb_eq in Hid.
    congruence.
Qed.

Lemma credit_other g k amount j :
  j ≠ k → players (credit k amount g) !! j = players g !! j.
Proof. intros Hj. cbn. by apply list_lookup_alter_ne. Qed.

Lemma players_paySmall w amount g :
  players (paySmall w amount g) = players (credit (ref w) amount g).
Proof. reflexivity. Qed.

Lemma players_payBig w amount g :
  players (payBig w amount g) = players (credit (ref w) amount g).
Proof. reflexivity. Qed.

Lemma notDisqualified_Some losers w x :
  notDisqualified losers w = Some x ↔ w = Some x ∧ isLoser losers x = false.
Proof.
  unfold notDisqualified. destruct w as [y|].
  - destruct (isLoser losers y) eqn:Hy.
    + split; [done|]. intros [[= ->] Hx]. congruence.
    + split; [by intros [= ->]|]. by intros [[= ->] _].
  - split; [done|]. by intros [? _].
Qed.

Lemma bothBetLosers_mixed rs sw bw :
  bothBetLosers rs sw bw ≠ [] →
  everyBetType small rs = false ∧ everyBetType big rs = false.
Proof.
  destruct (bothBetLosers rs sw bw) as [|x l] eqn:El; [done|]. intros _.
  assert (Hx : x ∈ bothBetLosers rs sw bw) by (rewrite El; by left).
  apply bothBetLosers_elem in Hx as (Hxr & Hb & _).
  split; by eapply everyBetType_both.
Qed.

(** With a disqualified both bettor at the table the pot goes, whole, to
    the first of small winner and big winner that is not disqualified. *)
Lemma distribute_forfeit rs sw bw g :
  let losers := bothBetLosers rs sw bw in
  losers ≠ [] →
  players (distribute rs sw bw g)
  = players match notDisqualified losers sw with
            | Some s => credit (ref s) (pot g) g
            | None =>
                match notDisqualified losers bw with
                | Some b => credit (ref b) (pot g) g
                | None => g
                end
            end.
Proof.
  intros losers Hne.
  destruct (bothBetLosers_mixed rs sw bw Hne) as [Hsmall Hbig].
  unfold distribute. fold losers. rewrite Hsmall, Hbig. unfold when.
  destruct (sameWinner sw bw) as [[s b]|] eqn:Hsw.
  - pose proof (sameWinner_not_loser rs sw bw s b Hsw) as Hs.
    fold losers in Hs.
    assert (Es : sw = Some s).
    { unfold sameWinner in Hsw. destruct sw, bw; try done.
      destruct (_ =? _)%string; [|done]. by injection Hsw as -> _. }
    rewrite (proj2 (notDisqualified_Some losers sw s)) by done.
    reflexivity.
  - destruct losers; [done|]. cbn [length Nat.ltb Nat.leb].
    destruct (notDisqualified _ sw); [reflexivity|].
    destruct (notDisqualified _ bw); reflexivity.
Qed.

(** *** Payout (C3): the pot is cleared, and the two halves of a split
    add up to the pot. *)
Lemma resolve_clears_pot g : pot (resolveEquationsAndDistributePot g) = 0.
Proof. reflexivity. Qed.

Lemma floorHalf_ceilHalf n : floorHalf n + ceilHalf n = n.
Proof.
  unfold floorHalf, ceilHalf.
  pose proof (Z.div_mod n 2 ltac:(lia)).
  pose proof (Z.div_mod (- n) 2 ltac:(lia)).
  pose proof (Z.mod_pos_bound n 2 ltac:(lia)).
  pose proof (Z.mod_pos_bound (- n) 2 ltac:(lia)).
  lia.
Qed.

Lemma totalChips_credit g k amount :
  is_Some (players g !! k) →
  totalChips (credit k amount g) = totalChips g + amount.
Proof.
  unfold totalChips. cbn [credit updatePlayer players setPlayers].
  generalize (players g). intros ps. revert k.
  induction ps as [|q ps IH]; intros k [x Hx]; [done|].
  destruct k as [|k]; cbn in *.
  - lia.
  - rewrite IH by eauto. lia.
Qed.

(** With two distinct winners, players of different bet types and no
    disqualified both bettor, the small winner is paid the floor and
    the big winner the ceiling of half the pot, and no chip is lost. *)
Lemma split_conserves g s b :
  let rs := (collect 0 (players g)).*1 in
  smallWinner rs = Some s → bigWinner rs = Some b →
  everyBetType small rs = false → everyBetType big rs = false →
  id (player s) ≠ id (player b) →
  bothBetLosers rs (Some s) (Some b) = [] →
  let g' := resolveEquationsAndDistributePot g in
  players g'
  = players (credit (ref b) (ceilHalf (pot g))
               (credit (ref s) (floorHalf (pot g)) g))
  ∧ totalChips g' = totalChips g + pot g.
Proof.
  intros rs Hs Hb Hsmall Hbig Hid Hlosers g'.
  assert (Hg' : players g'
                = players (credit (ref b) (ceilHalf (pot g))
                             (credit (ref s) (floorHalf (pot g)) g))).
  { subst g'. unfold resolveEquationsAndDistributePot, distribute.
    fold rs. rewrite Hs, Hb, Hsmall, Hbig, Hlosers. unfold when, sameWinner.
    apply String.eqb_neq in Hid. rewrite Hid. reflexivity. }
  split; [exact Hg'|].
  unfold totalChips at 1. rewrite Hg'.
  fold (totalChips (credit (ref b) (ceilHalf (pot g))
                      (credit (ref s) (floorHalf (pot g)) g))).
  apply smallWinner_elem, results_lookup in Hs.
  apply bigWinner_elem, results_lookup in Hb.
  rewrite !totalChips_credit.
  - pose proof (floorHalf_ceilHalf (pot g)). lia.
  - eauto.
  - cbn. apply lookup_lt_is_Some. rewrite length_alter.
    apply lookup_lt_is_Some. eauto.
Qed.

Lemma collect_standing ps : ∀ i e,
  e ∈ (collect i ps).*1 → isFolded (player e) = false.
Proof.
  induction ps as [|p ps IH]; intros i e He; cbn [collect] in He.
  { by apply elem_of_nil in He. }
  destruct (isFolded p) eqn:Hp; [by eapply IH|].
  destruct (betType p); [|by eapply IH].
  cbn [fmap list_fmap fst] in He.
  apply elem_of_cons in He as [->|He]; [done|by eapply IH].
Qed.

Lemma when_Some flag w s : when flag w = Some s → w = Some s.
Proof. unfold when. by destruct flag. Qed.

Lemma sameWinner_Some sw bw s b :
  sameWinner sw bw = Some (s, b) → sw = Some s ∧ bw = Some b.
Proof.
  unfold sameWinner. destruct sw, bw; try done.
  destruct (_ =? _)%string; [|done]. by intros [= -> ->].
Qed.

(** The resolver changes no player but the two winners. *)
Lemma distribute_untouched rs sw bw g j :
  (∀ s, sw = Some s → ref s ≠ j) → (∀ b, bw = Some b → ref b ≠ j) →
  players (distribute rs sw bw g) !! j = players g !! j.
Proof.
  intros Hs Hb. unfold distribute.
  destruct (when _ sw) as [s|] eqn:E1.
  { apply when_Some in E1. rewrite players_paySmall. apply credit_other.
    intros E. by apply (Hs s). }
  destruct (when _ bw) as [b|] eqn:E2.
  { apply when_Some in E2. rewrite players_payBig. apply credit_other.
    intros E. by apply (Hb b). }
  destruct (sameWinner sw bw) as [[s b]|] eqn:E3.
  { apply sameWinner_Some in E3 as [E3 _].
    change (players (credit (ref s) (pot g) g) !! j = players g !! j).
    apply credit_other. intros E. by apply (Hs s). }
  destruct (0 <? _)%nat.
  - destruct (notDisqualified _ sw) as [s|] eqn:E4.
    { apply notDisqualified_Some in E4 as [E4 _].
      rewrite players_paySmall. apply credit_other.
      intros E. by apply (Hs s). }
    destruct (notDisqualified _ bw) as [b|] eqn:E5; [|done].
    apply notDisqualified_Some in E5 as [E5 _].
    rewrite players_payBig. apply credit_other.
    intros E. by apply (Hb b).
  - assert (Hg1 : players match sw with
                          | Some s => paySmall s (floorHalf (pot g)) g
                          | None => g
                          end !! j = players g !! j).
    { destruct sw as [s|]; [|done]. rewrite players_paySmall.
      apply credit_other. intros E. by apply (Hs s). }
    destruct bw as [b|]; [|done].
    rewrite players_payBig, credit_other; [done|].
    intros E. by apply (Hb b).
Qed.

(** The resolver leaves a folded player as it is. *)
Lemma resolve_untouched g j p :
  players g !! j = Some p → isFolded p = true →
  players (resolveEquationsAndDistributePot g) !! j = Some p.
Proof.
  intros Hj Hp. unfold resolveEquationsAndDistributePot.
  cbn [players setPot].
  assert (Hne : ∀ e, e ∈ (collect 0 (players g)).*1 → ref e ≠ j).
  { intros e He E. pose proof (collect_standing _ _ _ He) as Hst.
    apply results_lookup in He. rewrite E, Hj in He. congruence. }
  rewrite distribute_untouched; [done| |].
  - intros s Hs. by apply Hne, smallWinner_elem.
  - intros b Hb. by apply Hne, bigWinner_elem.
Qed.

End Resolver.

(** C1, at a failing input.  Ana and Ben tie on the small target, at
    distance 1.  The lowest card of Ben (bronze) has a lower colour rank
    than the lowest card of Ana (gold), yet the resolver makes Ana the
    small winner, in either order of the players: it compares the
    lowest colour rank found anywhere in a hand, and Ana holds a dark
    4. *)
Theorem small_tie_break_compares_lowest_colour `{Host} :
  safeEval "6-4+0/2" = Some (ofZ 2) ∧
  safeEval "5+3-8/1" = Some (ofZ 0) ∧
  winnersSmall (resolveEquationsAndDistributePot
                  (showdown [anaSmall; benSmall])) = ["p1"] ∧
  winnersSmall (resolveEquationsAndDistributePot
                  (showdown [benSmall; anaSmall])) = ["p1"].
Proof. repeat apply conj; vm_compute; reflexivity. Qed.

(** C2, the claim as stated fails.  Ana bets both, wins small and is
    not the big winner; Ben wins big.  Ben is himself a both bettor who
    lost small, and he receives nothing. *)
Lemma disqualified_big_winner_unpaid :
  let g := showdown [anaBoth; benBoth] in
  let g' := resolveEquationsAndDistributePot (H := arithmeticOnly) g in
  pot g = 101 ∧
  winnersSmall g' = [] ∧ winnersBig g' = [] ∧
  ref <$> smallWinner (collect (H := arithmeticOnly) 0 (players g)).*1
  = Some 0%nat ∧
  ref <$> bigWinner (collect (H := arithmeticOnly) 0 (players g)).*1
  = Some 1%nat ∧
  chips <$> players g !! 1%nat = Some 950 ∧
  chips <$> players g' !! 1%nat = Some 950.
Proof. repeat apply conj; vm_compute; reflexivity. Qed.

(** C2, amended.  When some player who bet both has a valid result for
    a target and is not the winner of that target, every such player
    receives nothing and the pot is not split.  The winner of a target
    who is not such a player takes the whole pot when the other target
    has no winner, or a winner who is such a player, or the same
    winner.  So when X bets both, wins small and loses big, and the big
    winner Y is not such a player, Y receives the whole pot and X
    receives 0.  Nothing is said here of two different winners none of
    whom is disqualified, nor of two disqualified winners. *)
Theorem both_bet_forfeiture `{Host} (g : GameState) :
  let rs := (collect 0 (players g)).*1 in
  let sw := smallWinner rs in
  let bw := bigWinner rs in
  let losers := bothBetLosers rs sw bw in
  let g' := resolveEquationsAndDistributePot g in
  losers ≠ [] →
  (∀ x, x ∈ losers →
        chips <$> players g' !! ref x = Some (chips (player x))) ∧
  (∀ s, sw = Some s → isLoser losers s = false →
        (notDisqualified losers bw = None
         ∨ ∃ b, bw = Some b ∧ id (player b) = id (player s)) →
        players g' = players (credit (ref s) (pot g) g)) ∧
  (∀ b, bw = Some b → isLoser losers b = false →
        notDisqualified losers sw = None →
        players g' = players (credit (ref b) (pot g) g)) ∧
  (∀ x y, sw = Some x → x ∈ losers →
          bw = Some y → isLoser losers y = false →
          players g' = players (credit (ref y) (pot g) g) ∧
          chips <$> players g' !! ref x = Some (chips (player x))).
Proof.
  intros rs sw bw losers g' Hne.
  assert (Hunpaid : ∀ w x, w ∈ rs → isLoser losers w = false →
            x ∈ losers →
            chips <$> players (credit (ref w) (pot g) g) !! ref x
            = Some (chips (player x))).
  { intros w x Hw Hnl Hx.
    pose proof (isLoser_false _ _ _ Hnl Hx) as Hid.
    pose proof (bothBetLosers_elem _ _ _ _ Hx) as (Hxr & _ & _).
    apply results_lookup in Hw, Hxr.
    rewrite credit_other; [by rewrite Hxr|].
    intros E. rewrite E in Hxr. congruence. }
  assert (Hsame : ∀ x, x ∈ losers →
            chips <$> players g !! ref x = Some (chips (player x))).
  { intros x Hx.
    pose proof (bothBetLosers_elem _ _ _ _ Hx) as (Hxr & _ & _).
    apply results_lookup in Hxr. by rewrite Hxr. }
  assert (Hg' : players g'
                = players match notDisqualified losers sw with
                          | Some s => credit (ref s) (pot g) g
                          | None =>
                              match notDisqualified losers bw with
                              | Some b => credit (ref b) (pot g) g
                              | None => g
                              end
                          end).
  { subst g'. unfold resolveEquationsAndDistributePot.
    cbn [players setPot]. fold rs sw bw.
    rewrite distribute_forfeit by done. fold losers.
    destruct (notDisqualified losers sw);
      [|destruct (notDisqualified losers bw)]; reflexivity. }
  pose proof (smallWinner_elem rs) as Hsw.
  pose proof (bigWinner_elem rs) as Hbw.
  fold sw in Hsw. fold bw in Hbw.
  assert (Hlosers : ∀ x, x ∈ losers →
            chips <$> players g' !! ref x = Some (chips (player x))).
  { rewrite Hg'. intros x Hx.
    destruct (notDisqualified losers sw) as [s|] eqn:Hs.
    { apply notDisqualified_Some in Hs as [Es Hs]. apply Hunpaid; auto. }
    destruct (notDisqualified losers bw) as [b|] eqn:Hb; [|by apply Hsame].
    apply notDisqualified_Some in Hb as [Eb Hb]. apply Hunpaid; auto. }
  assert (Hbig : ∀ b, bw = Some b → isLoser losers b = false →
            notDisqualified losers sw = None →
            players g' = players (credit (ref b) (pot g) g)).
  { intros b Eb Hb Hs. rewrite Hg', Hs.
    by rewrite (proj2 (notDisqualified_Some losers bw b)). }
  repeat split; [done| |done| |].
  - intros s Es Hs _. rewrite Hg'.
    by rewrite (proj2 (notDisqualified_Some losers sw s)).
  - apply Hbig; [done..|].
    assert (isLoser losers x = true) as Hx.
    { apply existsb_exists. exists x.
      split; [by apply list_elem_of_In|]. apply String.eqb_refl. }
    unfold notDisqualified.
    match goal with E : sw = Some x |- _ => rewrite E end. by rewrite Hx.
  - by apply Hlosers.
Qed.

(** Ana bets both, wins small and loses big to Ben, who bets big only:
    Ben takes the pot of 101 and Ana receives nothing. *)
Lemma both_bet_forfeiture_witness :
  let g := showdown [anaBoth; benBig] in
  let rs := (collect (H := arithmeticOnly) 0 (players g)).*1 in
  let g' := resolveEquationsAndDistributePot (H := arithmeticOnly) g in
  (ref <$> smallWinner rs = Some 0%nat ∧
   ref <$> bigWinner rs = Some 1%nat ∧
   chips <$> players g = [950; 950] ∧ pot g = 101) ∧
  players g' = players (credit 1 101 g) ∧
  chips <$> players g' !! 0%nat = Some 950.
Proof.
  intros g rs g'.
  split; [repeat split; vm_compute; reflexivity|].
  destruct (both_bet_forfeiture (H := arithmeticOnly) g)
    as (_ & _ & _ & Hscenario); [vm_compute; discriminate|].
  apply (Hscenario
           (mkEntry 0 anaBoth (Some (ofZ 2)) (Some (ofZ 8)))
           (mkEntry 1 benBig None (Some (ofZ 10))));
    try (vm_compute; reflexivity).
  vm_compute. apply list_elem_of_here.
Defined.

(** C3, at a failing input.  With a small winner and no big winner the
    split branch pays [floor(pot / 2)] only: of a pot of 101, 50 chips
    reach a player and 51 are lost when the pot is cleared. *)
Theorem split_without_big_winner_loses_chips `{Host} :
  let g := showdown [anaSmall; benInvalidBig] in
  let g' := resolveEquationsAndDistributePot g in
  pot g = 101 ∧ totalChips g' - totalChips g = 50 ∧ pot g' = 0.
Proof. repeat apply conj; vm_compute; reflexivity. Qed.

(** ** Bets and turns *)

Section Betting.

Context `{Host}.

Lemma fold_left_min_le (xs : list Z) : ∀ x y,
  y ∈ x :: xs → fold_left Z.min xs x ≤ y.
Proof.
  induction xs as [|z xs IH]; intros x y Hy; cbn [fold_left].
  - apply list_elem_of_singleton in Hy as ->. lia.
  - apply elem_of_cons in Hy as [->|Hy].
    + etransitivity; [apply (IH _ (Z.min x z)); by left|lia].
    + apply elem_of_cons in Hy as [->|Hy].
      * etransitivity; [apply (IH _ (Z.min x z)); by left|lia].
      * apply IH. by right.
Qed.

Lemma exceeds_elem amount (xs : list Z) y :
  y ∈ xs → y < amount → exceeds amount (minimum xs) = true.
Proof.
  intros Hy Hlt. destruct xs as [|x xs]; [by apply elem_of_nil in Hy|].
  cbn. apply Z.ltb_lt.
  pose proof (fold_left_min_le xs x y Hy). lia.
Qed.

(** A bet that is not above the current bet, or above the chips of the
    bettor, or above the chips of a player still in play, is rejected
    and the state is the one before. *)
Lemma handleBet_rejected g i p amount :
  players g !! i = Some p →
  amount ≤ currentBet g ∨ chips p < amount ∨
    (∃ q, q ∈ players g ∧ inPlay q = true ∧ chips q < amount) →
  ∃ m, handleBet g i amount = Thrown m g.
Proof.
  intros Hp Hbad. unfold handleBet. rewrite Hp.
  destruct (Z.leb_spec amount (currentBet g)); [by eexists|].
  destruct (Z.ltb_spec (chips p) amount); [by eexists|].
  destruct Hbad as [?|[?|(q & Hq & Hin & Hlt)]]; [lia|lia|].
  rewrite (exceeds_elem amount _ (chips q)); [by eexists| |done].
  apply list_elem_of_fmap. exists q. split; [done|].
  apply list_elem_of_filter. split; [|done].
  unfold inPlay in Hin. apply andb_true_iff in Hin as [Hin _]. done.
Qed.

(** The bookkeeping of an accepted bet, as the turn logic receives it:
    chips down by the amount, pot up by the amount, [currentBet] equal
    to the amount, and the bet of the player up by the amount. *)
Lemma handleBet_bookkeeping g i p amount :
  players g !! i = Some p →
  let g1 := setCurrentBet amount (paid i amount g) in
  chips <$> players g1 !! i = Some (chips p - amount) ∧
  bet <$> players g1 !! i = Some (bet p + amount) ∧
  pot g1 = pot g + amount ∧ currentBet g1 = amount.
Proof.
  intros Hp g1. subst g1. cbn. rewrite list_lookup_alter_eq, Hp. done.
Qed.

(** *** Turns (C5): every action but [swapCard] is refused out of turn
    in a betting phase. *)
Lemma out_of_turn_rejected g action i p :
  findPlayer (byId (actionPlayerId action)) (players g) = Some (i, p) →
  id p ≠ currentPlayer g →
  isBetting (phase g) = true →
  actionType action ≠ swapCard →
  performAction g action = Thrown "Not your turn" g.
Proof.
  intros Hf Hid Hph Ht. unfold performAction. rewrite Hf.
  apply String.eqb_neq in Hid. rewrite Hid.
  rewrite (bool_decide_eq_false_2 (actionType action = swapCard)) by done.
  destruct (phase g); try discriminate Hph; reflexivity.
Qed.

End Betting.

(** C5, at a failing input.  In a betting phase Ben, who is not the
    current player and has no pending swap, sends [swapCard]: the action
    is accepted, and Ben has traded his add card for a multiply card. *)
Theorem swapCard_out_of_turn_accepted `{Host} :
  ∃ g', performAction firstBetting
          (mkAction swapCard "p2" None None None (Some add)) = Done g' ∧
        currentPlayer firstBetting = "p1" ∧
        hasMultiply <$> players firstBetting !! 1%nat = Some false ∧
        operationCards <$> players g' !! 1%nat = Some [subtract; divide] ∧
        cards <$> players g' !! 1%nat
        = Some [NumberCard 2 silver; NumberCard 6 bronze;
                OperationCard multiply].
Proof. eexists. repeat apply conj; vm_compute; reflexivity. Qed.

(** ** Dealing *)

Section Dealing.

Lemma dealPlayer_served target q stack rnd :
  (target ≤ numberCount q)%nat →
  dealPlayer target q stack rnd = Served q stack rnd.
Proof.
  intros Hq. destruct stack; simpl;
    destruct (Nat.leb_spec target (numberCount q)); (reflexivity || lia).
Qed.

Lemma dealPlayer_squareRoot_multiply target p stack rnd :
  isSquareRoot p = true →
  (numberCount p < target)%nat →
  dealPlayer target p (OperationCard multiply :: stack) rnd
  = dealPlayer target p stack rnd.
Proof.
  intros Hsq Hcount. cbn [dealPlayer].
  destruct (Nat.leb_spec target (numberCount p)); [lia|].
  rewrite Hsq. destruct (hasMultiplyCard p); reflexivity.
Qed.

Lemma dealEach_served target served ps stack rnd :
  Forall (fun q => (target ≤ numberCount q)%nat) served →
  dealEach target (served ++ ps) stack rnd
  = fold_right withPlayer (dealEach target ps stack rnd) served.
Proof.
  induction 1 as [|q served Hq _ IH]; [reflexivity|].
  cbn [app dealEach fold_right].
  by rewrite dealPlayer_served, IH.
Qed.

Lemma afterPass_setDeck ps stack rnd d g :
  afterPass ps stack rnd (setDeck d g) = afterPass ps stack rnd g.
Proof. reflexivity. Qed.

(** *** Dealing returns: the retry of [dealCards] is taken at most
    once. *)
Lemma numberCount_push card p :
  numberCount (push card p)
  = (numberCount p + if isNumber card then 1 else 0)%nat.
Proof.
  unfold numberCount, push. cbn [cards setCards].
  rewrite filter_app, length_app. f_equal.
  destruct card; reflexivity.
Qed.

Lemma numberCount_cards p q : cards p = cards q → numberCount p = numberCount q.
Proof. unfold numberCount. by intros ->. Qed.

Lemma dealPlayer_count target stack : ∀ p rnd p' stack' rnd',
  (numberCount p ≤ target)%nat →
  dealPlayer target p stack rnd = Served p' stack' rnd' →
  numberCount p' = target.
Proof.
  induction stack as [|card stack IH]; intros p rnd p' stack' rnd' Hle;
    cbn [dealPlayer];
    destruct (Nat.leb_spec target (numberCount p)) as [Hge|Hlt];
    try (intros [= <- _ _]; lia); try done.
  assert (Hpush : ∀ c q, cards q = cards (push c p) →
            isNumber c = false ∨ (numberCount p < target)%nat →
            (numberCount q ≤ target)%nat).
  { intros c q Hq Hc. rewrite (numberCount_cards q (push c p) Hq).
    rewrite numberCount_push. destruct (isNumber c); lia. }
  destruct card as [v c|[]];
    try (apply IH; apply (Hpush _ _ eq_refl); by right).
  destruct (hasMultiplyCard p); [by apply IH|].
  destruct (isSquareRoot p); [by apply IH|].
  destruct (_ && _); [done|].
  destruct (isBot p).
  - destruct (draw rnd) as [r rnd2].
    destruct (operationCards p !! _); [|done].
    apply IH. apply (Hpush (OperationCard multiply) _ eq_refl). by right.
  - apply IH. apply (Hpush (OperationCard multiply) _ eq_refl). by right.
Qed.

Lemma dealEach_count target ps : ∀ stack rnd ps' stack' rnd',
  Forall (fun p => (numberCount p ≤ target)%nat) ps →
  dealEach target ps stack rnd = Completed ps' stack' rnd' →
  Forall (fun p => numberCount p = target) ps'.
Proof.
  induction ps as [|p ps IH]; intros stack rnd ps' stack' rnd' Hle;
    cbn [dealEach].
  { by intros [= <- _ _]. }
  apply Forall_cons in Hle as [Hp Hle].
  destruct (dealPlayer target p stack rnd) as [q s r| | |] eqn:Hq; try done.
  destruct (dealEach target ps s r) as [qs s2 r2| |] eqn:Hqs; try done.
  cbn. intros [= <- _ _]. constructor.
  - by eapply dealPlayer_count.
  - by eapply IH.
Qed.

Theorem dealCards_returns g target strict :
  dealCards g target strict ≠ Diverges.
Proof.
  unfold dealCards. cbn [dealCardsWithin].
  destruct (dealEach target (players g) _ _) as [ps stack rnd| |];
    try done.
  destruct (strict && _); [|done].
  destruct (existsb _ _); [done|].
  destruct (dealEach target _ _ _) as [ps' stack' rnd'| |] eqn:Hpass;
    try done.
  apply dealEach_count in Hpass.
  - assert (Hall : forallb
                     (fun p => hasMultiply p || (numberCount p =? target)%nat)
                     (players (afterPass ps' stack' rnd'
                                 (returnCards (afterPass ps stack rnd g))))
                   = true).
    { apply forallb_forall. intros q Hq.
      apply list_elem_of_In in Hq. cbn in Hq.
      rewrite Forall_forall in Hpass. rewrite (Hpass q Hq).
      rewrite Nat.eqb_refl. apply orb_true_r. }
    rewrite Hall. by destruct strict.
  - cbn. apply Forall_forall. intros q Hq.
    apply list_elem_of_fmap in Hq as [q0 [-> _]]. cbn. lia.
Qed.

End Dealing.

(** C10. When a multiply card is drawn for a player whose square-root
    flag is set, the card has no effect at all: the loop of that player
    goes on from the rest of the deck with the player unchanged (nothing
    added to the hand, no pending swap, no request sent), and the whole
    deal, for every player, is the deal of the deck without that card. *)
Theorem multiply_after_squareRoot_discarded
    (target : nat) (p : Player) (stack : list Card) (rnd : list nat) :
  isSquareRoot p = true →
  (numberCount p < target)%nat →
  dealPlayer target p (OperationCard multiply :: stack) rnd
  = dealPlayer target p stack rnd
  ∧ ∀ g served rest retries strict,
      players g = served ++ p :: rest →
      Forall (fun q => (target ≤ numberCount q)%nat) served →
      deck g = rev stack ++ [OperationCard multiply] →
      random g = rnd →
      dealCardsWithin retries g target strict
      = dealCardsWithin retries (setDeck (rev stack) g) target strict.
Proof.
  intros Hsq Hcount.
  pose proof (dealPlayer_squareRoot_multiply target p stack rnd Hsq Hcount)
    as Hstep.
  split; [exact Hstep|].
  intros g served rest retries strict Hps Hserved Hdeck Hrnd.
  assert (Heach :
    dealEach target (players g) (rev (deck g)) (random g)
    = dealEach target (players (setDeck (rev stack) g))
        (rev (deck (setDeck (rev stack) g)))
        (random (setDeck (rev stack) g))).
  { cbn [setDeck players deck random]. rewrite Hps, Hdeck, Hrnd.
    rewrite rev_app_distr, rev_involutive. cbn [rev app].
    rewrite !dealEach_served by done.
    f_equal. cbn [dealEach]. by rewrite Hstep. }
  destruct retries; cbn [dealCardsWithin]; rewrite <- Heach;
    destruct (dealEach target (players g) (rev (deck g)) (random g));
    rewrite ?afterPass_setDeck; reflexivity.
Qed.

Lemma multiply_after_squareRoot_discarded_witness :
  dealPlayer 2 afterSquareRoot
    [OperationCard multiply; NumberCard 7 dark] []
  = dealPlayer 2 afterSquareRoot [NumberCard 7 dark] []
  ∧ dealPlayer 2 afterSquareRoot [NumberCard 7 dark] []
    = Served
        (setIsSquareRoot false
           (setCards [NumberCard 3 gold; OperationCard squareRoot;
                      NumberCard 7 dark] afterSquareRoot))
        [] [].
Proof.
  split; [|reflexivity].
  apply (multiply_after_squareRoot_discarded 2 afterSquareRoot
           [NumberCard 7 dark] []).
  - reflexivity.
  - vm_compute. lia.
Defined.

(** ** What a deal carries over *)

Lemma leaves_Done g g' : leaves (Done g) g' → g' = g.
Proof. by intros [[= <-]|[m [=]]]. Qed.

Section Projection.

Context `{Host} {A : Type} (f : Player → A).

Hypothesis f_setCards : ∀ v p, f (setCards v p) = f p.
Hypothesis f_setOperationCards :
  ∀ v p, isBot p = true → f (setOperationCards v p) = f p.
Hypothesis f_setIsSquareRoot : ∀ v p, f (setIsSquareRoot v p) = f p.
Hypothesis f_setHasMultiply : ∀ v p, f (setHasMultiply v p) = f p.
Hypothesis f_setBet : ∀ p q, f p = f q → f (setBet 0 p) = f (setBet 0 q).

Lemma dealPlayer_frame target stack : ∀ p rnd,
  f (dealtPlayer (dealPlayer target p stack rnd)) = f p.
Proof.
  induction stack as [|card stack IH]; intros p rnd; cbn [dealPlayer].
  { by destruct (target <=? numberCount p)%nat. }
  destruct (target <=? numberCount p)%nat; [done|].
  assert (Hpush : ∀ q, f (setIsSquareRoot false (push card q)) = f q).
  { intros q. unfold push. by rewrite f_setIsSquareRoot, f_setCards. }
  destruct card as [v c|[]]; try (by rewrite IH, Hpush).
  - destruct (hasMultiplyCard p); [by rewrite IH|].
    destruct (isSquareRoot p); [by rewrite IH|].
    destruct ((0 <? length (operationCards p))%nat && negb (isBot p));
      [apply f_setHasMultiply|].
    destruct (isBot p) eqn:Hbot; [|by rewrite IH, Hpush].
    destruct (draw rnd) as [r rnd'].
    destruct (operationCards p !! _).
    + by rewrite IH, Hpush, f_setOperationCards.
    + apply f_setCards.
  - rewrite IH. unfold push. by rewrite f_setCards, f_setIsSquareRoot.
Qed.

Lemma passPlayers_withPlayer p r :
  passPlayers (withPlayer p r) = p :: passPlayers r.
Proof. by destruct r. Qed.

Lemma dealEach_frame target ps : ∀ stack rnd,
  f <$> passPlayers (dealEach target ps stack rnd) = f <$> ps.
Proof.
  induction ps as [|p ps IH]; intros stack rnd; cbn [dealEach]; [done|].
  pose proof (dealPlayer_frame target stack p rnd) as Hp.
  destruct (dealPlayer target p stack rnd) as [p' s' r'|p' r'|p' s' r' q|p' s' r'];
    cbn [dealtPlayer] in Hp; cbn [passPlayers fmap list_fmap];
    try (by rewrite Hp).
  rewrite passPlayers_withPlayer. cbn [fmap list_fmap].
  rewrite Hp. f_equal. apply IH.
Qed.

Lemma fmap_setter (h : Player → Player) (ps : list Player) :
  (∀ p, f (h p) = f p) → f <$> (h <$> ps) = f <$> ps.
Proof.
  intros Hh. rewrite <- list_fmap_compose. apply list_fmap_ext.
  intros i x _. apply Hh.
Qed.

Lemma alter_frame (h : Player → Player) (i : nat) (ps : list Player) :
  (∀ p, f (h p) = f p) → f <$> alter h i ps = f <$> ps.
Proof.
  intros Hh. rewrite (list_fmap_alter f h (fun x => x)).
  - by apply list_alter_id.
  - apply Forall_forall. intros x _. apply Hh.
Qed.

Lemma fmap_reset (ps : list Player) : ∀ qs : list Player,
  f <$> ps = f <$> qs → f <$> (setBet 0 <$> ps) = f <$> (setBet 0 <$> qs).
Proof.
  induction ps as [|p ps IH]; intros [|q qs] E; try done.
  cbn in *. injection E as E1 E2. f_equal; [by apply f_setBet|by apply IH].
Qed.

Lemma carried_congr r g0 g g' :
  f <$> players g = f <$> players g0 →
  currentBet g = currentBet g0 → pot g = pot g0 →
  carried f r g g' → carried f r g0 g'.
Proof.
  intros Hf Hcb Hpot (E1 & E2 & E3). unfold carried.
  rewrite E1, E2, E3, Hcb, Hpot.
  destruct r; [|done]. by rewrite (fmap_reset _ _ Hf).
Qed.

Lemma firstStanding_fields g :
  players (firstStanding g) = players g ∧
  currentBet (firstStanding g) = currentBet g ∧
  pot (firstStanding g) = pot g ∧ phase (firstStanding g) = phase g.
Proof. unfold firstStanding. by destruct (findPlayer _ _) as [[]|]. Qed.

Lemma openBetting_carried g :
  ∃ r, carried f r g (openBetting g)
       ∧ dealtPhase r (phase g) (phase (openBetting g)).
Proof.
  unfold openBetting.
  destruct (existsb _ _); [exists false; repeat split; by left|].
  destruct (phase g) eqn:Hph; try (exists false; repeat split; by left).
  - destruct (forallb _ _); exists false; repeat split; cbn; auto.
  - destruct (forallb _ _); [|exists false; repeat split; by left].
    exists true.
    destruct (firstStanding_fields
                (setPlayers (setBet 0 <$> players g)
                   (setCurrentBet 0 (setPhase betting2 g))))
      as (E1 & E2 & E3 & E4).
    unfold carried, dealtPhase. by rewrite E1, E2, E3, E4.
Qed.

Lemma dealCardsWithin_carried retries : ∀ g target strict g',
  leaves (dealCardsWithin retries g target strict) g' →
  ∃ r, carried f r g g' ∧ dealtPhase r (phase g) (phase g').
Proof.
  induction retries as [|n IH]; intros g target strict g' Hg';
    cbn [dealCardsWithin] in Hg';
    pose proof (dealEach_frame target (players g) (rev (deck g)) (random g))
      as Hps;
    destruct (dealEach target (players g) (rev (deck g)) (random g))
      as [ps stack rnd|ps stack rnd q|ps stack rnd];
    cbn [passPlayers] in Hps.
  - destruct (strict && _).
    + destruct (existsb _ _); [|by destruct Hg' as [|[]]].
      apply leaves_Done in Hg' as ->.
      exists false. repeat split; [exact Hps|by left].
    + apply leaves_Done in Hg' as ->.
      destruct (openBetting_carried (afterPass ps stack rnd g))
        as (r & Hc & Hp).
      exists r. split; [|exact Hp].
      by apply (carried_congr r g (afterPass ps stack rnd g)).
  - apply leaves_Done in Hg' as ->.
    exists false. repeat split; [exact Hps|by left].
  - destruct Hg' as [[=]|[m [= <- <-]]].
    exists false. repeat split; [exact Hps|by left].
  - destruct (strict && _).
    + destruct (existsb _ _).
      * apply leaves_Done in Hg' as ->.
        exists false. repeat split; [exact Hps|by left].
      * apply IH in Hg' as (r & Hc & Hp). exists r. split; [|exact Hp].
        apply (carried_congr r g (returnCards (afterPass ps stack rnd g)));
          [|done|done|done].
        cbn [returnCards players setPlayers setDeck afterPass setRandom].
        rewrite fmap_setter by apply f_setCards. exact Hps.
    + apply leaves_Done in Hg' as ->.
      destruct (openBetting_carried (afterPass ps stack rnd g))
        as (r & Hc & Hp).
      exists r. split; [|exact Hp].
      by apply (carried_congr r g (afterPass ps stack rnd g)).
  - apply leaves_Done in Hg' as ->.
    exists false. repeat split; [exact Hps|by left].
  - destruct Hg' as [[=]|[m [= <- <-]]].
    exists false. repeat split; [exact Hps|by left].
Qed.

Lemma advanceGamePhase_carried g g' :
  isBetting (phase g) = true → leaves (advanceGamePhase g) g' →
  ∃ r, carried f r g g' ∧ movedPhase r (phase g) (phase g').
Proof.
  unfold advanceGamePhase, dealCards. intros Hb Hg'.
  destruct (phase g) eqn:Hph; try discriminate Hb.
  - apply dealCardsWithin_carried in Hg' as (r & Hc & Hp).
    destruct r; cbn in Hp; [by destruct Hp|].
    exists false. split; [exact Hc|].
    intros E. destruct Hp as [Hp|[_ Hp]]; congruence.
  - apply dealCardsWithin_carried in Hg' as (r & Hc & Hp).
    exists r. split; [exact Hc|].
    destruct r; cbn in Hp |- *; [by destruct Hp|].
    intros E. destruct Hp as [Hp|[Hp _]]; congruence.
  - apply leaves_Done in Hg' as ->. exists false.
    destruct (firstStanding_fields (setPhase equation g))
      as (E1 & E2 & E3 & E4).
    unfold carried, movedPhase. rewrite E1, E2, E3, E4. done.
Qed.

Lemma moveToNextPlayer_carried g g' :
  leaves (moveToNextPlayer g) g' →
  ∃ r, carried f r g g' ∧ movedPhase r (phase g) (phase g').
Proof.
  unfold moveToNextPlayer. intros Hg'.
  assert (Hsame : ∀ c, carried f false g (setCurrentPlayer c g)
                       ∧ movedPhase false (phase g)
                           (phase (setCurrentPlayer c g))).
  { intros c. repeat split. by intros E. }
  destruct (findPlayer _ _) as [[c ?]|].
  - destruct (nextInPlay _ _ _) as [k|]; [|by destruct Hg' as [|[]]].
    destruct (_ && _ && isBetting (phase g)) eqn:Hadv.
    + apply andb_true_iff in Hadv as [_ Hb].
      by apply advanceGamePhase_carried.
    + destruct (players g !! k); apply leaves_Done in Hg' as ->;
        exists false; [apply Hsame|repeat split; by intros E].
  - apply leaves_Done in Hg' as ->. exists false. repeat split. by intros E.
Qed.

End Projection.

(** ** What dealing, paying and turn taking leave unchanged *)

Section Frame.

Context `{Host}.

Lemma carried_seats r g g' :
  carried seat r g g' → seat <$> players g' = seat <$> players g.
Proof.
  intros (E & _ & _). rewrite E. destruct r; [|done].
  by apply fmap_setter.
Qed.

Lemma dealCardsWithin_seats retries g target strict g' :
  leaves (dealCardsWithin retries g target strict) g' →
  seat <$> players g' = seat <$> players g.
Proof.
  intros Hg'.
  apply (dealCardsWithin_carried seat) in Hg' as (r & Hc & _); try done.
  by apply carried_seats in Hc.
Qed.

Lemma credit_seats k amount g :
  seat <$> players (credit k amount g) = seat <$> players g.
Proof. cbn. by apply alter_frame. Qed.

Lemma distribute_seats rs sw bw g :
  seat <$> players (distribute rs sw bw g) = seat <$> players g.
Proof.
  unfold distribute.
  destruct (when _ sw); [apply credit_seats|].
  destruct (when _ bw); [apply credit_seats|].
  destruct (sameWinner sw bw) as [[s b]|]; [apply credit_seats|].
  destruct (0 <? _)%nat.
  - destruct (notDisqualified _ sw); [apply credit_seats|].
    destruct (notDisqualified _ bw); [apply credit_seats|done].
  - destruct sw as [s|], bw as [b|]; try done;
      repeat first [rewrite players_payBig | rewrite players_paySmall
                   | rewrite credit_seats]; done.
Qed.

Lemma resolve_seats g :
  seat <$> players (resolveEquationsAndDistributePot g)
  = seat <$> players g.
Proof.
  unfold resolveEquationsAndDistributePot. cbn [players setPot].
  by rewrite distribute_seats.
Qed.

Lemma advanceGamePhase_seats g g' :
  leaves (advanceGamePhase g) g' →
  seat <$> players g' = seat <$> players g.
Proof.
  unfold advanceGamePhase, dealCards. intros Hg'.
  destruct (phase g).
  - by apply leaves_Done in Hg' as ->.
  - by apply dealCardsWithin_seats in Hg'.
  - by apply leaves_Done in Hg' as ->.
  - by apply dealCardsWithin_seats in Hg'.
  - by apply leaves_Done in Hg' as ->.
  - apply leaves_Done in Hg' as ->.
    by destruct (firstStanding_fields (setPhase equation g)) as (-> & _).
  - apply leaves_Done in Hg' as ->. unfold endGame.
    cbn [players setPhase]. apply resolve_seats.
  - by apply leaves_Done in Hg' as ->.
Qed.

Lemma moveToNextPlayer_seats g g' :
  leaves (moveToNextPlayer g) g' →
  seat <$> players g' = seat <$> players g.
Proof.
  unfold moveToNextPlayer. intros Hg'.
  destruct (findPlayer _ _) as [[c ?]|];
    [|by destruct Hg' as [[= <-]|[m [=]]]].
  destruct (nextInPlay _ _ _) as [k|]; [|by destruct Hg' as [|[]]].
  destruct (_ && _); [by apply advanceGamePhase_seats|].
  destruct (players g !! k); by destruct Hg' as [[= <-]|[m [=]]].
Qed.

End Frame.

(** ** Accepted bets *)

Section Stakes.

Context `{Host}.

Lemma findPlayer_Some test (ps : list Player) i p :
  findPlayer test ps = Some (i, p) → ps !! i = Some p ∧ test p = true.
Proof.
  unfold findPlayer. intros Hf. by apply list_find_Some in Hf as (Hp & Ht & _).
Qed.

(** A bet of the current player in a betting phase reaches [handleBet]
    unless a swap is pending. *)
Lemma performAction_bet g who a i p :
  findPlayer (byId who) (players g) = Some (i, p) →
  who = currentPlayer g → isBetting (phase g) = true →
  performAction g (betOf who a)
  = if existsb hasMultiply (players g)
    then Thrown "Betting actions are not allowed during dealing phase" g
    else handleBet g i a.
Proof.
  intros Hf Hwho Hph. unfold performAction. cbn [betOf actionPlayerId].
  rewrite Hf. apply findPlayer_Some in Hf as [_ Hid].
  unfold byId in Hid. rewrite <- Hwho, Hid. cbn [actionType amount].
  destruct (phase g); try discriminate Hph; cbn;
    by destruct (existsb hasMultiply (players g)).
Qed.

(** The elimination check moves no stake but the pot it hands to a sole
    survivor, who is not the player checked. *)
Lemma checkPlayerElimination_stakes g i :
  pot (checkPlayerElimination g i) = pot g ∧
  currentBet (checkPlayerElimination g i) = currentBet g ∧
  bet <$> players (checkPlayerElimination g i) = bet <$> players g ∧
  chips <$> players (checkPlayerElimination g i) !! i
  = chips <$> players g !! i ∧
  (phase (checkPlayerElimination g i) = phase g
   ∨ phase (checkPlayerElimination g i) = ended).
Proof.
  unfold checkPlayerElimination.
  destruct (players g !! i) as [p|] eqn:Hp;
    [|repeat split; auto; by rewrite Hp].
  destruct (chips p <=? 0); [|repeat split; auto; by rewrite Hp].
  assert (Hm : pot (marked i g) = pot g ∧
               currentBet (marked i g) = currentBet g ∧
               bet <$> players (marked i g) = bet <$> players g ∧
               chips <$> players (marked i g) !! i = chips <$> Some p ∧
               phase (marked i g) = phase g).
  { cbn. repeat split; [by apply alter_frame|].
    by rewrite list_lookup_alter_eq, Hp. }
  destruct Hm as (E1 & E2 & E3 & E4 & E5).
  destruct (_ <=? _)%nat; [|repeat split; auto].
  destruct (findPlayer _ _) as [[k w]|] eqn:Hw; [|repeat split; auto].
  apply findPlayer_Some in Hw as [Hk Hin].
  assert (k ≠ i) as Hne.
  { intros ->. cbn in Hk. rewrite list_lookup_alter_eq, Hp in Hk.
    injection Hk as <-. discriminate Hin. }
  cbn [lastPlayerWins phase setPhase]. repeat split; auto.
  - rewrite <- E3. cbn. by apply alter_frame.
  - rewrite <- E4. unfold lastPlayerWins, credit, updatePlayer.
    cbn [players setPlayers setPhase fst].
    by rewrite list_lookup_alter_ne.
Qed.

Lemma carried_chips r g g' :
  carried chips r g g' → chips <$> players g' = chips <$> players g.
Proof.
  intros (E & _ & _). rewrite E. destruct r; [|done].
  by apply fmap_setter.
Qed.

Lemma fmap_lookup {A : Type} (f : Player → A) (ps qs : list Player) i :
  f <$> ps = f <$> qs → f <$> ps !! i = f <$> qs !! i.
Proof. intros E. by rewrite <- !list_lookup_fmap, E. Qed.

(** What an accepted bet has done to the stakes in whatever state the
    turn logic leaves. *)
Lemma handleBet_stakes g i p a g' :
  players g !! i = Some p →
  leaves (moveToNextPlayer
            (checkPlayerElimination (setCurrentBet a (paid i a g)) i)) g' →
  chips <$> players g' !! i = Some (chips p - a) ∧
  pot g' = pot g + a ∧
  ((phase g' = betting2 → phase g = betting2) →
   bet <$> players g' !! i = Some (bet p + a) ∧ currentBet g' = a).
Proof.
  intros Hp Hg'.
  destruct (handleBet_bookkeeping g i p a Hp) as (B1 & B2 & B3 & B4).
  destruct (checkPlayerElimination_stakes (setCurrentBet a (paid i a g)) i)
    as (E1 & E2 & E3 & E4 & E5).
  pose proof Hg' as Hbet.
  apply (moveToNextPlayer_carried chips) in Hg'
    as (r & Hc & _); try done.
  apply (moveToNextPlayer_carried bet) in Hbet
    as (r' & (F1 & F2 & F3) & Hph); try done.
  split; [|split].
  - apply carried_chips in Hc.
    by rewrite (fmap_lookup chips _ _ i Hc), E4.
  - destruct Hc as (_ & _ & ->). by rewrite E1.
  - intros Hround. destruct r'.
    + destruct Hph as [Hb1 Hb2]. specialize (Hround Hb2).
      destruct E5 as [E5|E5]; rewrite E5 in Hb1; cbn in Hb1; congruence.
    + split; [|by rewrite F2, E2].
      by rewrite (fmap_lookup bet _ _ i F1), (fmap_lookup bet _ _ i E3).
Qed.

End Stakes.

(** C4, at a failing input.  Ana bets 50, Ben raises to 100, Ana raises
    to 150.  The third bet is accepted and [currentBet] is 150, but the
    bet of Ana for the round is 200 and not 150: the amount is added to
    what she had bet.  The call and the continue of the same round take
    the bet of a player for the amount that [currentBet] is compared
    with, so the round goes wrong from there: once Ben has called, the
    continue of Ana is refused as if she had not matched the current
    bet, and her call pays her 50 chips back out of the pot. *)
Theorem reraise_adds_to_bet :
  match performAction (H := arithmeticOnly) opening (betOf "p1" 50)
          >>> (fun g => performAction (H := arithmeticOnly) g
                          (betOf "p2" 100))
          >>> (fun g => performAction (H := arithmeticOnly) g
                          (betOf "p1" 150))
  with
  | Done g' =>
      bet <$> players g' !! 0%nat = Some 200 ∧
      bet <$> players g' !! 0%nat ≠ Some 150 ∧
      currentBet g' = 150 ∧
      chips <$> players g' !! 0%nat = Some 800 ∧
      pot g' = 300 ∧
      match performAction (H := arithmeticOnly) g'
              (mkAction call "p2" None None None None)
      with
      | Done g4 =>
          bet <$> players g4 !! 1%nat = Some 150 ∧
          currentBet g4 = 150 ∧ pot g4 = 350 ∧ currentPlayer g4 = "p1" ∧
          performAction (H := arithmeticOnly) g4
            (mkAction continue "p1" None None None None)
          = Thrown
              "Cannot continue until all players have matched the current bet"
              g4 ∧
          match performAction (H := arithmeticOnly) g4
                  (mkAction call "p1" None None None None)
          with
          | Done g5 =>
              chips <$> players g5 !! 0%nat = Some 850 ∧ pot g5 = 300
          | _ => False
          end
      | _ => False
      end
  | _ => False
  end.
Proof. vm_compute. repeat apply conj; try reflexivity. discriminate. Qed.

(** What a bet does.  A bet of the current player in a betting phase is
    rejected with an error and an unchanged state when the amount is not
    above the current bet, or is above the chips of the bettor, or is
    above the chips of some player who is neither folded nor inactive.
    When the amount is above the current bet, within the chips of the
    bettor and of every player who has not folded, and no swap is
    pending, the bet is accepted: the turn logic ([moveToNextPlayer],
    after the elimination check) runs on the state in which the chips
    of the bettor are down by the amount, the pot is up by the amount,
    the bet of the bettor for the round is up by the amount (it equals
    the amount only when the bettor had bet nothing in the round) and
    [currentBet] is the amount; in every state the action leaves, chips
    and pot are so, and so are the bet of the round and [currentBet]
    unless the bet has closed the first betting round, which resets
    them. *)
Theorem bet_action `{Host} (g : GameState) (who : string) (a : Z)
    (i : nat) (p : Player) :
  findPlayer (byId who) (players g) = Some (i, p) →
  who = currentPlayer g →
  isBetting (phase g) = true →
  (a ≤ currentBet g ∨ chips p < a ∨
     (∃ q, q ∈ players g ∧ inPlay q = true ∧ chips q < a) →
   ∃ m, performAction g (betOf who a) = Thrown m g)
  ∧ (currentBet g < a → a ≤ chips p →
     exceeds a (minimum (chips <$> keeping standing (players g))) = false →
     existsb hasMultiply (players g) = false →
     let g1 := setCurrentBet a (paid i a g) in
     performAction g (betOf who a)
     = moveToNextPlayer (checkPlayerElimination g1 i)
     ∧ chips <$> players g1 !! i = Some (chips p - a)
     ∧ bet <$> players g1 !! i = Some (bet p + a)
     ∧ pot g1 = pot g + a ∧ currentBet g1 = a
     ∧ ∀ g', leaves (performAction g (betOf who a)) g' →
         chips <$> players g' !! i = Some (chips p - a) ∧
         pot g' = pot g + a ∧
         ((phase g' = betting2 → phase g = betting2) →
          bet <$> players g' !! i = Some (bet p + a) ∧ currentBet g' = a)).
Proof.
  intros Hf Hwho Hph.
  rewrite (performAction_bet g who a i p Hf Hwho Hph).
  apply findPlayer_Some in Hf as [Hp _].
  split.
  - intros Hbad. destruct (existsb hasMultiply (players g)); [by eexists|].
    by apply (handleBet_rejected g i p a).
  - intros Hcb Hchips Hmin Hswap g1. rewrite Hswap.
    assert (handleBet g i a
            = moveToNextPlayer (checkPlayerElimination g1 i)) as ->.
    { unfold handleBet. rewrite Hp, Hmin.
      destruct (Z.leb_spec a (currentBet g)); [lia|].
      destruct (Z.ltb_spec (chips p) a); [lia|done]. }
    split; [done|].
    destruct (handleBet_bookkeeping g i p a Hp) as (B1 & B2 & B3 & B4).
    repeat (split; [done|]). intros g' Hg'.
    by apply (handleBet_stakes g i p a g' Hp).
Qed.

(** The bet of 150 with which Ana re-raises over Ben, as an accepted
    bet. *)
Lemma bet_action_witness :
  performAction (H := arithmeticOnly) raised (betOf "p1" 150)
  = Done afterReraise ∧
  chips <$> players afterReraise !! 0%nat = Some 800 ∧
  pot afterReraise = 300 ∧
  bet <$> players afterReraise !! 0%nat = Some 200 ∧
  currentBet afterReraise = 150.
Proof.
  assert (performAction (H := arithmeticOnly) raised (betOf "p1" 150)
          = Done afterReraise) as Hrun by (vm_compute; reflexivity).
  split; [exact Hrun|].
  destruct (bet_action (H := arithmeticOnly) raised "p1" 150 0%nat
              (setBet 50 (setChips 950 (newPlayer "p1" "Ana"))))
    as [_ Hok]; [reflexivity|reflexivity|reflexivity|].
  destruct Hok as (_ & _ & _ & _ & _ & Hok);
    [reflexivity|vm_compute; discriminate|reflexivity|reflexivity|].
  destruct (Hok afterReraise) as (Hchips & Hpot & Hbet).
  { left. exact Hrun. }
  destruct Hbet as [Hbet Hcb]; [vm_compute; discriminate|].
  repeat apply conj; assumption.
Defined.

(** ** Chip elimination *)

Section Elimination.

Context `{Host}.

Lemma nextInPlay_None ps : ∀ steps i,
  (i < length ps)%nat → nextInPlay ps steps i = None →
  ∀ d, (d < steps)%nat →
    ∃ q, ps !! ((i + d) mod length ps)%nat = Some q ∧ inPlay q = false.
Proof.
  induction steps as [|n IH]; intros i Hi Hn d Hd; [lia|].
  cbn [nextInPlay] in Hn.
  destruct (ps !! i) as [p|] eqn:Hp;
    [|apply lookup_ge_None in Hp; lia].
  destruct (inPlay p) eqn:Hq; [done|].
  destruct d as [|d].
  - rewrite Nat.add_0_r, Nat.mod_small by lia. eauto.
  - assert (Hlt : ((i + 1) mod length ps < length ps)%nat)
      by (apply Nat.mod_upper_bound; lia).
    destruct (IH _ Hlt Hn d ltac:(lia)) as [q [Hq1 Hq2]].
    exists q. split; [|done].
    rewrite Nat.Div0.add_mod_idemp_l in Hq1.
    by replace (i + S d)%nat with (i + 1 + d)%nat by lia.
Qed.

(** The search loop ends whenever some player is in play. *)
Lemma nextInPlay_finds ps i k w :
  (i < length ps)%nat → ps !! k = Some w → inPlay w = true →
  is_Some (nextInPlay ps (length ps) i).
Proof.
  intros Hi Hk Hw.
  destruct (nextInPlay ps (length ps) i) as [j|] eqn:E; [eauto|].
  exfalso. pose proof (lookup_lt_Some _ _ _ Hk) as Hlt.
  set (n := length ps) in *.
  destruct (nextInPlay_None ps n i Hi E ((k + n - i) mod n)%nat)
    as [q [Hq1 Hq2]].
  { apply Nat.mod_upper_bound. lia. }
  fold n in Hq1.
  rewrite Nat.Div0.add_mod_idemp_r in Hq1.
  replace (i + (k + n - i))%nat with (k + 1 * n)%nat in Hq1 by lia.
  rewrite Nat.Div0.mod_add, Nat.mod_small in Hq1 by lia.
  congruence.
Qed.

Lemma setCurrentPlayer_same g : setCurrentPlayer (currentPlayer g) g = g.
Proof. by destruct g. Qed.

(** Once the session has ended, moving to the next player returns and
    changes the current player only. *)
Lemma moveToNextPlayer_ended g k w :
  phase g = ended → players g !! k = Some w → inPlay w = true →
  ∃ c, moveToNextPlayer g = Done (setCurrentPlayer c g).
Proof.
  intros Hph Hk Hw. unfold moveToNextPlayer.
  destruct (findPlayer _ _) as [[c p]|] eqn:Hf.
  - assert (Hlt : ((c + 1) mod length (players g) < length (players g))%nat).
    { apply Nat.mod_upper_bound.
      apply lookup_lt_Some in Hk. lia. }
    destruct (nextInPlay_finds _ _ k w Hlt Hk Hw) as [j ->].
    rewrite Hph. cbn [isBetting]. rewrite andb_false_r.
    destruct (players g !! j) as [q|]; [by eexists|].
    exists (currentPlayer g). by rewrite setCurrentPlayer_same.
  - exists (currentPlayer g). by rewrite setCurrentPlayer_same.
Qed.

Lemma keeping_none (ps : list Player) :
  (∀ j q, ps !! j = Some q → inPlay q = false) → keeping inPlay ps = [].
Proof.
  induction ps as [|p ps IH]; intros Hps; [done|].
  unfold keeping. rewrite filter_cons_False.
  - apply IH. intros j q Hj. by apply (Hps (S j)).
  - rewrite (Hps 0%nat p eq_refl). done.
Qed.

Lemma keeping_sole (ps : list Player) k w :
  ps !! k = Some w → inPlay w = true →
  (∀ j q, ps !! j = Some q → inPlay q = true → j = k) →
  keeping inPlay ps = [w] ∧ findPlayer inPlay ps = Some (k, w).
Proof.
  intros Hk Hw Huniq. split.
  - rewrite <- (take_drop_middle ps k w Hk). unfold keeping.
    rewrite filter_app, filter_cons_True by done.
    fold (keeping inPlay (take k ps)) (keeping inPlay (drop (S k) ps)).
    rewrite !keeping_none; [done| |].
    + intros j q Hj. rewrite lookup_drop in Hj.
      apply not_true_is_false. intros Hq.
      specialize (Huniq _ _ Hj Hq). lia.
    + intros j q Hj. apply lookup_take_Some in Hj as [Hj Hlt].
      apply not_true_is_false. intros Hq.
      specialize (Huniq _ _ Hj Hq). lia.
  - apply list_find_Some. split; [done|]. split; [done|].
    intros j q Hj Hlt Hq. specialize (Huniq _ _ Hj Hq). lia.
Qed.

Lemma eliminated_seats g g' i :
  seat <$> players g' = seat <$> players g →
  eliminated g i → eliminated g' i.
Proof.
  unfold eliminated. intros Hs Hg.
  assert (E : seat <$> players g' !! i = seat <$> players g !! i)
    by (by rewrite <- !list_lookup_fmap, Hs).
  destruct (players g !! i) as [p|], (players g' !! i) as [p'|];
    try done.
  cbn in *. injection E as _ E1 E2. injection Hg as E3 E4. congruence.
Qed.

Lemma marked_eliminated g i p :
  players g !! i = Some p → eliminated (marked i g) i.
Proof.
  intros Hp. unfold eliminated. cbn.
  by rewrite list_lookup_alter_eq, Hp.
Qed.

Lemma lastPlayerWins_seats winner g :
  seat <$> players (lastPlayerWins winner g) = seat <$> players g.
Proof. cbn. by apply alter_frame. Qed.

(** A player left without chips is marked, whatever else happens. *)
Lemma checkPlayerElimination_eliminated g i p :
  players g !! i = Some p → chips p ≤ 0 →
  eliminated (checkPlayerElimination g i) i.
Proof.
  intros Hp Hc. unfold checkPlayerElimination. rewrite Hp.
  destruct (Z.leb_spec (chips p) 0); [|lia]. fold (marked i g).
  pose proof (marked_eliminated g i p Hp) as Hm.
  destruct (_ <=? _)%nat; [|done].
  destruct (findPlayer _ _) as [winner|]; [|done].
  eapply eliminated_seats; [apply lastPlayerWins_seats|done].
Qed.

Lemma checkPlayerElimination_seats g i :
  seat <$> players (checkPlayerElimination g i) = seat <$> players g
  ∨ eliminated (checkPlayerElimination g i) i.
Proof.
  destruct (players g !! i) as [p|] eqn:Hp.
  - destruct (Z.leb_spec (chips p) 0) as [Hc|Hc].
    + right. by apply (checkPlayerElimination_eliminated g i p).
    + left. unfold checkPlayerElimination. rewrite Hp.
      destruct (Z.leb_spec (chips p) 0); [lia|done].
  - left. unfold checkPlayerElimination. by rewrite Hp.
Qed.

(** With a sole survivor, the survivor is paid the pot and the session
    ends. *)
Lemma checkPlayerElimination_sole g i p k w :
  players g !! i = Some p → chips p ≤ 0 → soleSurvivor g i k w →
  checkPlayerElimination g i = lastPlayerWins (k, w) (marked i g).
Proof.
  intros Hp Hc (Hk & Hki & Hw & Huniq).
  unfold checkPlayerElimination. rewrite Hp.
  destruct (Z.leb_spec (chips p) 0); [|lia]. fold (marked i g).
  destruct (keeping_sole (players (marked i g)) k w) as [-> ->];
    [| |  |done].
  - cbn. by rewrite list_lookup_alter_ne.
  - done.
  - intros j q Hj Hq. destruct (decide (j = i)) as [->|Hji].
    + cbn in Hj. rewrite list_lookup_alter_eq, Hp in Hj.
      injection Hj as <-. done.
    + cbn in Hj. rewrite list_lookup_alter_ne in Hj by done. eauto.
Qed.

Lemma lastPlayerWins_won g i p k w :
  players g !! i = Some p → players g !! k = Some w → k ≠ i →
  wonEverything (lastPlayerWins (k, w) (marked i g)) k w (pot g)
  ∧ eliminated (lastPlayerWins (k, w) (marked i g)) i.
Proof.
  intros Hp Hk Hki. split.
  - repeat split. cbn.
    rewrite list_lookup_alter_eq, list_lookup_alter_ne, Hk by done.
    done.
  - eapply eliminated_seats; [apply lastPlayerWins_seats|].
    by eapply marked_eliminated.
Qed.

Lemma paid_lookup i amount g p :
  players g !! i = Some p →
  players (paid i amount g) !! i
  = Some (setBet (bet p + amount) (setChips (chips p - amount) p)).
Proof. intros Hp. cbn. by rewrite list_lookup_alter_eq, Hp. Qed.

Lemma paid_soleSurvivor i amount g k w :
  soleSurvivor g i k w → soleSurvivor (paid i amount g) i k w.
Proof.
  intros (Hk & Hki & Hw & Huniq). split; [|split; [done|split; [done|]]].
  - cbn. by rewrite list_lookup_alter_ne.
  - intros j q Hj Hji. cbn in Hj.
    rewrite list_lookup_alter_ne in Hj by done. eauto.
Qed.

Lemma lastPlayerWins_lookup g i k w :
  players g !! k = Some w → k ≠ i →
  players (lastPlayerWins (k, w) (marked i g)) !! k
  = Some (setChips (chips w + pot g) w).
Proof.
  intros Hk Hki. cbn.
  by rewrite list_lookup_alter_eq, list_lookup_alter_ne, Hk.
Qed.

(** The state in which the round ends for the sole survivor. *)
Lemma sole_survivor_wins g i p k w c :
  players g !! i = Some p → chips p ≤ 0 → soleSurvivor g i k w →
  let g' := setCurrentPlayer c (checkPlayerElimination g i) in
  eliminated g' i ∧ wonEverything g' k w (pot g).
Proof.
  intros Hp Hc Hsole g'. subst g'.
  rewrite (checkPlayerElimination_sole _ i _ k w Hp Hc Hsole).
  destruct Hsole as (Hk & Hki & _).
  destruct (lastPlayerWins_won _ i _ k w Hp Hk Hki) as [Hwon Hel].
  split; [exact Hel|exact Hwon].
Qed.

Lemma handleBet_accepted g i p amount :
  players g !! i = Some p →
  currentBet g < amount → amount ≤ chips p →
  exceeds amount (minimum (chips <$> keeping standing (players g))) = false →
  handleBet g i amount
  = moveToNextPlayer
      (checkPlayerElimination (setCurrentBet amount (paid i amount g)) i).
Proof.
  intros Hp Hcb Hch Hlow. unfold handleBet. rewrite Hp, Hlow.
  destruct (Z.leb_spec amount (currentBet g)); [lia|].
  destruct (Z.ltb_spec (chips p) amount); [lia|]. reflexivity.
Qed.

Lemma handleCall_accepted g i p :
  players g !! i = Some p →
  currentBet g - bet p ≤ chips p →
  let g1 := checkPlayerElimination (paid i (currentBet g - bet p) g) i in
  handleCall g i = advanceGamePhase g1 ∨ handleCall g i = moveToNextPlayer g1.
Proof.
  intros Hp Hch g1. unfold handleCall. rewrite Hp.
  destruct (Z.ltb_spec (chips p) (currentBet g - bet p)); [lia|].
  fold g1. destruct (_ && _); [by left|by right].
Qed.

Lemma handleCall_ended g i p :
  players g !! i = Some p →
  currentBet g - bet p ≤ chips p →
  let g1 := checkPlayerElimination (paid i (currentBet g - bet p) g) i in
  phase g1 = ended →
  handleCall g i = moveToNextPlayer g1.
Proof.
  intros Hp Hch g1 Hph. unfold handleCall. rewrite Hp.
  destruct (Z.ltb_spec (chips p) (currentBet g - bet p)); [lia|].
  fold g1. rewrite Hph.
  rewrite (bool_decide_eq_false_2 (ended = betting1)) by done.
  by rewrite andb_false_r.
Qed.

(** The search selects players in play only, and it fails only when no
    player is in play, which is when the loop of the source never
    ends. *)
Lemma nextInPlay_Some ps : ∀ steps i k,
  nextInPlay ps steps i = Some k →
  ∃ q, ps !! k = Some q ∧ inPlay q = true.
Proof.
  induction steps as [|n IH]; intros i k Hk; cbn [nextInPlay] in Hk;
    [done|].
  destruct (ps !! i) as [p|] eqn:Hp; [|done].
  destruct (inPlay p) eqn:Hq; [|by eapply IH].
  injection Hk as <-. eauto.
Qed.

Lemma nextInPlay_diverges ps i :
  (i < length ps)%nat → nextInPlay ps (length ps) i = None →
  Forall (fun q => inPlay q = false) ps.
Proof.
  intros Hi Hn. apply Forall_forall. intros q Hq.
  apply list_elem_of_lookup in Hq as [k Hk].
  apply not_true_is_false. intros Hin.
  destruct (nextInPlay_finds ps i k q Hi Hk Hin) as [j Hj]. congruence.
Qed.

Lemma eliminated_not_inPlay g i q :
  eliminated g i → players g !! i = Some q → inPlay q = false.
Proof.
  unfold eliminated, inPlay. intros He Hq. rewrite Hq in He.
  injection He as -> _. reflexivity.
Qed.

End Elimination.

(** C8, at a failing input.  Ana bets her last 100 chips and is marked
    folded and inactive; Ben wins and the session ends.  When the
    session is started again Ana, who has no chips, is active and
    unfolded, and the first turn is hers: the elimination does not last
    for the remainder of the session. *)
Lemma eliminated_player_returns_on_restart :
  match handleBet (H := arithmeticOnly) (shortStack 0) 0 100 with
  | Done g1 =>
      eliminated g1 0 ∧ phase g1 = ended ∧
      match startGame g1 with
      | Done g2 =>
          (fun q => (chips q, isFolded q, isActive q))
            <$> players g2 !! 0%nat
          = Some (0, false, true) ∧
          currentPlayer g2 = "p1"
      | _ => False
      end
  | _ => False
  end.
Proof. vm_compute. repeat apply conj; reflexivity. Qed.

(** X28.  An accepted bet or call that takes the acting player's chips
    to 0 marks that player folded and inactive in the state the action
    leaves.  When one other player is the only one still in play, the
    action returns, that player is recorded as winner of both targets,
    has received the whole pot (with the chips just added to it) and
    the phase is ended.  A player so marked is never selected by the
    search for the next player, and the resolver pays that player
    nothing. *)
Theorem chip_elimination `{Host} (g : GameState) (i : nat) (p : Player) :
  players g !! i = Some p →
  (∀ amount,
     currentBet g < amount → amount = chips p →
     exceeds amount (minimum (chips <$> keeping standing (players g)))
     = false →
     (∀ g', leaves (handleBet g i amount) g' → eliminated g' i) ∧
     (∀ k w, soleSurvivor g i k w →
        ∃ g', handleBet g i amount = Done g' ∧ eliminated g' i ∧
              wonEverything g' k w (pot g + amount)))
  ∧
  (chips p = currentBet g - bet p →
     (∀ g', leaves (handleCall g i) g' → eliminated g' i) ∧
     (∀ k w, soleSurvivor g i k w →
        ∃ g', handleCall g i = Done g' ∧ eliminated g' i ∧
              wonEverything g' k w (pot g + chips p)))
  ∧
  (∀ g', eliminated g' i →
     (∀ steps start k,
        nextInPlay (players g') steps start = Some k → k ≠ i) ∧
     players (resolveEquationsAndDistributePot g') !! i = players g' !! i).
Proof.
  intros Hp. split; [|split].
  - intros amount Hcb Ham Hlow.
    rewrite (handleBet_accepted g i p amount) by (done || lia).
    set (g2 := setCurrentBet amount (paid i amount g)).
    assert (Hp2 : players g2 !! i
                  = Some (setBet (bet p + amount)
                            (setChips (chips p - amount) p)))
      by (by apply paid_lookup).
    assert (Hc2 : chips (setBet (bet p + amount)
                           (setChips (chips p - amount) p)) ≤ 0)
      by (cbn; lia).
    split.
    + intros g' Hg'. apply moveToNextPlayer_seats in Hg'.
      eapply eliminated_seats; [exact Hg'|].
      by eapply checkPlayerElimination_eliminated.
    + intros k w Hsole.
      assert (Hsole2 : soleSurvivor g2 i k w)
        by (by apply (paid_soleSurvivor i amount g k w)).
      pose proof (checkPlayerElimination_sole _ i _ k w Hp2 Hc2 Hsole2)
        as Hcheck.
      destruct (moveToNextPlayer_ended (checkPlayerElimination g2 i) k
                  (setChips (chips w + pot g2) w)) as [c Hmove].
      * by rewrite Hcheck.
      * rewrite Hcheck. destruct Hsole2 as (Hk & Hki & _).
        by apply lastPlayerWins_lookup.
      * by destruct Hsole as (_ & _ & Hw & _).
      * eexists. split; [exact Hmove|].
        apply (sole_survivor_wins g2 i _ k w c Hp2 Hc2 Hsole2).
  - intros Hch.
    set (g2 := paid i (currentBet g - bet p) g).
    assert (Hp2 : players g2 !! i
                  = Some (setBet (bet p + (currentBet g - bet p))
                            (setChips (chips p - (currentBet g - bet p)) p)))
      by (by apply paid_lookup).
    assert (Hc2 : chips (setBet (bet p + (currentBet g - bet p))
                           (setChips (chips p - (currentBet g - bet p)) p))
                  ≤ 0)
      by (cbn; lia).
    split.
    + intros g' Hg'.
      destruct (handleCall_accepted g i p Hp ltac:(lia)) as [E|E];
        rewrite E in Hg'.
      * apply advanceGamePhase_seats in Hg'.
        eapply eliminated_seats; [exact Hg'|].
        by eapply checkPlayerElimination_eliminated.
      * apply moveToNextPlayer_seats in Hg'.
        eapply eliminated_seats; [exact Hg'|].
        by eapply checkPlayerElimination_eliminated.
    + intros k w Hsole.
      assert (Hsole2 : soleSurvivor g2 i k w)
        by (by apply (paid_soleSurvivor i _ g k w)).
      pose proof (checkPlayerElimination_sole _ i _ k w Hp2 Hc2 Hsole2)
        as Hcheck.
      rewrite (handleCall_ended g i p Hp ltac:(lia));
        [|fold g2; by rewrite Hcheck].
      fold g2.
      destruct (moveToNextPlayer_ended (checkPlayerElimination g2 i) k
                  (setChips (chips w + pot g2) w)) as [c Hmove].
      * by rewrite Hcheck.
      * rewrite Hcheck. destruct Hsole2 as (Hk & Hki & _).
        by apply lastPlayerWins_lookup.
      * by destruct Hsole as (_ & _ & Hw & _).
      * eexists. split; [exact Hmove|].
        replace (pot g + chips p) with (pot g2) by (cbn; lia).
        apply (sole_survivor_wins g2 i _ k w c Hp2 Hc2 Hsole2).
  - intros g' Hel. split.
    + intros steps start k Hk ->.
      apply nextInPlay_Some in Hk as [q [Hq Hin]].
      by rewrite (eliminated_not_inPlay g' i q Hel Hq) in Hin.
    + unfold eliminated in Hel.
      destruct (players g' !! i) as [q|] eqn:Hq; [|discriminate Hel].
      apply resolve_untouched; [done|]. by injection Hel as -> _.
Qed.

Lemma shortStack_soleSurvivor c :
  soleSurvivor (shortStack c) 0 1
    (setBet c (setChips (500 - c) (newPlayer "p2" "Ben"))).
Proof.
  split; [reflexivity|]. split; [lia|]. split; [reflexivity|].
  intros [|[|j]] q Hj Hne Hq; [lia|reflexivity|discriminate Hj].
Qed.

Lemma chip_elimination_witness :
  (∃ g', handleBet (H := arithmeticOnly) (shortStack 0) 0 100 = Done g' ∧
         eliminated g' 0 ∧
         wonEverything g' 1 (setBet 0 (setChips 500 (newPlayer "p2" "Ben")))
           (0 + 100)) ∧
  (∃ g', handleCall (H := arithmeticOnly) (shortStack 100) 0 = Done g' ∧
         eliminated g' 0 ∧
         wonEverything g' 1
           (setBet 100 (setChips 400 (newPlayer "p2" "Ben"))) (100 + 100)).
Proof.
  split.
  - destruct (chip_elimination (H := arithmeticOnly) (shortStack 0) 0
                (setChips 100 (newPlayer "p1" "Ana")) eq_refl)
      as [Hbet _].
    destruct (Hbet 100 ltac:(reflexivity) eq_refl eq_refl) as [_ Hsole].
    apply (Hsole 1%nat _ (shortStack_soleSurvivor 0)).
  - destruct (chip_elimination (H := arithmeticOnly) (shortStack 100) 0
                (setChips 100 (newPlayer "p1" "Ana")) eq_refl)
      as (_ & Hcall & _).
    destruct (Hcall eq_refl) as [_ Hsole].
    apply (Hsole 1%nat _ (shortStack_soleSurvivor 100)).
Defined.

(** ** Starting a round again *)

Lemma resetPlayer_fields p :
  let p' := resetPlayer p in
  id p' = id p ∧ name p' = name p ∧ chips p' = chips p ∧ cards p' = [] ∧
  operationCards p' = [add; subtract; divide] ∧ bet p' = 0 ∧
  betType p' = None ∧ isFolded p' = false ∧
  submittedEquations p' = None ∧ hasMultiply p' = false ∧
  isActive p' = true.
Proof. repeat split. Qed.

(** C9, the claim as stated fails.  Cyd joins the first betting round
    as a spectator and is not active.  Ana folds, which ends the round,
    and the session is started again: Cyd is active in the new round. *)
Lemma startGame_admits_spectator :
  match joinGame firstBetting "Cyd" None "p3" with
  | JoinedAs _ g1 =>
      players g1 !! 2%nat = Some (spectator "p3" "Cyd") ∧
      isActive (spectator "p3" "Cyd") = false ∧
      match performAction (H := arithmeticOnly) g1
              (mkAction fold "p1" None None None None)
            >>> startGame
      with
      | Done g2 => isActive <$> players g2 !! 2%nat = Some true
      | _ => False
      end
  | JoinRefused _ _ => False
  end.
Proof. vm_compute. repeat apply conj; reflexivity. Qed.

(** C9, amended.  Starting a session that has players again returns,
    and for every player it resets the bet to 0, the hand, the
    operation cards (to add, subtract, divide), the bet type and the
    submitted equations, and keeps the chip balance.  A player who
    holds chips, and a spectator as [joinGame] has made it, is then
    active and not folded, whatever the flags were.  Nothing is said of
    the flags of a player who has no chips and is not such a
    spectator. *)
Theorem startGame_resets (g : GameState) :
  players g ≠ [] →
  ∃ g', startGame g = Done g' ∧
    ∀ i p, players g !! i = Some p →
      ∃ p', players g' !! i = Some p' ∧
        chips p' = chips p ∧ bet p' = 0 ∧
        cards p' = [] ∧ operationCards p' = [add; subtract; divide] ∧
        betType p' = None ∧ submittedEquations p' = None ∧
        (0 < chips p ∨ (∃ playerName, p = spectator (id p) playerName) →
         isFolded p' = false ∧ isActive p' = true).
Proof.
  intros Hne. unfold startGame.
  set (g1 := match players g with
             | [only] => setPlayers [only; botPlayer (chips only)] g
             | _ => g
             end).
  assert (Hg1 : ∀ i p, players g !! i = Some p → players g1 !! i = Some p).
  { subst g1. destruct (players g) as [|a [|b r]] eqn:Hg.
    - done.
    - intros [|i] p; cbn; [done|]. by destruct i.
    - intros i p. by rewrite Hg. }
  destruct (createDeck (random g1)) as [d rnd].
  cbn [players setPhase setDeck setRandom].
  destruct (players g1) as [|first others] eqn:Hps.
  { destruct (players g) as [|a r] eqn:Hg; [done|].
    specialize (Hg1 0%nat a eq_refl). done. }
  eexists. split; [reflexivity|].
  intros i p Hi. apply Hg1 in Hi.
  exists (resetPlayer p). cbn [players setPlayers].
  rewrite list_lookup_fmap.
  change (first :: others) with (players (setPlayers (first :: others) g1)).
  cbn [players setPlayers]. rewrite Hi. cbn.
  repeat split.
Qed.

(** Ana, who holds chips, and Cyd, who has watched the round, take part
    in the new round. *)
Lemma startGame_resets_witness :
  ∃ g', startGame watched = Done g' ∧
        chips <$> players g' = [2000; 0; 0] ∧
        (∃ ana, players g' !! 0%nat = Some ana ∧
                isFolded ana = false ∧ isActive ana = true) ∧
        (∃ cyd, players g' !! 2%nat = Some cyd ∧
                isFolded cyd = false ∧ isActive cyd = true).
Proof.
  destruct (startGame_resets watched) as (g' & Hstart & Hreset);
    [vm_compute; discriminate|].
  exists g'. split; [exact Hstart|].
  split.
  { pose proof Hstart as Hrun. vm_compute in Hrun.
    injection Hrun as <-. reflexivity. }
  split.
  - destruct (Hreset 0%nat (setChips 2000 (newPlayer "p1" "Ana")) eq_refl)
      as (ana & Hana & _ & _ & _ & _ & _ & _ & Hflags).
    exists ana. split; [exact Hana|]. apply Hflags. left. reflexivity.
  - destruct (Hreset 2%nat (spectator "p3" "Cyd") eq_refl)
      as (cyd & Hcyd & _ & _ & _ & _ & _ & _ & Hflags).
    exists cyd. split; [exact Hcyd|]. apply Hflags. right. by exists "Cyd".
Defined.

(** * Further properties of the service *)

(** ** The deal *)

Section DealBounds.

Lemma afterPass_all_target ps stack rnd g target :
  Forall (fun p => numberCount p = target) ps →
  forallb (fun p => hasMultiply p || (numberCount p =? target)%nat)
    (players (afterPass ps stack rnd g)) = true.
Proof.
  intros Hall. apply forallb_forall. intros q Hq.
  apply list_elem_of_In in Hq. cbn in Hq.
  rewrite Forall_forall in Hall. rewrite (Hall q Hq).
  rewrite Nat.eqb_refl. apply orb_true_r.
Qed.

(** A deal that starts from hands holding at most the target needs no
    retry. *)
Lemma dealCardsWithin_fresh n g target strict :
  Forall (fun p => (numberCount p ≤ target)%nat) (players g) →
  dealCardsWithin n g target strict = dealCardsWithin 0 g target strict.
Proof.
  intros Hle. destruct n; [done|]. cbn [dealCardsWithin].
  destruct (dealEach target (players g) _ _) as [ps stack rnd| |] eqn:Hpass;
    try done.
  apply dealEach_count in Hpass; [|done].
  rewrite (afterPass_all_target _ _ _ _ _ Hpass). by destruct strict.
Qed.

Lemma returnCards_empty g :
  Forall (fun p => (numberCount p ≤ 0)%nat) (players (returnCards g)).
Proof.
  cbn. apply Forall_forall. intros q Hq.
  apply list_elem_of_fmap in Hq as [q0 [-> _]]. cbn. lia.
Qed.

Lemma dealPlayer_Interrupted target stack : ∀ p rnd p' stack' rnd' request,
  dealPlayer target p stack rnd = Interrupted p' stack' rnd' request →
  hasMultiply p' = true.
Proof.
  induction stack as [|card stack IH]; intros p rnd p' stack' rnd' request;
    cbn [dealPlayer]; destruct (target <=? numberCount p)%nat; try done.
  destruct card as [v c|[]]; try apply IH.
  destruct (hasMultiplyCard p); [apply IH|].
  destruct (isSquareRoot p); [apply IH|].
  destruct (_ && _); [by intros [= <- _ _ _]|].
  destruct (isBot p); [|apply IH].
  destruct (draw rnd) as [r rnd2].
  destruct (operationCards p !! _); [apply IH|done].
Qed.

(** A pass that stops early has emptied the deck or has left a player
    with a pending swap. *)
Lemma dealEach_Halted target ps : ∀ stack rnd ps' stack' rnd' request,
  dealEach target ps stack rnd = Halted ps' stack' rnd' request →
  stack' = [] ∨ existsb hasMultiply ps' = true.
Proof.
  induction ps as [|p ps IH]; intros stack rnd ps' stack' rnd' request;
    cbn [dealEach]; [done|].
  destruct (dealPlayer target p stack rnd) as [q s r|q r|q s r req|q s r]
    eqn:Hq.
  - destruct (dealEach target ps s r) as [| qs s2 r2 req2 |] eqn:Hqs;
      try done.
    cbn. intros [= <- <- _ _].
    destruct (IH _ _ _ _ _ _ Hqs) as [->|Hm]; [by left|right].
    cbn. rewrite Hm. apply orb_true_r.
  - intros [= <- <- _ _]. by left.
  - intros [= <- <- _ _]. right. cbn.
    by rewrite (dealPlayer_Interrupted _ _ _ _ _ _ _ _ Hq).
  - done.
Qed.

Lemma openBetting_players g :
  players (openBetting g) = players g
  ∨ players (openBetting g) = setBet 0 <$> players g.
Proof.
  unfold openBetting. destruct (existsb _ _); [by left|].
  destruct (phase g); try (by left).
  - destruct (forallb _ _); by left.
  - destruct (forallb _ _); [right|by left].
    by destruct (firstStanding_fields
                   (setPlayers (setBet 0 <$> players g)
                      (setCurrentBet 0 (setPhase betting2 g)))) as (-> & _).
Qed.

Lemma openBetting_deck g : deck (openBetting g) = deck g.
Proof.
  unfold openBetting. destruct (existsb _ _); [done|].
  destruct (phase g); try done.
  - by destruct (forallb _ _).
  - destruct (forallb _ _); [|done].
    unfold firstStanding. by destruct (findPlayer _ _) as [[]|].
Qed.

Lemma openBetting_counts (g : GameState) target :
  Forall (fun p => hasMultiply p = true ∨ numberCount p = target)
    (players g) →
  Forall (fun p => hasMultiply p = true ∨ numberCount p = target)
    (players (openBetting g)).
Proof.
  intros Hall. destruct (openBetting_players g) as [->| ->]; [done|].
  apply Forall_fmap. eapply Forall_impl; [exact Hall|]. by intros q.
Qed.

Lemma no_pending_swap (ps : list Player) target :
  existsb hasMultiply ps = false →
  Forall (fun p => hasMultiply p = true ∨ numberCount p = target) ps →
  Forall (fun p => numberCount p = target) ps.
Proof.
  intros Hno Hall. apply Forall_forall. intros q Hq.
  rewrite Forall_forall in Hall. destruct (Hall q Hq) as [Hm|Hc]; [|done].
  assert (existsb hasMultiply ps = true); [|congruence].
  apply existsb_exists. exists q. split; [|done]. by apply list_elem_of_In.
Qed.

Lemma halted_pass ps stack rnd g :
  stack = [] ∨ existsb hasMultiply ps = true →
  existsb hasMultiply (players (afterPass ps stack rnd g)) = false →
  deck (afterPass ps stack rnd g) = [].
Proof. intros [->|Hm] Hno; [done|]. cbn in Hno. congruence. Qed.

Lemma all_have_target (ps : list Player) target :
  forallb (fun p => hasMultiply p || (numberCount p =? target)%nat) ps
  = true →
  Forall (fun p => hasMultiply p = true ∨ numberCount p = target) ps.
Proof.
  intros Hall. apply Forall_forall. intros q Hq.
  rewrite forallb_forall in Hall. apply list_elem_of_In, Hall in Hq.
  apply orb_true_iff in Hq as [?|Hq]; [by left|right].
  by apply Nat.eqb_eq.
Qed.

End DealBounds.

(** X1.  The recursion of [dealCards] is at most one call deep: the
    retry starts from empty hands, so its pass either stops early or
    serves every player the exact number of number cards.  A deal
    therefore gives the same outcome under any bound of at least one
    retry, and it always returns or throws. *)
Theorem deal_retries_at_most_once (n : nat) (g : GameState) (target : nat)
    (strict : bool) :
  dealCardsWithin (S n) g target strict = dealCards g target strict
  ∧ dealCards g target strict ≠ Diverges.
Proof.
  split; [|apply dealCards_returns].
  unfold dealCards. cbn [dealCardsWithin].
  destruct (dealEach target (players g) _ _) as [ps stack rnd| |]; try done.
  destruct (strict && _); [|done].
  destruct (existsb _ _); [done|].
  apply dealCardsWithin_fresh.
  eapply Forall_impl; [apply returnCards_empty|]. intros q. cbn. lia.
Qed.

(** X2.  A strict deal that returns with no swap pending and with cards
    left in the deck has given every player exactly the target number
    of number cards. *)
Theorem strict_deal_fills_hands (g : GameState) (target : nat)
    (g' : GameState) :
  dealCards g target true = Done g' →
  existsb hasMultiply (players g') = false →
  deck g' ≠ [] →
  Forall (fun p => numberCount p = target) (players g').
Proof.
  unfold dealCards. cbn [dealCardsWithin andb].
  destruct (dealEach target (players g) _ _) as [ps stack rnd|ps stack rnd req|]
    eqn:Hpass; [| |done].
  - destruct (forallb _ _) eqn:Hall; cbn [negb].
    + intros [= <-] Hno _. apply (no_pending_swap _ _ Hno).
      by apply openBetting_counts, all_have_target.
    + destruct (existsb _ _) eqn:Hm; [intros [= <-] Hno; congruence|].
      destruct (dealEach target (players (returnCards _)) _ _)
        as [ps2 stack2 rnd2|ps2 stack2 rnd2 req2|] eqn:Hpass2; [| |done].
      * apply dealEach_count in Hpass2;
          [|eapply Forall_impl; [apply returnCards_empty|];
            intros q; cbn; lia].
        assert (Hall2 : Forall
                  (fun p => hasMultiply p = true ∨ numberCount p = target)
                  ps2).
        { eapply Forall_impl; [exact Hpass2|]. intros q Hq. by right. }
        rewrite (afterPass_all_target _ _ _ _ _ Hpass2). cbn [negb].
        intros [= <-] Hno _. apply (no_pending_swap _ _ Hno).
        by apply openBetting_counts.
      * intros [= <-] Hno Hdeck. destruct Hdeck.
        apply halted_pass; [|done]. by eapply dealEach_Halted.
  - intros [= <-] Hno Hdeck. destruct Hdeck.
    apply halted_pass; [|done]. by eapply dealEach_Halted.
Qed.

(** The first deal of a round, at the opening table. *)
Lemma strict_deal_fills_hands_witness :
  ∃ g', dealCards (setPhase dealing1 opening) 2 true = Done g' ∧
        Forall (fun p => numberCount p = 2%nat) (players g').
Proof.
  eexists. split; [vm_compute; reflexivity|].
  eapply (strict_deal_fills_hands (setPhase dealing1 opening) 2).
  - vm_compute. reflexivity.
  - vm_compute. reflexivity.
  - vm_compute. discriminate.
Defined.

(** X3.  A deal moves no chips and changes nobody's standing: in the
    state it leaves, returned or thrown, every player has the id, name,
    chips, bet type, active and folded flags and submitted equations of
    before, and the pot is the one of before.  Bets and the current bet
    are those of before as well, except that the deal that completes the
    second dealing phase opens the second betting round with all of them
    set to 0. *)
Theorem deal_moves_no_chips (g : GameState) (target : nat) (strict : bool)
    (g' : GameState) :
  leaves (dealCards g target strict) g' →
  account <$> players g' = account <$> players g ∧ pot g' = pot g ∧
  ((bet <$> players g' = bet <$> players g ∧ currentBet g' = currentBet g)
   ∨ (phase g = dealing2 ∧ phase g' = betting2 ∧
      Forall (fun p => bet p = 0) (players g') ∧ currentBet g' = 0)).
Proof.
  intros Hg'. unfold dealCards in Hg'.
  destruct (dealCardsWithin_carried account
              (fun _ _ => eq_refl) (fun _ _ _ => eq_refl)
              (fun _ _ => eq_refl) (fun _ _ => eq_refl)
              (fun p q E => E) 1 g target strict g' Hg')
    as (r & (E1 & _ & E3) & _).
  destruct (dealCardsWithin_carried bet
              (fun _ _ => eq_refl) (fun _ _ _ => eq_refl)
              (fun _ _ => eq_refl) (fun _ _ => eq_refl)
              (fun p q _ => eq_refl) 1 g target strict g' Hg')
    as (r' & (F1 & F2 & _) & Hph).
  split; [|split; [done|]].
  - rewrite E1. destruct r; [|done]. by apply fmap_setter.
  - destruct r'; [right|by left].
    destruct Hph as [-> ->]. repeat split; [|done].
    apply Forall_forall. intros q Hq.
    assert (bet q ∈ bet <$> players g') as Hin
      by (apply list_elem_of_fmap; by exists q).
    rewrite F1 in Hin. apply list_elem_of_fmap in Hin as (q1 & -> & Hq1).
    by apply list_elem_of_fmap in Hq1 as (q2 & -> & _).
Qed.

Section CardsOfADeal.

Lemma notMultiply_app (xs ys : list Card) :
  notMultiply (xs ++ ys) = notMultiply xs ++ notMultiply ys.
Proof. apply filter_app. Qed.

Lemma notMultiply_push card p :
  card ≠ OperationCard multiply →
  notMultiply (cards (push card p)) = notMultiply (cards p) ++ [card].
Proof.
  intros Hc. unfold push. cbn [cards setCards].
  rewrite notMultiply_app. f_equal. unfold notMultiply.
  by rewrite filter_cons_True, filter_nil.
Qed.

Lemma notMultiply_push_multiply p :
  notMultiply (cards (push (OperationCard multiply) p))
  = notMultiply (cards p).
Proof.
  unfold push. cbn [cards setCards]. rewrite notMultiply_app.
  unfold notMultiply at 2. rewrite filter_cons_False by (by intros []).
  by rewrite filter_nil, app_nil_r.
Qed.

Lemma notMultiply_multiply (stack : list Card) :
  notMultiply (OperationCard multiply :: stack) = notMultiply stack.
Proof. unfold notMultiply. by rewrite filter_cons_False by (by intros []). Qed.

Lemma notMultiply_cons card (stack : list Card) :
  card ≠ OperationCard multiply →
  notMultiply (card :: stack) = card :: notMultiply stack.
Proof. intros Hc. unfold notMultiply. by rewrite filter_cons_True. Qed.

(** The loop of one player: the cards other than multiply cards that it
    takes from the deck go to the end of the hand, in the order in which
    they are taken. *)
Lemma dealPlayer_cards target stack : ∀ p rnd,
  let d := dealPlayer target p stack rnd in
  notMultiply (cards (dealtPlayer d)) ++ notMultiply (dealtStack d)
  = notMultiply (cards p) ++ notMultiply stack.
Proof.
  induction stack as [|card stack IH]; intros p rnd; cbn [dealPlayer].
  { by destruct (target <=? numberCount p)%nat. }
  destruct (target <=? numberCount p)%nat; [done|].
  assert (Hpush : ∀ q, cards q = cards p →
            card ≠ OperationCard multiply →
            notMultiply (cards (setIsSquareRoot false (push card q)))
            ++ notMultiply stack
            = notMultiply (cards p) ++ notMultiply (card :: stack)).
  { intros q Hq Hc. cbn [cards setIsSquareRoot].
    change (cards (push card q)) with (cards q ++ [card]).
    rewrite Hq, notMultiply_app, (notMultiply_cons card stack) by done.
    rewrite <- app_assoc. f_equal.
    by rewrite (notMultiply_cons card []). }
  destruct card as [v c|[]].
  - cbn zeta in *. rewrite IH. by apply Hpush.
  - cbn zeta in *. rewrite IH. by apply Hpush.
  - cbn zeta in *. rewrite IH. by apply Hpush.
  - rewrite notMultiply_multiply.
    destruct (hasMultiplyCard p); [apply IH|].
    destruct (isSquareRoot p); [apply IH|].
    destruct (_ && _); [done|].
    destruct (isBot p).
    + destruct (draw rnd) as [r rnd2].
      destruct (operationCards p !! _).
      * cbn zeta in *. rewrite IH. cbn [cards setIsSquareRoot].
        by rewrite notMultiply_push_multiply.
      * cbn [dealtPlayer dealtStack]. by rewrite notMultiply_push_multiply.
    + cbn zeta in *. rewrite IH. cbn [cards setIsSquareRoot].
      by rewrite notMultiply_push_multiply.
  - cbn zeta in *. rewrite IH. by apply Hpush.
  - cbn zeta in *. rewrite IH. cbn [cards setIsSquareRoot].
    change (cards (push (OperationCard squareRoot) (setIsSquareRoot true p)))
      with (cards p ++ [OperationCard squareRoot]).
    rewrite notMultiply_app,
      (notMultiply_cons (OperationCard squareRoot) stack) by done.
    rewrite <- app_assoc. f_equal.
Qed.

Lemma hands_cons p ps : hands (p :: ps) = cards p ++ hands ps.
Proof. reflexivity. Qed.

Lemma passStack_withPlayer p r : passStack (withPlayer p r) = passStack r.
Proof. by destruct r. Qed.

End CardsOfADeal.

(** X4.  One pass of the dealing loop over the players neither loses
    nor duplicates a card other than a multiply card: the number cards
    and square-root cards of the hands and of the deck are, after the
    pass, those of before, however the pass ends.  (Multiply cards can
    leave the game: the loop discards them.) *)
Theorem deal_pass_keeps_cards (target : nat) (ps : list Player)
    (stack : list Card) (rnd : list nat) :
  let r := dealEach target ps stack rnd in
  notMultiply (hands (passPlayers r)) ++ notMultiply (passStack r)
  ≡ₚ notMultiply (hands ps) ++ notMultiply stack.
Proof.
  revert stack rnd. induction ps as [|p ps IH]; intros stack rnd;
    cbn [dealEach]; [done|].
  pose proof (dealPlayer_cards target stack p rnd) as Hp. cbn zeta in Hp.
  destruct (dealPlayer target p stack rnd) as [q s r0|q r0|q s r0 req|q s r0];
    cbn [dealtPlayer dealtStack] in Hp;
    cbn [passPlayers passStack];
    rewrite ?passPlayers_withPlayer, ?passStack_withPlayer, !hands_cons,
      !notMultiply_app.
  - specialize (IH s r0). cbn zeta in IH.
    rewrite <- (app_assoc _ _ (notMultiply (passStack _))), IH.
    rewrite (Permutation_app_comm (notMultiply (hands ps))), app_assoc, Hp.
    rewrite <- !app_assoc. apply Permutation_app_head, Permutation_app_comm.
  - rewrite <- app_assoc, (Permutation_app_comm (notMultiply (hands ps))),
      app_assoc, Hp.
    rewrite <- !app_assoc. apply Permutation_app_head, Permutation_app_comm.
  - rewrite <- app_assoc, (Permutation_app_comm (notMultiply (hands ps))),
      app_assoc, Hp.
    rewrite <- !app_assoc. apply Permutation_app_head, Permutation_app_comm.
  - rewrite <- app_assoc, (Permutation_app_comm (notMultiply (hands ps))),
      app_assoc, Hp.
    rewrite <- !app_assoc. apply Permutation_app_head, Permutation_app_comm.
Qed.

(** ** Actions *)

Section Handlers.

Context `{Host}.

(** *** The only error with a changed state *)

Lemma dealCardsWithin_thrown n : ∀ g target strict m g',
  dealCardsWithin n g target strict = Thrown m g' → m = swapTypeError.
Proof.
  induction n as [|n IH]; intros g target strict m g'; cbn [dealCardsWithin];
    destruct (dealEach target (players g) _ _) as [ps stack rnd| |];
    try done; try (by intros [= <- _]);
    destruct (strict && _); try done;
    destruct (existsb _ _); try done.
  apply IH.
Qed.

Lemma advanceGamePhase_thrown g m g' :
  advanceGamePhase g = Thrown m g' → m = swapTypeError.
Proof.
  unfold advanceGamePhase, dealCards.
  destruct (phase g); try done; apply dealCardsWithin_thrown.
Qed.

Lemma moveToNextPlayer_thrown g m g' :
  moveToNextPlayer g = Thrown m g' → m = swapTypeError.
Proof.
  unfold moveToNextPlayer. destruct (findPlayer _ _) as [[c ?]|]; [|done].
  destruct (nextInPlay _ _ _) as [k|]; [|done].
  destruct (_ && _); [apply advanceGamePhase_thrown|].
  by destruct (players g !! k).
Qed.

Lemma continueDealing_thrown g m g' :
  continueDealing g = Thrown m g' → m = swapTypeError.
Proof.
  unfold continueDealing, dealCards.
  destruct (phase g); try done; apply dealCardsWithin_thrown.
Qed.

(** *** Phases *)

Lemma dealCardsWithin_rank n g target strict g' :
  leaves (dealCardsWithin n g target strict) g' →
  (phaseRank (phase g) ≤ phaseRank (phase g'))%nat.
Proof.
  intros Hg'.
  destruct (dealCardsWithin_carried bet
              (fun _ _ => eq_refl) (fun _ _ _ => eq_refl)
              (fun _ _ => eq_refl) (fun _ _ => eq_refl)
              (fun p q _ => eq_refl) n g target strict g' Hg')
    as (r & _ & Hph).
  destruct r; cbn in Hph.
  - destruct Hph as [-> ->]. cbn. lia.
  - destruct Hph as [->|[-> ->]]; cbn; lia.
Qed.

Lemma firstStanding_phase g : phase (firstStanding g) = phase g.
Proof. by destruct (firstStanding_fields g) as (_ & _ & _ & ->). Qed.

Lemma resolve_phase g : phase (resolveEquationsAndDistributePot g) = phase g.
Proof.
  unfold resolveEquationsAndDistributePot. cbn [phase setPot].
  set (rs := (collect 0 (players g)).*1).
  set (g1 := setEquationResults _ g).
  change (phase g) with (phase g1).
  generalize g1. intros g2. unfold distribute.
  destruct (when _ _); [done|].
  destruct (when _ _); [done|].
  destruct (sameWinner _ _) as [[s b]|]; [done|].
  destruct (0 <? _)%nat.
  - destruct (notDisqualified _ (smallWinner rs)); [done|].
    by destruct (notDisqualified _ (bigWinner rs)).
  - by destruct (smallWinner rs), (bigWinner rs).
Qed.

Lemma advanceGamePhase_rank g g' :
  leaves (advanceGamePhase g) g' →
  (phaseRank (phase g) ≤ phaseRank (phase g'))%nat.
Proof.
  unfold advanceGamePhase, dealCards. intros Hg'.
  destruct (phase g) eqn:Hph;
    try (apply leaves_Done in Hg' as ->; rewrite ?Hph; cbn; lia).
  - apply dealCardsWithin_rank in Hg'. cbn in *. lia.
  - apply dealCardsWithin_rank in Hg'. cbn in *. lia.
  - apply leaves_Done in Hg' as ->. rewrite firstStanding_phase. cbn. lia.
Qed.

Lemma moveToNextPlayer_rank g g' :
  leaves (moveToNextPlayer g) g' →
  (phaseRank (phase g) ≤ phaseRank (phase g'))%nat.
Proof.
  unfold moveToNextPlayer. intros Hg'.
  destruct (findPlayer _ _) as [[c ?]|];
    [|by apply leaves_Done in Hg' as ->].
  destruct (nextInPlay _ _ _) as [k|]; [|by destruct Hg' as [|[]]].
  destruct (_ && _); [by apply advanceGamePhase_rank|].
  destruct (players g !! k); by apply leaves_Done in Hg' as ->.
Qed.

Lemma continueDealing_rank g g' :
  leaves (continueDealing g) g' →
  (phaseRank (phase g) ≤ phaseRank (phase g'))%nat.
Proof.
  unfold continueDealing, dealCards. intros Hg'.
  destruct (phase g) eqn:Hph;
    try (apply leaves_Done in Hg' as ->; rewrite ?Hph; cbn; lia);
    apply dealCardsWithin_rank in Hg'; by rewrite Hph in Hg'.
Qed.

Lemma closeDealing_rank g :
  (phaseRank (phase g) ≤ phaseRank (phase (closeDealing g)))%nat.
Proof.
  unfold closeDealing. destruct (phase g) eqn:Hph; rewrite ?Hph; try done;
    destruct (forallb _ _); rewrite ?Hph; cbn; lia.
Qed.

Lemma checkPlayerElimination_rank g i :
  (phaseRank (phase g) ≤ phaseRank (phase (checkPlayerElimination g i)))%nat.
Proof.
  destruct (checkPlayerElimination_stakes g i) as (_ & _ & _ & _ & [->| ->]);
    [done|]. destruct (phase g); cbn; lia.
Qed.

Lemma rank_ended ph : (phaseRank ended ≤ phaseRank ph)%nat → ph = ended.
Proof. destruct ph; cbn; (done || lia). Qed.

End Handlers.

Section Dispatch.

Context `{Host}.

(** What [performAction] does with an action: it refuses it before any
    change, or it hands it to the code of its type. *)
Lemma performAction_cases g action :
  (∃ m, performAction g action = Thrown m g ∧ m ≠ swapTypeError)
  ∨ ∃ i player,
      players g !! i = Some player ∧
      match actionType action with
      | continue =>
          isBetting (phase g) = true ∧
          performAction g action = advanceGamePhase g
      | doBet =>
          isBetting (phase g) = true ∧
          ∃ a, performAction g action = handleBet g i a
      | call =>
          isBetting (phase g) = true ∧
          performAction g action = handleCall g i
      | fold =>
          isBetting (phase g) = true ∧
          performAction g action = handleFold g i
      | selectBetType =>
          ∃ b, performAction g action = handleBetType g i b
      | submitEquation =>
          phase g = equation ∧
          ∃ e, performAction g action = submit g i player e
      | swapCard => ∃ t, performAction g action = handleSwap g i t
      | noSwap =>
          performAction g action
          = continueDealing (updatePlayer i (setHasMultiply false) g)
            >>> fun g' => Done (closeDealing g')
      | otherAction => False
      end.
Proof.
  unfold performAction.
  destruct (findPlayer _ _) as [[i player]|] eqn:Hf; [|left; by eexists].
  apply findPlayer_Some in Hf as [Hp _].
  destruct (negb _ && _ && _ && _ && _); [left; by eexists|].
  destruct (isBetting (phase g)) eqn:Hb; cbn [negb andb];
    destruct (actionType action) eqn:Ht; cbn [isBettingAction];
    try (left; by eexists).
  all: destruct (bool_decide (phase g = dealing1) || _ || _);
    cbn [andb]; try (left; by eexists).
  all: destruct (bool_decide (phase g = equation)) eqn:He;
    cbn [negb andb]; rewrite ?bool_decide_eq_true_2 by done;
    rewrite ?bool_decide_eq_false_2 by done; cbn [andb];
    try (left; by eexists).
  all: try (apply bool_decide_eq_true in He).
  all: try (destruct (allBetsMatched _ _); [|left; by eexists]).
  all: try (destruct (amount action); [|left; by eexists]).
  all: try (destruct (actionBetType action); [|left; by eexists]).
  all: try (destruct (equations action); [|left; by eexists]).
  all: try (destruct (swapCardType action); [|left; by eexists]).
  all: right; exists i, player; split; [done|]; eauto.
Qed.

End Dispatch.

Section Money.

Context `{Host}.

Lemma totalChips_updatePlayer g i p (f : Player → Player) :
  players g !! i = Some p →
  totalChips (updatePlayer i f g) = totalChips g + (chips (f p) - chips p).
Proof.
  unfold totalChips. cbn [updatePlayer players setPlayers].
  generalize (players g). intros ps. revert i.
  induction ps as [|q ps IH]; intros i Hi; [done|].
  destruct i as [|i]; cbn in *.
  - injection Hi as ->. lia.
  - rewrite (IH i Hi). lia.
Qed.

Lemma totalChips_players g g' :
  chips <$> players g' = chips <$> players g → totalChips g' = totalChips g.
Proof. unfold totalChips. by intros ->. Qed.

Lemma carried_total r g g' :
  carried chips r g g' → totalChips g' = totalChips g ∧ pot g' = pot g.
Proof.
  intros Hc. split; [|by destruct Hc as (_ & _ & ->)].
  by apply totalChips_players, (carried_chips r).
Qed.

Lemma paid_total g i p a :
  players g !! i = Some p →
  totalChips (paid i a g) = totalChips g - a ∧ pot (paid i a g) = pot g + a.
Proof.
  intros Hp. split; [|done]. unfold paid. cbn [setPot].
  change (totalChips (setPot _ ?g)) with (totalChips g).
  rewrite (totalChips_updatePlayer g i p) by done. cbn. lia.
Qed.

Lemma lastPlayerWins_total g k w :
  players g !! k = Some w →
  totalChips (lastPlayerWins (k, w) g) = totalChips g + pot g ∧
  pot (lastPlayerWins (k, w) g) = pot g ∧
  phase (lastPlayerWins (k, w) g) = ended.
Proof.
  intros Hk. repeat split. unfold lastPlayerWins.
  change (totalChips (setPhase ended ?g)) with (totalChips g).
  cbn [fst snd]. rewrite totalChips_credit; [done|].
  cbn. by rewrite Hk.
Qed.

(** The elimination check keeps the chips on the table, or ends the
    session by paying the pot without clearing it. *)
Lemma checkPlayerElimination_total g i :
  pot (checkPlayerElimination g i) = pot g ∧
  ((totalChips (checkPlayerElimination g i) = totalChips g ∧
    phase (checkPlayerElimination g i) = phase g)
   ∨ (totalChips (checkPlayerElimination g i) = totalChips g + pot g ∧
      phase (checkPlayerElimination g i) = ended)).
Proof.
  split; [by destruct (checkPlayerElimination_stakes g i) as (-> & _)|].
  unfold checkPlayerElimination.
  destruct (players g !! i) as [p|] eqn:Hp; [|by left].
  destruct (chips p <=? 0); [|by left].
  assert (Hm : totalChips (marked i g) = totalChips g).
  { unfold marked. rewrite (totalChips_updatePlayer g i p) by done.
    cbn. lia. }
  destruct (_ <=? _)%nat; [|by left].
  destruct (findPlayer _ _) as [[k w]|] eqn:Hw; [|by left].
  apply findPlayer_Some in Hw as [Hk _]. right.
  destruct (lastPlayerWins_total (marked i g) k w Hk) as (-> & _ & ->).
  by rewrite Hm.
Qed.

(** Chips and pot through the turn logic. *)
Lemma moveToNextPlayer_total g g' :
  leaves (moveToNextPlayer g) g' →
  totalChips g' = totalChips g ∧ pot g' = pot g.
Proof.
  intros Hg'.
  destruct (moveToNextPlayer_carried chips
              (fun _ _ => eq_refl) (fun _ _ _ => eq_refl)
              (fun _ _ => eq_refl) (fun _ _ => eq_refl)
              (fun p q E => E) g g' Hg') as (r & Hc & _).
  by apply (carried_total r).
Qed.

Lemma advanceGamePhase_total g g' :
  isBetting (phase g) = true → leaves (advanceGamePhase g) g' →
  totalChips g' = totalChips g ∧ pot g' = pot g.
Proof.
  intros Hb Hg'.
  destruct (advanceGamePhase_carried chips
              (fun _ _ => eq_refl) (fun _ _ _ => eq_refl)
              (fun _ _ => eq_refl) (fun _ _ => eq_refl)
              (fun p q E => E) g g' Hb Hg') as (r & Hc & _).
  by apply (carried_total r).
Qed.

(** The table after the bookkeeping of a bet or a call and the
    elimination check, through the rest of the action. *)
Lemma after_elimination_check g0 g i (rest : GameState → Outcome) g' :
  totalChips g0 + pot g0 = totalChips g + pot g →
  (∀ g1 g2, leaves (rest g1) g2 →
     totalChips g2 = totalChips g1 ∧ pot g2 = pot g1 ∧
     (phaseRank (phase g1) ≤ phaseRank (phase g2))%nat) →
  leaves (rest (checkPlayerElimination g0 i)) g' →
  totalChips g' + pot g' = totalChips g + pot g
  ∨ (phase g' = ended ∧ totalChips g' = totalChips g + pot g).
Proof.
  intros Hsum Hrest Hg'.
  destruct (Hrest _ _ Hg') as (Ht & Hpot & Hrank).
  destruct (checkPlayerElimination_total g0 i) as (Hp & [[E1 E2]|[E1 E2]]).
  - left. lia.
  - right. split; [|lia]. rewrite E2 in Hrank. by apply rank_ended.
Qed.

End Money.

Section Betting2.

Context `{Host}.

(** The two ways in which a call goes on after its bookkeeping. *)
Lemma handleCall_rest g i p :
  players g !! i = Some p →
  currentBet g - bet p ≤ chips p →
  ∃ rest : GameState → Outcome,
    handleCall g i
    = rest (checkPlayerElimination (paid i (currentBet g - bet p) g) i) ∧
    ∀ g1, (rest g1 = advanceGamePhase g1 ∧ phase g1 = betting1)
          ∨ rest g1 = moveToNextPlayer g1.
Proof.
  intros Hp Hch.
  exists (fun g1 =>
            if isSinglePlayerMode g1 && negb (isBot p)
               && (0 <? currentBet g - bet p)
               && bool_decide (phase g1 = betting1)
            then advanceGamePhase g1 else moveToNextPlayer g1).
  split.
  - unfold handleCall. rewrite Hp.
    by destruct (Z.ltb_spec (chips p) (currentBet g - bet p)); [lia|].
  - intros g1. destruct (bool_decide (phase g1 = betting1)) eqn:Hb.
    + apply bool_decide_eq_true in Hb.
      destruct (_ && _ && _); [by left|by right].
    + right. by rewrite andb_false_r.
Qed.

Lemma turn_total (rest : GameState → Outcome) :
  (∀ g1, (rest g1 = advanceGamePhase g1 ∧ phase g1 = betting1)
         ∨ rest g1 = moveToNextPlayer g1) →
  ∀ g1 g2, leaves (rest g1) g2 →
    totalChips g2 = totalChips g1 ∧ pot g2 = pot g1 ∧
    (phaseRank (phase g1) ≤ phaseRank (phase g2))%nat.
Proof.
  intros Hrest g1 g2 Hg2. destruct (Hrest g1) as [[E Hb]|E]; rewrite E in Hg2.
  - destruct (advanceGamePhase_total g1 g2) as [-> ->]; [by rewrite Hb|done|].
    by apply advanceGamePhase_rank in Hg2.
  - destruct (moveToNextPlayer_total g1 g2 Hg2) as [-> ->].
    by apply moveToNextPlayer_rank in Hg2.
Qed.

Lemma handleBet_cases g i a :
  (∃ m, handleBet g i a = Thrown m g ∧ m ≠ swapTypeError)
  ∨ handleBet g i a = Done g
  ∨ ∃ p, players g !! i = Some p ∧
         handleBet g i a
         = moveToNextPlayer
             (checkPlayerElimination (setCurrentBet a (paid i a g)) i).
Proof.
  unfold handleBet. destruct (players g !! i) as [p|]; [|by right; left].
  destruct (a <=? currentBet g); [left; by eexists|].
  destruct (chips p <? a); [left; by eexists|].
  destruct (exceeds _ _); [left; by eexists|].
  right; right. by exists p.
Qed.

Lemma handleCall_cases g i :
  (∃ m, handleCall g i = Thrown m g ∧ m ≠ swapTypeError)
  ∨ handleCall g i = Done g
  ∨ ∃ p, players g !! i = Some p ∧ currentBet g - bet p ≤ chips p.
Proof.
  unfold handleCall. destruct (players g !! i) as [p|]; [|by right; left].
  destruct (Z.ltb_spec (chips p) (currentBet g - bet p));
    [left; by eexists|].
  right; right. by exists p.
Qed.

Lemma handleFold_cases g i :
  let g1 := updatePlayer i (setIsFolded true) g in
  (∃ k w, players g1 !! k = Some w ∧
          handleFold g i = Done (lastPlayerWins (k, w) g1))
  ∨ handleFold g i = moveToNextPlayer g1.
Proof.
  intros g1. unfold handleFold. fold g1.
  destruct (_ <=? _)%nat; [|by right].
  destruct (findPlayer _ _) as [[k w]|] eqn:Hw; [|by right].
  apply findPlayer_Some in Hw as [Hk _]. left. by exists k, w.
Qed.

Lemma totalChips_setIsFolded g i v :
  totalChips (updatePlayer i (setIsFolded v) g) = totalChips g.
Proof.
  apply totalChips_players. cbn. by apply alter_frame.
Qed.

End Betting2.





(** X6.  In a game played with whole amounts the betting actions
    neither create nor destroy chips.  In whatever state a bet, call,
    fold or continue leaves, the chips of all players and the pot add
    up to what they added up to before; or else the action has ended
    the session, and then the chips of the players alone add up to
    that sum: the last player left has been paid the pot, which is not
    cleared.  (With an amount that has a fraction the sums of the code
    round, and nothing is stated.) *)
Theorem betting_conserves_chips `{Host} (g : GameState)
    (action : GameAction) (g' : GameState) :
  isBettingAction (actionType action) = true →
  leaves (performAction g action) g' →
  totalChips g' + pot g' = totalChips g + pot g
  ∨ (phase g' = ended ∧ totalChips g' = totalChips g + pot g).
Proof.
  intros Ht Hg'.
  destruct (performAction_cases g action)
    as [(m & E & _)|(i & player & Hp & Hcase)].
  { rewrite E in Hg'. destruct Hg' as [[=]|(? & [= _ <-])]. by left. }
  destruct (actionType action); try discriminate Ht.
  - destruct Hcase as [Hb E]. rewrite E in Hg'.
    destruct (advanceGamePhase_total g g' Hb Hg') as [-> ->]. by left.
  - destruct Hcase as [Hb [a E]]. rewrite E in Hg'. clear E.
    destruct (handleBet_cases g i a) as [(m & E & _)|[E|(p & Hq & E)]];
      rewrite E in Hg'.
    + destruct Hg' as [[=]|(? & [= _ <-])]. by left.
    + apply leaves_Done in Hg' as ->. by left.
    + apply (after_elimination_check (setCurrentBet a (paid i a g)) g i
               moveToNextPlayer); [| |done].
      * change (totalChips (setCurrentBet a ?x)) with (totalChips x).
        destruct (paid_total g i p a Hq) as [E1 E2].
        cbn [pot setCurrentBet]. rewrite E1, E2. lia.
      * intros g1 g2 Hg2.
        destruct (moveToNextPlayer_total g1 g2 Hg2) as [-> ->].
        by apply moveToNextPlayer_rank in Hg2.
  - destruct Hcase as [Hb E]. rewrite E in Hg'. clear E.
    destruct (handleCall_cases g i) as [(m & E & _)|[E|(p & Hq & Hle)]].
    + rewrite E in Hg'. destruct Hg' as [[=]|(? & [= _ <-])]. by left.
    + rewrite E in Hg'. apply leaves_Done in Hg' as ->. by left.
    + destruct (handleCall_rest g i p Hq Hle) as (rest & E & Hrest).
      rewrite E in Hg'.
      apply (after_elimination_check
               (paid i (currentBet g - bet p) g) g i rest); [| |done].
      * destruct (paid_total g i p (currentBet g - bet p) Hq) as [E1 E2].
        rewrite E1, E2. lia.
      * by apply turn_total.
  - destruct Hcase as [Hb E]. rewrite E in Hg'. clear E.
    destruct (handleFold_cases g i) as [(k & w & Hk & E)|E]; rewrite E in Hg'.
    + apply leaves_Done in Hg' as ->. right.
      destruct (lastPlayerWins_total _ k w Hk) as (-> & _ & ->).
      by rewrite totalChips_setIsFolded.
    + destruct (moveToNextPlayer_total _ g' Hg') as [-> ->]. left.
      by rewrite totalChips_setIsFolded.
Qed.

(** X7.  An action that [performAction] refuses changes nothing: when
    it throws, the state is the one before the call, unless the error is
    the TypeError that the deal raises for a bot that has no operation
    card to give for a multiply card. *)
Theorem refused_action_changes_nothing `{Host} (g : GameState)
    (action : GameAction) (m : string) (g' : GameState) :
  performAction g action = Thrown m g' →
  m ≠ swapTypeError →
  g' = g.
Proof.
  intros Hthrown Hm.
  destruct (performAction_cases g action)
    as [(m0 & E & _)|(i & player & Hp & Hcase)].
  { rewrite E in Hthrown. by injection Hthrown as _ <-. }
  destruct (actionType action).
  - destruct Hcase as [_ E]. rewrite E in Hthrown.
    by apply advanceGamePhase_thrown in Hthrown.
  - destruct Hcase as [_ [a E]]. rewrite E in Hthrown. clear E.
    destruct (handleBet_cases g i a) as [(m0 & E & _)|[E|(p & _ & E)]];
      rewrite E in Hthrown; [by injection Hthrown as _ <-|done|].
    by apply moveToNextPlayer_thrown in Hthrown.
  - destruct Hcase as [_ E]. rewrite E in Hthrown. clear E.
    destruct (handleCall_cases g i) as [(m0 & E & _)|[E|(p & Hq & Hle)]];
      [rewrite E in Hthrown; by injection Hthrown as _ <-
      |by rewrite E in Hthrown|].
    destruct (handleCall_rest g i p Hq Hle) as (rest & E & Hrest).
    rewrite E in Hthrown.
    destruct (Hrest (checkPlayerElimination
                       (paid i (currentBet g - bet p) g) i))
      as [[E2 _]|E2]; rewrite E2 in Hthrown.
    + by apply advanceGamePhase_thrown in Hthrown.
    + by apply moveToNextPlayer_thrown in Hthrown.
  - destruct Hcase as [_ E]. rewrite E in Hthrown. clear E.
    destruct (handleFold_cases g i) as [(k & w & _ & E)|E];
      rewrite E in Hthrown; [done|].
    by apply moveToNextPlayer_thrown in Hthrown.
  - destruct Hcase as [b E]. rewrite E in Hthrown.
    unfold handleBetType in Hthrown.
    destruct (bool_decide _); [done|]. by injection Hthrown as _ <-.
  - destruct Hcase as [_ [e E]]. rewrite E in Hthrown. clear E.
    unfold submit in Hthrown.
    destruct (betType player) as [[]|];
      try (by injection Hthrown as _ <-);
      destruct (_ || _) || destruct (bool_decide _);
      try (by injection Hthrown as _ <-); cbn [andThen] in Hthrown;
      (destruct (forallb _ _); [|done]);
      by apply advanceGamePhase_thrown in Hthrown.
  - destruct Hcase as [t E]. rewrite E in Hthrown. clear E.
    unfold handleSwap in Hthrown. rewrite Hp in Hthrown.
    destruct (operationIndex _ _); [|by injection Hthrown as _ <-].
    by apply continueDealing_thrown in Hthrown.
  - rewrite Hcase in Hthrown.
    destruct (continueDealing _) as [g1|m1 g1|] eqn:Hd; try done.
    cbn in Hthrown. injection Hthrown as -> _.
    by apply continueDealing_thrown in Hd.
  - done.
Qed.

(** Ben, who is not to act, bets: the bet is refused and the table is
    the one before. *)
Lemma refused_action_changes_nothing_witness :
  performAction (H := arithmeticOnly) opening (betOf "p2" 10)
  = Thrown "Not your turn" opening.
Proof.
  assert (∃ g', performAction (H := arithmeticOnly) opening (betOf "p2" 10)
                = Thrown "Not your turn" g') as [g' Hg'].
  { eexists. vm_compute. reflexivity. }
  rewrite Hg'. f_equal.
  apply (refused_action_changes_nothing (H := arithmeticOnly) opening
           (betOf "p2" 10) "Not your turn" g' Hg').
  vm_compute. discriminate.
Defined.

(** X8.  No action moves a session back to an earlier phase: in the
    order waiting, preflop, dealing1, betting1, dealing2, betting2,
    equation, ended, the phase of the state an action leaves is the
    phase of before or a later one. *)
Theorem phase_never_goes_back `{Host} (g : GameState) (action : GameAction)
    (g' : GameState) :
  leaves (performAction g action) g' →
  (phaseRank (phase g) ≤ phaseRank (phase g'))%nat.
Proof.
  intros Hg'.
  destruct (performAction_cases g action)
    as [(m & E & _)|(i & player & Hp & Hcase)].
  { rewrite E in Hg'. by destruct Hg' as [[=]|(? & [= _ <-])]. }
  destruct (actionType action).
  - destruct Hcase as [_ E]. rewrite E in Hg'.
    by apply advanceGamePhase_rank.
  - destruct Hcase as [_ [a E]]. rewrite E in Hg'. clear E.
    destruct (handleBet_cases g i a) as [(m & E & _)|[E|(p & _ & E)]];
      rewrite E in Hg'.
    + by destruct Hg' as [[=]|(? & [= _ <-])].
    + by apply leaves_Done in Hg' as ->.
    + apply moveToNextPlayer_rank in Hg'.
      etransitivity; [|exact Hg'].
      apply (checkPlayerElimination_rank (setCurrentBet a (paid i a g))).
  - destruct Hcase as [_ E]. rewrite E in Hg'. clear E.
    destruct (handleCall_cases g i) as [(m & E & _)|[E|(p & Hq & Hle)]].
    + rewrite E in Hg'. by destruct Hg' as [[=]|(? & [= _ <-])].
    + rewrite E in Hg'. by apply leaves_Done in Hg' as ->.
    + destruct (handleCall_rest g i p Hq Hle) as (rest & E & Hrest).
      rewrite E in Hg'.
      destruct (turn_total rest Hrest _ _ Hg') as (_ & _ & Hrank).
      etransitivity; [|exact Hrank].
      apply (checkPlayerElimination_rank (paid i (currentBet g - bet p) g)).
  - destruct Hcase as [_ E]. rewrite E in Hg'. clear E.
    destruct (handleFold_cases g i) as [(k & w & _ & E)|E]; rewrite E in Hg'.
    + apply leaves_Done in Hg' as ->. cbn. destruct (phase g); cbn; lia.
    + by apply moveToNextPlayer_rank in Hg'.
  - destruct Hcase as [b E]. rewrite E in Hg'. unfold handleBetType in Hg'.
    destruct (bool_decide _).
    + by apply leaves_Done in Hg' as ->.
    + by destruct Hg' as [[=]|(? & [= _ <-])].
  - destruct Hcase as [Heq [e E]]. rewrite E in Hg'. clear E.
    assert (Hgo : ∀ o, (o = Done g ∨ ∃ m, o = Thrown m g) →
              leaves (o >>> fun g0 =>
                let g1 := updatePlayer i (setSubmittedEquations (Some e)) g0
                in if forallb hasSubmitted (players g1)
                   then advanceGamePhase
                          (resolveEquationsAndDistributePot g1)
                   else Done g1) g' →
              (phaseRank (phase g) ≤ phaseRank (phase g'))%nat).
    { intros o [->|[m ->]] Ho; cbn [andThen] in Ho;
        [|by destruct Ho as [[=]|(? & [= _ <-])]].
      destruct (forallb _ _).
      - apply advanceGamePhase_rank in Ho. by rewrite resolve_phase in Ho.
      - by apply leaves_Done in Ho as ->. }
    unfold submit in Hg'. revert Hg'. apply Hgo.
    destruct (betType player) as [[]|]; eauto;
      destruct (_ || _) || destruct (bool_decide _); eauto.
  - destruct Hcase as [t E]. rewrite E in Hg'. clear E.
    unfold handleSwap in Hg'. rewrite Hp in Hg'.
    destruct (operationIndex _ _);
      [|by destruct Hg' as [[=]|(? & [= _ <-])]].
    by apply continueDealing_rank in Hg'.
  - rewrite Hcase in Hg'.
    destruct (continueDealing _) as [g1|m1 g1|] eqn:Hd; cbn in Hg'.
    + apply leaves_Done in Hg' as ->.
      etransitivity; [|apply closeDealing_rank].
      apply (continueDealing_rank
               (updatePlayer i (setHasMultiply false) g)).
      left. exact Hd.
    + destruct Hg' as [[=]|(? & [= _ <-])].
      apply (continueDealing_rank
               (updatePlayer i (setHasMultiply false) g)).
      right. eexists. exact Hd.
    + by destruct Hg' as [|[]].
  - done.
Qed.

(** Ana's re-raise leaves the session in the phase of before. *)
Lemma phase_never_goes_back_witness :
  (phaseRank (phase raised) ≤ phaseRank (phase afterReraise))%nat.
Proof.
  apply (phase_never_goes_back (H := arithmeticOnly) raised
           (betOf "p1" 150)).
  left. vm_compute. reflexivity.
Defined.

(** The table after Ana's re-raise holds the chips of before. *)
Lemma betting_conserves_chips_witness :
  totalChips afterReraise + pot afterReraise
  = totalChips raised + pot raised
  ∨ (phase afterReraise = ended
     ∧ totalChips afterReraise = totalChips raised + pot raised).
Proof.
  apply (betting_conserves_chips (H := arithmeticOnly) raised
           (betOf "p1" 150)).
  - reflexivity.
  - left. vm_compute. reflexivity.
Defined.

(** ** Turns *)

Section Turns.

Context `{Host}.

Lemma keeping_nobody (keep : Player → bool) (ps : list Player) :
  (∀ j q, ps !! j = Some q → keep q = false) → keeping keep ps = [].
Proof.
  induction ps as [|p ps IH]; intros Hps; [done|].
  unfold keeping. rewrite filter_cons_False.
  - apply IH. intros j q Hj. by apply (Hps (S j)).
  - rewrite (Hps 0%nat p eq_refl). done.
Qed.

Lemma keeping_only (keep : Player → bool) (ps : list Player) k w :
  ps !! k = Some w → keep w = true →
  (∀ j q, ps !! j = Some q → keep q = true → j = k) →
  keeping keep ps = [w] ∧ findPlayer keep ps = Some (k, w).
Proof.
  intros Hk Hw Huniq. split.
  - rewrite <- (take_drop_middle ps k w Hk). unfold keeping.
    rewrite filter_app, filter_cons_True by done.
    fold (keeping keep (take k ps)) (keeping keep (drop (S k) ps)).
    rewrite !keeping_nobody; [done| |].
    + intros j q Hj. rewrite lookup_drop in Hj.
      apply not_true_is_false. intros Hq.
      specialize (Huniq _ _ Hj Hq). lia.
    + intros j q Hj. apply lookup_take_Some in Hj as [Hj Hlt].
      apply not_true_is_false. intros Hq.
      specialize (Huniq _ _ Hj Hq). lia.
  - apply list_find_Some. split; [done|]. split; [done|].
    intros j q Hj Hlt Hq. specialize (Huniq _ _ Hj Hq). lia.
Qed.

Lemma advanceGamePhase_returns g : advanceGamePhase g ≠ Diverges.
Proof.
  unfold advanceGamePhase. destruct (phase g); try done;
    apply dealCards_returns.
Qed.

Lemma advanceGamePhase_moves g g' :
  isBetting (phase g) = true → leaves (advanceGamePhase g) g' →
  phase g' ≠ phase g.
Proof.
  unfold advanceGamePhase, dealCards. intros Hb Hg' E.
  destruct (phase g) eqn:Hph; try discriminate Hb.
  - apply dealCardsWithin_rank in Hg'. rewrite E in Hg'. cbn in Hg'. lia.
  - apply dealCardsWithin_rank in Hg'. rewrite E in Hg'. cbn in Hg'. lia.
  - apply leaves_Done in Hg' as ->. by rewrite firstStanding_phase in E.
Qed.

(** The search loop finds the first position in play, counting from
    where it starts and going round the table. *)
Lemma nextInPlay_first ps : ∀ steps i k,
  (i < length ps)%nat →
  nextInPlay ps steps i = Some k →
  ∃ d q, (d < steps)%nat ∧ k = ((i + d) mod length ps)%nat ∧
         ps !! k = Some q ∧ inPlay q = true ∧
         ∀ d', (d' < d)%nat →
           ∃ q', ps !! ((i + d') mod length ps)%nat = Some q'
                 ∧ inPlay q' = false.
Proof.
  induction steps as [|n IH]; intros i k Hi Hk; cbn [nextInPlay] in Hk;
    [done|].
  destruct (ps !! i) as [p|] eqn:Hp; [|done].
  destruct (inPlay p) eqn:Hq.
  - injection Hk as <-. exists 0%nat, p.
    rewrite Nat.add_0_r, Nat.mod_small by done.
    repeat split; try done; [lia|]. intros d' Hd'. lia.
  - assert (Hlt : ((i + 1) mod length ps < length ps)%nat)
      by (apply Nat.mod_upper_bound; lia).
    destruct (IH _ _ Hlt Hk) as (d & q & Hd & -> & Hkq & Hin & Hbefore).
    exists (S d), q.
    rewrite Nat.Div0.add_mod_idemp_l in Hkq |- *.
    replace (i + S d)%nat with (i + 1 + d)%nat by lia.
    repeat split; try done; [lia|].
    intros [|d'] Hd'.
    + rewrite Nat.add_0_r, Nat.mod_small by done. eauto.
    + destruct (Hbefore d' ltac:(lia)) as (q' & Hq' & Hout).
      rewrite Nat.Div0.add_mod_idemp_l in Hq'.
      replace (i + S d')%nat with (i + 1 + d')%nat by lia. eauto.
Qed.

End Turns.

(** X9.  [moveToNextPlayer] never returns exactly when the current
    player is seated and no player at the table is in play (every one
    has folded or is inactive): its search loop has no other exit. *)
Theorem turn_search_loops_iff_nobody_in_play `{Host} (g : GameState) :
  moveToNextPlayer g = Diverges
  ↔ is_Some (findPlayer (byId (currentPlayer g)) (players g))
    ∧ Forall (fun q => inPlay q = false) (players g).
Proof.
  unfold moveToNextPlayer. split.
  - destruct (findPlayer _ _) as [[c p]|] eqn:Hf; [|done].
    apply findPlayer_Some in Hf as [Hc _].
    assert (Hlt : ((c + 1) mod length (players g) < length (players g))%nat).
    { apply Nat.mod_upper_bound. apply lookup_lt_Some in Hc. lia. }
    destruct (nextInPlay _ _ _) as [k|] eqn:Hn.
    + destruct (_ && _).
      * intros E. by apply advanceGamePhase_returns in E.
      * by destruct (players g !! k).
    + intros _. split; [by eexists|]. by eapply nextInPlay_diverges.
  - intros [[[c p] ->] Hall].
    destruct (nextInPlay _ _ _) as [k|] eqn:Hn; [|done].
    apply nextInPlay_Some in Hn as (q & Hq & Hin).
    rewrite Forall_forall in Hall.
    rewrite Hall in Hin; [done|]. by eapply list_elem_of_lookup_2.
Qed.

(** X10.  When [moveToNextPlayer] returns in the phase it was called
    in, for a current player who is seated, the turn has gone to the
    first player in play after the current player, in seating order
    and going round the table, and nothing else has changed: a folded or
    inactive player is skipped and is never given the turn. *)
Theorem turn_passes_to_next_in_play `{Host} (g : GameState) (c : nat)
    (p : Player) (g' : GameState) :
  findPlayer (byId (currentPlayer g)) (players g) = Some (c, p) →
  moveToNextPlayer g = Done g' →
  phase g' = phase g →
  ∃ d q,
    let n := length (players g) in
    (d < n)%nat ∧
    players g !! ((c + 1 + d) mod n)%nat = Some q ∧ inPlay q = true ∧
    (∀ d', (d' < d)%nat →
       ∃ q', players g !! ((c + 1 + d') mod n)%nat = Some q'
             ∧ inPlay q' = false) ∧
    g' = setCurrentPlayer (id q) g.
Proof.
  intros Hf. unfold moveToNextPlayer. rewrite Hf.
  apply findPlayer_Some in Hf as [Hc _].
  assert (Hlt : ((c + 1) mod length (players g) < length (players g))%nat).
  { apply Nat.mod_upper_bound. apply lookup_lt_Some in Hc. lia. }
  destruct (nextInPlay _ _ _) as [k|] eqn:Hn; [|done].
  apply nextInPlay_first in Hn as (d & q & Hd & -> & Hq & Hin & Hbefore);
    [|done].
  rewrite Nat.Div0.add_mod_idemp_l in Hq.
  destruct (_ && _ && isBetting (phase g)) eqn:Hadv.
  - apply andb_true_iff in Hadv as [_ Hb]. intros Hg' E.
    destruct (advanceGamePhase_moves g g' Hb); [by left|done].
  - rewrite Nat.Div0.add_mod_idemp_l, Hq. intros [= <-] _.
    exists d, q. cbn zeta. repeat split; try done.
    intros d' Hd'. destruct (Hbefore d' Hd') as (q' & Hq' & Hout).
    rewrite Nat.Div0.add_mod_idemp_l in Hq'. eauto.
Qed.

(** After Ana's re-raise the turn is Ben's. *)
Lemma turn_passes_to_next_in_play_witness :
  ∃ d q,
    (d < 2)%nat ∧
    players raised !! ((0 + 1 + d) mod 2)%nat = Some q ∧ inPlay q = true ∧
    (∀ d', (d' < d)%nat →
       ∃ q', players raised !! ((0 + 1 + d') mod 2)%nat = Some q'
             ∧ inPlay q' = false) ∧
    setCurrentPlayer "p2" raised = setCurrentPlayer (id q) raised.
Proof.
  apply (turn_passes_to_next_in_play (H := arithmeticOnly) raised 0
           (setBet 50 (setChips 950 (newPlayer "p1" "Ana")))
           (setCurrentPlayer "p2" raised));
    vm_compute; reflexivity.
Defined.

(** ** Folding and leaving *)

Section Leaving.

Context `{Host}.

Lemma is_Some_findPlayer test (ps : list Player) j q :
  ps !! j = Some q → test q = true → is_Some (findPlayer test ps).
Proof.
  intros Hj Hq. unfold findPlayer.
  destruct (list_find _ ps) as [[k w]|] eqn:E; [by eexists|].
  apply list_find_None in E. rewrite Forall_forall in E.
  destruct (E q); [by eapply list_elem_of_lookup_2|done].
Qed.

Lemma connected_inPlay p : connected p = inPlay p.
Proof. unfold connected, inPlay. apply andb_comm. Qed.

Lemma wonEverything_lastPlayerWins g k w :
  players g !! k = Some w →
  wonEverything (lastPlayerWins (k, w) g) k w (pot g).
Proof.
  intros Hk. repeat split. cbn. by rewrite list_lookup_alter_eq, Hk.
Qed.

End Leaving.

(** X11.  A fold marks the player folded.  When one other player
    is the only one left who has not folded (active or not), the fold
    returns at once: that player is recorded as winner of both targets
    and receives the whole pot, the session has ended, and the folder
    keeps the chips not yet bet. *)
Theorem fold_leaves_the_pot_to_the_last_player `{Host} (g : GameState)
    (i k : nat) (p w : Player) :
  players g !! i = Some p →
  players g !! k = Some w → k ≠ i → isFolded w = false →
  (∀ j q, players g !! j = Some q → j ≠ i → isFolded q = false → j = k) →
  ∃ g', handleFold g i = Done g' ∧
        wonEverything g' k w (pot g) ∧
        players g' !! i = Some (setIsFolded true p).
Proof.
  intros Hp Hk Hki Hw Huniq. unfold handleFold.
  set (g1 := updatePlayer i (setIsFolded true) g).
  assert (Hk1 : players g1 !! k = Some w).
  { cbn. by rewrite list_lookup_alter_ne. }
  assert (Hi1 : players g1 !! i = Some (setIsFolded true p)).
  { cbn. by rewrite list_lookup_alter_eq, Hp. }
  destruct (keeping_only standing (players g1) k w Hk1) as [-> ->].
  - unfold standing. by rewrite Hw.
  - intros j q Hj Hq. destruct (decide (j = i)) as [->|Hne].
    + rewrite Hi1 in Hj. injection Hj as <-. done.
    + cbn in Hj. rewrite list_lookup_alter_ne in Hj by done.
      apply (Huniq j q Hj Hne). unfold standing in Hq.
      by apply negb_true_iff in Hq.
  - eexists. split; [reflexivity|]. split.
    + by apply (wonEverything_lastPlayerWins g1).
    + cbn. rewrite list_lookup_alter_ne by done.
      by rewrite list_lookup_alter_eq, Hp.
Qed.

(** Ana folds against Ben in the first betting round. *)
Lemma fold_leaves_the_pot_to_the_last_player_witness :
  ∃ g', handleFold (H := arithmeticOnly) firstBetting 0 = Done g' ∧
        wonEverything g' 1
          (setCards [NumberCard 2 silver; NumberCard 6 bronze]
             (setBet 50 (setChips 950 (newPlayer "p2" "Ben"))))
          (pot firstBetting) ∧
        players g' !! 0%nat
        = Some (setIsFolded true
                  (setCards [NumberCard 4 gold; NumberCard 9 dark]
                     (setBet 50 (setChips 950 (newPlayer "p1" "Ana"))))).
Proof.
  apply (fold_leaves_the_pot_to_the_last_player (H := arithmeticOnly)
           firstBetting 0 1); try reflexivity; [lia|].
  intros [|[|j]] q Hj Hne Hq; [done|done|discriminate Hj].
Defined.

(** X12.  When the current player disconnects and no other player is in
    play, [handlePlayerDisconnect] never returns: it marks the player
    inactive and then searches for the next player in play for ever. *)
Theorem disconnect_of_the_last_player_loops `{Host} (g : GameState)
    (socketId : string) (i : nat) (p : Player) :
  findPlayer (byId socketId) (players g) = Some (i, p) →
  currentPlayer g = socketId →
  (∀ j q, players g !! j = Some q → j ≠ i → inPlay q = false) →
  handlePlayerDisconnect g socketId = Diverges.
Proof.
  intros Hf Hcur Hothers. unfold handlePlayerDisconnect. rewrite Hf.
  apply findPlayer_Some in Hf as [Hp Hid].
  set (g1 := updatePlayer i (setIsActive false) g).
  change (currentPlayer g1) with (currentPlayer g).
  rewrite Hcur, String.eqb_refl.
  assert (moveToNextPlayer g1 = Diverges) as ->; [|done].
  assert (Hi1 : players g1 !! i = Some (setIsActive false p)).
  { cbn. by rewrite list_lookup_alter_eq, Hp. }
  unfold moveToNextPlayer.
  destruct (is_Some_findPlayer (byId (currentPlayer g1)) (players g1) i
              (setIsActive false p) Hi1) as [[c pc] Hc].
  { change (currentPlayer g1) with (currentPlayer g). by rewrite Hcur. }
  rewrite Hc.
  destruct (nextInPlay _ _ _) as [k|] eqn:Hn; [|done].
  apply nextInPlay_Some in Hn as (q & Hq & Hin).
  destruct (decide (k = i)) as [->|Hne].
  - rewrite Hi1 in Hq. injection Hq as <-.
    unfold inPlay in Hin. cbn in Hin. by rewrite andb_false_r in Hin.
  - cbn in Hq. rewrite list_lookup_alter_ne in Hq by done.
    by rewrite (Hothers k q Hq Hne) in Hin.
Qed.

(** Ben has been eliminated; Ana, whose turn it is, disconnects. *)
Lemma disconnect_of_the_last_player_loops_witness :
  handlePlayerDisconnect (H := arithmeticOnly) afterElimination "p1"
  = Diverges.
Proof.
  apply (disconnect_of_the_last_player_loops (H := arithmeticOnly)
           afterElimination "p1" 0
           (setChips 2000 (newPlayer "p1" "Ana"))); try reflexivity.
  intros [|[|j]] q Hj Hne; [done| |discriminate Hj].
  injection Hj as <-. reflexivity.
Defined.

(** X13.  When a player who is not the current player disconnects, the
    call returns with that player marked inactive.  If exactly one
    other player is then in play and the phase is not waiting, that
    player is recorded as winner of both targets, is paid the pot as it
    stands, and the phase is ended; this also happens in a session that
    had ended already, whose pot has been paid before and is not
    cleared.  With two or more players in play besides, or in the
    waiting phase, nothing else changes. *)
Theorem disconnect_out_of_turn `{Host} (g : GameState) (socketId : string)
    (i : nat) (p : Player) :
  findPlayer (byId socketId) (players g) = Some (i, p) →
  currentPlayer g ≠ socketId →
  let g1 := updatePlayer i (setIsActive false) g in
  players g1 !! i = Some (setIsActive false p)
  ∧ (∀ k w, soleSurvivor g i k w → phase g ≠ waiting →
       handlePlayerDisconnect g socketId = Done (lastPlayerWins (k, w) g1)
       ∧ wonEverything (lastPlayerWins (k, w) g1) k w (pot g)
       ∧ players (lastPlayerWins (k, w) g1) !! i
         = Some (setIsActive false p))
  ∧ (phase g = waiting ∨ (1 < length (keeping connected (players g1)))%nat →
     handlePlayerDisconnect g socketId = Done g1).
Proof.
  intros Hf Hcur g1. unfold handlePlayerDisconnect. rewrite Hf.
  apply findPlayer_Some in Hf as [Hp Hid]. fold g1.
  change (currentPlayer g1) with (currentPlayer g).
  apply String.eqb_neq in Hcur. rewrite Hcur. cbn [andThen].
  assert (Hi1 : players g1 !! i = Some (setIsActive false p)).
  { cbn. by rewrite list_lookup_alter_eq, Hp. }
  split; [done|]. split.
  - intros k w (Hk & Hki & Hw & Huniq) Hph.
    assert (Hk1 : players g1 !! k = Some w).
    { cbn. by rewrite list_lookup_alter_ne. }
    destruct (keeping_only connected (players g1) k w Hk1) as [-> ->].
    + by rewrite connected_inPlay.
    + intros j q Hj Hq. rewrite connected_inPlay in Hq.
      destruct (decide (j = i)) as [->|Hne].
      * rewrite Hi1 in Hj. injection Hj as <-.
        unfold inPlay in Hq. cbn in Hq. by rewrite andb_false_r in Hq.
      * cbn in Hj. rewrite list_lookup_alter_ne in Hj by done.
        by apply (Huniq j q).
    + change (phase g1) with (phase g).
      rewrite (bool_decide_eq_false_2 (phase g = waiting)) by done.
      cbn. split; [done|]. split.
      * by apply (wonEverything_lastPlayerWins g1).
      * rewrite list_lookup_alter_ne by done.
        by rewrite list_lookup_alter_eq, Hp.
  - change (phase g1) with (phase g). intros [->|Hmany].
    + cbn. by rewrite andb_false_r.
    + destruct (Nat.leb_spec (length (keeping connected (players g1))) 1);
        [lia|done].
Qed.

(** After the round that Ana has won, Ben, already eliminated,
    disconnects: Ana is paid the pot of 2000 once more. *)
Lemma disconnect_out_of_turn_witness :
  ∃ g', handlePlayerDisconnect (H := arithmeticOnly) afterElimination "p2"
        = Done g' ∧
        chips <$> players afterElimination !! 0%nat = Some 2000 ∧
        chips <$> players g' !! 0%nat = Some 4000 ∧
        phase g' = ended.
Proof.
  destruct (disconnect_out_of_turn (H := arithmeticOnly) afterElimination
              "p2" 1
              (setIsFolded true
                 (setIsActive false (setChips 0 (newPlayer "p2" "Ben")))))
    as (_ & Hsole & _); [reflexivity|discriminate|].
  destruct (Hsole 0%nat (setChips 2000 (newPlayer "p1" "Ana")))
    as (Hrun & (_ & _ & Hph & Hchips) & _).
  - repeat split; [lia|].
    intros [|[|j]] q Hj Hne Hq; [done|done|discriminate Hj].
  - discriminate.
  - eexists. split; [exact Hrun|]. split; [reflexivity|].
    split; [exact Hchips|exact Hph].
Defined.

(** ** The resolver and the last submission *)

Section Payout.

Context `{Host}.

Lemma totalChips_paySmall w amount g :
  is_Some (players g !! ref w) →
  totalChips (paySmall w amount g) = totalChips g + amount.
Proof. intros Hw. by rewrite <- (totalChips_credit g (ref w) amount). Qed.

Lemma totalChips_payBig w amount g :
  is_Some (players g !! ref w) →
  totalChips (payBig w amount g) = totalChips g + amount.
Proof. intros Hw. by rewrite <- (totalChips_credit g (ref w) amount). Qed.

Ltac among :=
  repeat first [by apply list_elem_of_here | apply list_elem_of_further].

(** What the chain of paying branches hands out. *)
Lemma distribute_total rs sw bw g :
  (∀ s, sw = Some s → is_Some (players g !! ref s)) →
  (∀ b, bw = Some b → is_Some (players g !! ref b)) →
  totalChips (distribute rs sw bw g) - totalChips g
  ∈ [0; pot g; floorHalf (pot g); ceilHalf (pot g)].
Proof.
  intros Hs Hb. unfold distribute.
  assert (Hpot : ∀ a, a = pot g →
            totalChips g + a - totalChips g
            ∈ [0; pot g; floorHalf (pot g); ceilHalf (pot g)]).
  { intros a ->. replace (totalChips g + pot g - totalChips g) with (pot g)
      by lia. among. }
  destruct (when _ sw) as [s|] eqn:E1.
  { apply when_Some in E1. rewrite totalChips_paySmall by auto. auto. }
  destruct (when _ bw) as [b|] eqn:E2.
  { apply when_Some in E2. rewrite totalChips_payBig by auto. auto. }
  destruct (sameWinner sw bw) as [[s b]|] eqn:E3.
  { apply sameWinner_Some in E3 as [E3 _].
    change (totalChips (setWinnersBig _ ?x)) with (totalChips x).
    rewrite totalChips_paySmall by auto. auto. }
  destruct (0 <? _)%nat.
  - destruct (notDisqualified _ sw) as [s|] eqn:E4.
    { apply notDisqualified_Some in E4 as [E4 _].
      rewrite totalChips_paySmall by auto. auto. }
    destruct (notDisqualified _ bw) as [b|] eqn:E5.
    { apply notDisqualified_Some in E5 as [E5 _].
      rewrite totalChips_payBig by auto. auto. }
    replace (totalChips g - totalChips g) with 0 by lia. among.
  - destruct sw as [s|], bw as [b|].
    + rewrite totalChips_payBig, totalChips_paySmall; auto.
      * change (pot (paySmall s _ g)) with (pot g).
        pose proof (floorHalf_ceilHalf (pot g)).
        replace (totalChips g + floorHalf (pot g) + ceilHalf (pot g)
                 - totalChips g) with (pot g) by lia.
        among.
      * apply lookup_lt_is_Some. cbn. rewrite length_alter.
        apply lookup_lt_is_Some. auto.
    + rewrite totalChips_paySmall by auto.
      replace (totalChips g + floorHalf (pot g) - totalChips g)
        with (floorHalf (pot g)) by lia.
      among.
    + rewrite totalChips_payBig by auto.
      replace (totalChips g + ceilHalf (pot g) - totalChips g)
        with (ceilHalf (pot g)) by lia.
      among.
    + replace (totalChips g - totalChips g) with 0 by lia. among.
Qed.

End Payout.

Section Showdown.

Context `{Host}.

Lemma credit_nothing k g :
  chips <$> players (credit k 0 g) = chips <$> players g.
Proof. cbn. apply alter_frame. intros p. cbn. lia. Qed.

Lemma distribute_nothing rs sw bw g :
  pot g = 0 →
  chips <$> players (distribute rs sw bw g) = chips <$> players g.
Proof.
  intros Hpot. unfold distribute. rewrite Hpot.
  change (floorHalf 0) with 0.
  destruct (when _ sw); [apply credit_nothing|].
  destruct (when _ bw); [apply credit_nothing|].
  destruct (sameWinner sw bw) as [[s b]|]; [apply credit_nothing|].
  destruct (0 <? _)%nat.
  - destruct (notDisqualified _ sw); [apply credit_nothing|].
    destruct (notDisqualified _ bw); [apply credit_nothing|done].
  - destruct sw as [s|], bw as [b|]; try done.
    + change (pot (paySmall s 0 g)) with (pot g). rewrite Hpot.
      change (ceilHalf 0) with 0.
      rewrite players_payBig, credit_nothing, players_paySmall.
      apply credit_nothing.
    + apply credit_nothing.
    + rewrite Hpot. apply credit_nothing.
Qed.

(** With an empty pot the resolver pays nobody. *)
Lemma resolve_nothing_to_pay g :
  pot g = 0 →
  chips <$> players (resolveEquationsAndDistributePot g)
  = chips <$> players g.
Proof.
  intros Hpot. unfold resolveEquationsAndDistributePot.
  cbn [players setPot]. by rewrite distribute_nothing.
Qed.

Lemma performAction_submit g who e i player :
  findPlayer (byId who) (players g) = Some (i, player) →
  phase g = equation →
  performAction g (submitOf who e) = submit g i player e.
Proof.
  intros Hf Hph. unfold performAction. cbn [submitOf actionPlayerId].
  rewrite Hf, Hph. cbn. by rewrite !andb_false_r.
Qed.

(** A submission that carries what the bet type asks for passes the
    validation. *)
Lemma submit_valid g i player e :
  inPlay player = true →
  hasSubmitted (setSubmittedEquations (Some e) player) = true →
  submit g i player e
  = let g1 := updatePlayer i (setSubmittedEquations (Some e)) g in
    if forallb hasSubmitted (players g1)
    then advanceGamePhase (resolveEquationsAndDistributePot g1)
    else Done g1.
Proof.
  intros Hin Hsub. unfold submit. unfold inPlay in Hin.
  apply andb_true_iff in Hin as [Hfold Hact].
  apply negb_true_iff in Hfold.
  unfold hasSubmitted in Hsub. cbn in Hsub.
  rewrite Hfold, Hact in Hsub. cbn in Hsub.
  destruct (betType player) as [[]|]; [| | |done].
  - apply bool_decide_eq_true in Hsub as [x Hx].
    rewrite (bool_decide_eq_false_2 (truthy (eqSmall e) = None));
      [done|by rewrite Hx].
  - apply bool_decide_eq_true in Hsub as [x Hx].
    rewrite (bool_decide_eq_false_2 (truthy (eqBig e) = None));
      [done|by rewrite Hx].
  - apply andb_true_iff in Hsub as [Hs Hb].
    apply bool_decide_eq_true in Hs as [x Hx].
    apply bool_decide_eq_true in Hb as [y Hy].
    rewrite (bool_decide_eq_false_2 (truthy (eqSmall e) = None)),
      (bool_decide_eq_false_2 (truthy (eqBig e) = None));
      [done|by rewrite Hy|by rewrite Hx].
Qed.

End Showdown.

(** X14.  With a whole pot the resolver never creates chips out of
    nothing: it clears the pot, and the chips of all players together
    go up by nothing, by the whole pot, or by the floor or the ceiling
    of half the pot.  (For a pot with a fraction the two halves of the
    code can add up to more than the pot, and nothing is stated.) *)
Theorem resolver_pays_the_pot_at_most `{Host} (g : GameState) :
  pot (resolveEquationsAndDistributePot g) = 0 ∧
  totalChips (resolveEquationsAndDistributePot g) - totalChips g
  ∈ [0; pot g; floorHalf (pot g); ceilHalf (pot g)].
Proof.
  split; [done|]. unfold resolveEquationsAndDistributePot.
  change (totalChips (setPot 0 ?x)) with (totalChips x).
  set (g1 := setEquationResults _ g).
  change (totalChips g) with (totalChips g1).
  change (pot g) with (pot g1).
  apply distribute_total.
  - intros s Hs. apply smallWinner_elem in Hs.
    apply results_lookup in Hs. by eexists.
  - intros b Hb. apply bigWinner_elem in Hb.
    apply results_lookup in Hb. by eexists.
Qed.

(** X15.  The submission that completes the equations of all players
    in play ends the session.  The resolver runs twice on the way, once
    in the action and once in the step to the ended phase, but it pays
    once: the chips are those that one resolution of the table with the
    new equations gives, the pot is 0 and the phase is ended.  A
    submission that leaves a player in play without equations only
    records the equations.  The submission is one of a player in play
    and carries the equations that the bet type of the player asks
    for. *)
Theorem last_submission_ends_the_session `{Host} (g : GameState)
    (who : string) (e : Equations) (i : nat) (player : Player) :
  findPlayer (byId who) (players g) = Some (i, player) →
  phase g = equation →
  inPlay player = true →
  let g1 := updatePlayer i (setSubmittedEquations (Some e)) g in
  hasSubmitted (setSubmittedEquations (Some e) player) = true →
  (forallb hasSubmitted (players g1) = true →
   ∃ g', performAction g (submitOf who e) = Done g' ∧
         phase g' = ended ∧ pot g' = 0 ∧
         chips <$> players g'
         = chips <$> players (resolveEquationsAndDistributePot g1))
  ∧ (forallb hasSubmitted (players g1) = false →
     performAction g (submitOf who e) = Done g1).
Proof.
  intros Hf Hph Hin g1 Hsub.
  rewrite (performAction_submit g who e i player Hf Hph).
  rewrite (submit_valid g i player e Hin Hsub). cbn zeta. fold g1.
  split; intros ->; [|done].
  unfold advanceGamePhase. rewrite resolve_phase.
  change (phase g1) with (phase g). rewrite Hph.
  eexists. split; [reflexivity|]. unfold endGame.
  repeat split. cbn [players setPhase].
  by apply resolve_nothing_to_pay.
Qed.

(** Ben holds the last equation that is missing; Ana, who bet small as
    he did, has submitted hers. *)
Lemma last_submission_ends_the_session_witness :
  ∃ g', performAction (H := arithmeticOnly)
          (showdown [anaSmall; setSubmittedEquations None benSmall])
          (submitOf "p2" (mkEquations (Some "5+3-8/1") None))
        = Done g' ∧
        phase g' = ended ∧ pot g' = 0 ∧
        chips <$> players g' = [1051; 950].
Proof.
  destruct (last_submission_ends_the_session (H := arithmeticOnly)
              (showdown [anaSmall; setSubmittedEquations None benSmall])
              "p2" (mkEquations (Some "5+3-8/1") None) 1
              (setSubmittedEquations None benSmall))
    as [Hlast _]; try reflexivity.
  destruct (Hlast eq_refl) as (g' & Hrun & Hph & Hpot & Hchips).
  exists g'. split; [exact Hrun|]. split; [exact Hph|].
  split; [exact Hpot|]. rewrite Hchips. vm_compute. reflexivity.
Defined.

(** ** Swapping *)

Section Swapping.

Context `{Host}.

Lemma operationIndex_first t (before after : list OperationType) :
  t ∉ before →
  operationIndex t (before ++ t :: after) = Some (length before).
Proof.
  intros Hbefore. unfold operationIndex.
  assert (list_find (fun o => o = t) (before ++ t :: after)
          = Some (length before, t)) as ->; [|done].
  apply list_find_Some. split; [by apply list_lookup_middle|].
  split; [done|]. intros j y Hj Hlt ->.
  rewrite lookup_app_l in Hj by done.
  destruct Hbefore. by eapply list_elem_of_lookup_2.
Qed.

Lemma operationIndex_None t (ops : list OperationType) :
  operationIndex t ops = None ↔ t ∉ ops.
Proof.
  unfold operationIndex. destruct (list_find _ ops) as [[j x]|] eqn:E.
  - apply list_find_Some in E as (Hj & -> & _). split; [done|].
    intros Hnot. destruct Hnot. by eapply list_elem_of_lookup_2.
  - apply list_find_None in E. split; [|done]. intros _ Hin.
    rewrite Forall_forall in E. by apply (E t).
Qed.

Lemma continueDealing_humanOperationCards g g' :
  leaves (continueDealing g) g' →
  humanOperationCards <$> players g' = humanOperationCards <$> players g.
Proof.
  unfold continueDealing, dealCards. intros Hg'.
  assert (Hdeal : ∀ target,
            leaves (dealCardsWithin 1 g target true) g' →
            humanOperationCards <$> players g'
            = humanOperationCards <$> players g).
  { intros target Hd.
    destruct (dealCardsWithin_carried humanOperationCards) with
      (retries := 1%nat) (g := g) (target := target) (strict := true)
      (g' := g') as (r & (E & _) & _); try done.
    - intros v p Hbot. unfold humanOperationCards.
      change (isBot (setOperationCards v p)) with (isBot p).
      by rewrite Hbot.
    - rewrite E. destruct r; [|done]. by apply fmap_setter. }
  destruct (phase g); try (by apply leaves_Done in Hg' as ->);
    by eapply Hdeal.
Qed.

End Swapping.

(** X16.  A swap is refused, with nothing changed, when the player
    holds no operation card of the type named.  Otherwise it costs a
    player who is not a bot exactly the first operation card of that
    type: in whatever state the swap and the deal that goes on after it
    leave, the operation cards of the player are those of before
    without that card, in their order. *)
Theorem swap_costs_the_chosen_operation_card `{Host} (g : GameState)
    (i : nat) (p : Player) (t : OperationType)
    (before after : list OperationType) :
  players g !! i = Some p →
  (t ∉ operationCards p →
   handleSwap g i t
   = Thrown "Card type not found in player's operation cards" g)
  ∧ (isBot p = false →
     operationCards p = before ++ t :: after → t ∉ before →
     ∀ g', leaves (handleSwap g i t) g' →
       operationCards <$> players g' !! i = Some (before ++ after)).
Proof.
  intros Hp. unfold handleSwap. rewrite Hp. split.
  - intros Hnot. apply operationIndex_None in Hnot. by rewrite Hnot.
  - intros Hbot Hops Hbefore g'.
    rewrite Hops, (operationIndex_first t before after Hbefore).
    intros Hg'. apply continueDealing_humanOperationCards in Hg'.
    apply (fmap_lookup humanOperationCards _ _ i) in Hg'.
    cbn in Hg'. rewrite list_lookup_alter_eq, Hp in Hg'. cbn in Hg'.
    unfold humanOperationCards in Hg' at 2.
    change (isBot (setHasMultiply _ _)) with (isBot p) in Hg'.
    rewrite Hbot in Hg'. cbn in Hg'. rewrite Hops, delete_middle in Hg'.
    destruct (players g' !! i) as [p'|]; [|done]. cbn in Hg' |- *.
    unfold humanOperationCards in Hg'.
    destruct (isBot p'); [done|]. by injection Hg' as ->.
Qed.

(** Ben gives his subtract card. *)
Lemma swap_costs_the_chosen_operation_card_witness :
  ∃ g', handleSwap firstBetting 1 subtract = Done g' ∧
        operationCards <$> players g' !! 1%nat = Some [add; divide].
Proof.
  destruct (swap_costs_the_chosen_operation_card (H := arithmeticOnly)
              firstBetting 1
              (setCards [NumberCard 2 silver; NumberCard 6 bronze]
                 (setBet 50 (setChips 950 (newPlayer "p2" "Ben"))))
              subtract [add] [divide] eq_refl) as [_ Hswap].
  eexists. split; [reflexivity|].
  apply Hswap; [reflexivity|reflexivity| |by left].
  intros Hin. apply list_elem_of_singleton in Hin. discriminate Hin.
Defined.

(** ** Joining and starting *)

Section Joining.

Lemma totalChips_app g (ps : list Player) q :
  players g = ps →
  totalChips (setPlayers (ps ++ [q]) g) = totalChips g + chips q.
Proof.
  intros <-. unfold totalChips. cbn [players setPlayers].
  generalize (players g). intros l.
  induction l as [|x l IH]; cbn in *; lia.
Qed.

Lemma seated_after_append (ps : list Player) q j p :
  ps !! j = Some p → (ps ++ [q]) !! j = Some p.
Proof. intros Hj. by apply lookup_app_l_Some. Qed.

End Joining.

(** What a join leaves as it is: the pot, the phase, the turn, the deck
    and every seated player, but for the active flag of a player who
    joins again; and what it does to the chips at the table. *)
Lemma join_keeps_the_table (g : GameState) (playerName : string)
    (playerId : option string) (uuid : string) :
  match joinGame g playerName playerId uuid with
  | JoinedAs joined g' =>
      pot g' = pot g ∧ phase g' = phase g ∧
      currentPlayer g' = currentPlayer g ∧ deck g' = deck g ∧
      (∀ j p, players g !! j = Some p →
         players g' !! j = Some p
         ∨ (id p = joined ∧ name p = playerName ∧ playerId = Some joined ∧
            players g' !! j = Some (setIsActive true p))) ∧
      ((length (players g') = length (players g) ∧
        totalChips g' = totalChips g ∧ playerId = Some joined)
       ∨ (joined = uuid ∧ phase g = waiting ∧
          players g' = players g ++ [newPlayer uuid playerName] ∧
          totalChips g' = totalChips g + 1000)
       ∨ (joined = uuid ∧ phase g ≠ waiting ∧ phase g ≠ ended ∧
          ∃ q, players g' = players g ++ [q] ∧ id q = uuid ∧
               inPlay q = false ∧ chips q = 0 ∧
               totalChips g' = totalChips g))
  | JoinRefused message g' => g' = g ∧ phase g = ended
  end.
Proof.
  unfold joinGame.
  destruct (truthy playerId) as [known|] eqn:Hknown.
  - assert (playerId = Some known) as Hid.
    { destruct playerId as [s|]; [|done]. cbn in Hknown.
      destruct (s =? "")%string; [done|]. by injection Hknown as ->. }
    destruct (findPlayer _ (players g)) as [[i p0]|] eqn:Hf.
    + apply findPlayer_Some in Hf as [Hi Hsame].
      apply andb_true_iff in Hsame as [E1 E2].
      apply String.eqb_eq in E1, E2.
      repeat split; try done.
      * intros j p Hj. cbn. destruct (decide (j = i)) as [->|Hne].
        -- right. rewrite Hi in Hj. injection Hj as <-.
           by rewrite list_lookup_alter_eq, Hi.
        -- left. by rewrite list_lookup_alter_ne.
      * left. split; [cbn; by rewrite length_alter|]. split; [|done].
        rewrite (totalChips_updatePlayer g i p0) by done. cbn. lia.
    + destruct (bool_decide (phase g = waiting)) eqn:Hw; cbn [negb andb].
      * apply bool_decide_eq_true in Hw. repeat split; try done.
        -- intros j p Hj. left. by apply seated_after_append.
        -- right; left. repeat split; try done.
           by rewrite (totalChips_app g (players g)).
      * apply bool_decide_eq_false in Hw.
        destruct (bool_decide (phase g = ended)) eqn:He; cbn [negb].
        -- by apply bool_decide_eq_true in He.
        -- apply bool_decide_eq_false in He. repeat split; try done.
           ++ intros j p Hj. left. by apply seated_after_append.
           ++ right; right. repeat split; try done. eexists.
              split; [done|]. repeat split.
              rewrite (totalChips_app g (players g)) by done. cbn. lia.
  - destruct (bool_decide (phase g = waiting)) eqn:Hw; cbn [negb andb].
    + apply bool_decide_eq_true in Hw. repeat split; try done.
      * intros j p Hj. left. by apply seated_after_append.
      * right; left. repeat split; try done.
        by rewrite (totalChips_app g (players g)).
    + apply bool_decide_eq_false in Hw.
      destruct (bool_decide (phase g = ended)) eqn:He; cbn [negb].
      * by apply bool_decide_eq_true in He.
      * apply bool_decide_eq_false in He. repeat split; try done.
        -- intros j p Hj. left. by apply seated_after_append.
        -- right; right. repeat split; try done. eexists.
           split; [done|]. repeat split.
           rewrite (totalChips_app g (players g)) by done. cbn. lia.
Qed.

(** X17.  What a join does.  A join that supplies an id under which,
    with the name given, a player is seated comes back as the first
    such player: it returns that id, sets the active flag of that
    player and changes nothing else.  Any other join, also one that
    supplies an id nobody is seated under, takes a fresh id: in the
    waiting phase it seats a new player with 1000 chips and the three
    starting operation cards at the end of the table; after the round
    has ended it is refused with nothing changed; and in a round that
    is under way it adds a spectator, folded, inactive and without
    chips, at the end of the table. *)
Theorem join_seats_or_reconnects (g : GameState) (playerName : string)
    (playerId : option string) (uuid : string) :
  (∀ i p, players g !! i = Some p → seatedAs playerName playerId p →
     (∀ j q, players g !! j = Some q → (j < i)%nat →
        ¬ seatedAs playerName playerId q) →
     joinGame g playerName playerId uuid
     = JoinedAs (id p) (updatePlayer i (setIsActive true) g))
  ∧ (Forall (fun q => ¬ seatedAs playerName playerId q) (players g) →
     joinGame g playerName playerId uuid
     = match phase g with
       | waiting =>
           JoinedAs uuid
             (setPlayers (players g ++ [newPlayer uuid playerName]) g)
       | ended => JoinRefused "Game has already started" g
       | _ =>
           JoinedAs uuid
             (setPlayers (players g ++ [spectator uuid playerName]) g)
       end).
Proof.
  assert (Htest : ∀ known q,
            playerId = Some known → known ≠ "" →
            ((id q =? known)%string && (name q =? playerName)%string = true
             ↔ seatedAs playerName playerId q)).
  { intros known q -> Hknown. unfold seatedAs.
    rewrite andb_true_iff, !String.eqb_eq. split.
    - intros [<- <-]. done.
    - intros ([= <-] & _ & <-). done. }
  split.
  - intros i p Hi (Hid & Hfilled & Hname) Hfirst. unfold joinGame.
    assert (truthy playerId = Some (id p)) as ->.
    { rewrite Hid. cbn. by rewrite (proj2 (String.eqb_neq _ _) Hfilled). }
    assert (findPlayer
              (fun q => (id q =? id p)%string && (name q =? playerName)%string)
              (players g) = Some (i, p)) as ->; [|done].
    apply list_find_Some. split; [done|]. split.
    + apply (Htest (id p) p Hid Hfilled). done.
    + intros j q Hj Hlt Hq.
      apply (Hfirst j q Hj Hlt), (Htest (id p) q Hid Hfilled), Hq.
  - intros Hnone. unfold joinGame.
    assert (match truthy playerId with
            | Some known =>
                match findPlayer
                        (fun q => (id q =? known)%string
                                  && (name q =? playerName)%string)
                        (players g)
                with
                | Some (i, _) => Some (known, i)
                | None => None
                end
            | None => None
            end = None) as ->.
    { destruct playerId as [known|]; [|done]. cbn [truthy].
      destruct (known =? "")%string eqn:Hknown; [done|].
      apply String.eqb_neq in Hknown.
      assert (findPlayer
                (fun q => (id q =? known)%string
                          && (name q =? playerName)%string)
                (players g) = None) as ->; [|done].
      apply list_find_None. eapply Forall_impl; [exact Hnone|].
      intros q Hq Htrue. by apply Hq, (Htest known q eq_refl Hknown). }
    destruct (phase g); reflexivity.
Qed.

(** Ben, who has been eliminated, joins again under his id and is
    active; Cyd, who supplies no id, joins the first betting round as a
    spectator. *)
Lemma join_seats_or_reconnects_witness :
  joinGame afterElimination "Ben" (Some "p2") "p3"
  = JoinedAs "p2" (updatePlayer 1 (setIsActive true) afterElimination)
  ∧ joinGame firstBetting "Cyd" None "p3"
    = JoinedAs "p3"
        (setPlayers (players firstBetting ++ [spectator "p3" "Cyd"])
           firstBetting).
Proof.
  split.
  - destruct (join_seats_or_reconnects afterElimination "Ben" (Some "p2")
                "p3") as [Hback _].
    apply (Hback 1%nat
             (setIsFolded true
                (setIsActive false (setChips 0 (newPlayer "p2" "Ben")))));
      [reflexivity|by repeat split|].
    intros [|j] q Hq Hlt; [|lia]. injection Hq as <-.
    by intros ([=] & _).
  - destruct (join_seats_or_reconnects firstBetting "Cyd" None "p3")
      as [_ Hnew].
    apply Hnew. apply Forall_forall. by intros q _ ([=] & _).
Defined.

(** X18.  Starting a session that has players opens a round: the phase
    is preflop, the pot and the current bet are 0 (chips still in the
    pot are dropped), the winners are cleared, the deck is a full deck
    again, a permutation of the 52 cards in their building order, and
    the first player at the table is to act.  A table of one gets a bot
    with the chips of the one player as its second player; no other
    table changes in size.  The chips of the players who were seated
    are kept.  A session without players cannot be started. *)
Theorem start_opens_a_round (g : GameState) :
  (players g = [] → ∃ m g', startGame g = Thrown m g')
  ∧ (players g ≠ [] →
     ∃ g', startGame g = Done g' ∧
       phase g' = preflop ∧ pot g' = 0 ∧ currentBet g' = 0 ∧
       winnersSmall g' = [] ∧ winnersBig g' = [] ∧
       deck g' ≡ₚ orderedDeck ∧
       head (id <$> players g') = Some (currentPlayer g') ∧
       head (id <$> players g) = Some (currentPlayer g') ∧
       (∀ only, players g = [only] →
          players g' = [resetPlayer only; botPlayer (chips only)]
          ∧ chips <$> players g' = [chips only; chips only]) ∧
       (length (players g) ≠ 1%nat →
          chips <$> players g' = chips <$> players g)).
Proof.
  unfold startGame. split.
  - intros Hps. rewrite Hps.
    destruct (createDeck (random g)) as [d rnd].
    cbn [players setPhase setDeck setRandom]. rewrite Hps.
    by eexists _, _.
  - intros Hne.
    set (g1 := match players g with
               | [only] => setPlayers [only; botPlayer (chips only)] g
               | _ => g
               end).
    pose proof (shuffle_Permutation (length orderedDeck - 1) orderedDeck
                  (random g1)) as Hdeck.
    fold (createDeck (random g1)) in Hdeck.
    destruct (createDeck (random g1)) as [d rnd].
    cbn [players setPhase setDeck setRandom fst] in Hdeck |- *.
    destruct (players g) as [|a [|b rest]] eqn:Hps; [done| |].
    + subst g1. cbn. eexists. split; [reflexivity|].
      repeat split; try done;
        match goal with E : [a] = [_] |- _ => by injection E as <- end.
    + subst g1. rewrite Hps. eexists. split; [reflexivity|].
      repeat split; try done.
      intros _. cbn [players setPlayers].
      rewrite <- list_fmap_compose. by apply list_fmap_ext.
Qed.

(** Ana alone at the table starts the session. *)
Lemma start_opens_a_round_witness :
  ∃ g', startGame
          (mkGame "4711" [newPlayer "p1" "Ana"] [] "" 0 0 waiting 1 [] []
             None []) = Done g' ∧
        currentPlayer g' = "p1" ∧
        id <$> players g' = ["p1"; "bot-1"] ∧
        chips <$> players g' = [1000; 1000].
Proof.
  destruct (start_opens_a_round
              (mkGame "4711" [newPlayer "p1" "Ana"] [] "" 0 0 waiting 1 []
                 [] None [])) as [_ Hstart].
  destruct Hstart as (g' & Hrun & _ & _ & _ & _ & _ & _ & _ & Hcur & Hone & _);
    [discriminate|].
  destruct (Hone _ eq_refl) as [Hps Hchips].
  exists g'. split; [exact Hrun|]. split; [by injection Hcur as <-|].
  split; [by rewrite Hps|exact Hchips].
Defined.

(** The first deal of a round moves no chips. *)
Lemma deal_moves_no_chips_witness :
  ∃ g', dealCards (setPhase dealing1 opening) 2 true = Done g' ∧
        chips <$> players g' = [1000; 1000] ∧ pot g' = 0.
Proof.
  eexists. split; [vm_compute; reflexivity|].
  edestruct (deal_moves_no_chips (setPhase dealing1 opening) 2 true)
    as (Hacc & Hpot & _); [left; vm_compute; reflexivity|].
  split; [|exact Hpot].
  apply (f_equal (fmap (fun a => a.1.1.1.1.2))) in Hacc.
  rewrite <- !list_fmap_compose in Hacc. exact Hacc.
Defined.

(** ** Continue *)

Section Continue.

Context `{Host}.

Lemma advanceGamePhase_later g g' :
  isBetting (phase g) = true → leaves (advanceGamePhase g) g' →
  (phaseRank (phase g) < phaseRank (phase g'))%nat.
Proof.
  unfold advanceGamePhase, dealCards. intros Hb Hg'.
  destruct (phase g) eqn:Hph; try discriminate Hb.
  - apply dealCardsWithin_rank in Hg'. cbn in *. lia.
  - apply dealCardsWithin_rank in Hg'. cbn in *. lia.
  - apply leaves_Done in Hg' as ->. rewrite firstStanding_phase. cbn. lia.
Qed.

End Continue.

(** X19.  A continue is accepted only in a betting phase in which every
    player who has not folded has matched the current bet, and an
    accepted continue always takes the session to a later phase. *)
Theorem continue_moves_to_a_later_phase `{Host} (g : GameState)
    (action : GameAction) (g' : GameState) :
  actionType action = continue →
  performAction g action = Done g' →
  isBetting (phase g) = true ∧
  allBetsMatched g (keeping standing (players g)) = true ∧
  (phaseRank (phase g) < phaseRank (phase g'))%nat.
Proof.
  intros Ht. unfold performAction.
  destruct (findPlayer _ _) as [[i player]|]; [|done].
  destruct (negb _ && _ && _ && _ && _); [done|].
  rewrite Ht. cbn [isBettingAction].
  destruct (isBetting (phase g)) eqn:Hb; [|done]. cbn [negb andb].
  destruct (_ || _); [done|]. cbn [andb].
  rewrite (bool_decide_eq_false_2 (continue = selectBetType)) by done.
  rewrite andb_false_r.
  destruct (allBetsMatched _ _); [|done].
  intros Hg'. repeat split.
  apply advanceGamePhase_later; [done|by left].
Qed.

(** At the opening table nobody has bet: Ana continues, and the first
    cards are dealt. *)
Lemma continue_moves_to_a_later_phase_witness :
  ∃ g', performAction (H := arithmeticOnly) opening
          (mkAction continue "p1" None None None None) = Done g' ∧
        phase opening = preflop ∧ phase g' = betting1.
Proof.
  eexists. split; [vm_compute; reflexivity|].
  edestruct (continue_moves_to_a_later_phase (H := arithmeticOnly) opening
               (mkAction continue "p1" None None None None))
    as (_ & _ & Hlater); [reflexivity|vm_compute; reflexivity|].
  split; reflexivity.
Defined.

(** ** Who is paid *)

Section Paid.

Context `{Host}.

Lemma closest_valued goal value rs : ∀ minDiff winners e,
  e ∈ closest goal value rs minDiff winners →
  e ∈ winners ∨ (e ∈ rs ∧ is_Some (value e)).
Proof.
  induction rs as [|r rs IH]; intros minDiff winners e He;
    cbn [closest] in He; [by left|].
  assert (Hrest : ∀ m, e ∈ closest goal value rs m winners →
            e ∈ winners ∨ (e ∈ r :: rs ∧ is_Some (value e))).
  { intros m Hm. apply IH in Hm as [Hm|[Hm Hv]]; [by left|right].
    split; [by right|done]. }
  destruct (value r) as [v|] eqn:Hv; [|by eapply Hrest].
  destruct (PrimFloat.ltb _ _).
  - apply IH in He as [He|[He Hval]]; right.
    + apply list_elem_of_singleton in He as ->.
      split; [by left|]. by rewrite Hv.
    + split; [by right|done].
  - destruct (PrimFloat.eqb _ _); [|by eapply Hrest].
    apply IH in He as [He|[He Hval]].
    + apply elem_of_app in He as [He|He]; [by left|right].
      apply list_elem_of_singleton in He as ->.
      split; [by left|]. by rewrite Hv.
    + right. split; [by right|done].
Qed.

Lemma smallWinner_valued rs s :
  smallWinner rs = Some s → s ∈ rs ∧ is_Some (entrySmall s).
Proof.
  intros Hs. apply reduce_elem in Hs.
  - apply closest_valued in Hs as [Hs|Hs]; [by apply elem_of_nil in Hs|done].
  - intros x y. cbn. destruct (PrimFloat.ltb _ _); [by left|by right].
Qed.

Lemma bigWinner_valued rs b :
  bigWinner rs = Some b → b ∈ rs ∧ is_Some (entryBig b).
Proof.
  intros Hb. apply reduce_elem in Hb.
  - apply closest_valued in Hb as [Hb|Hb]; [by apply elem_of_nil in Hb|done].
  - intros x y. cbn. destruct (PrimFloat.ltb _ _); [by left|by right].
Qed.

Lemma evaluated_Some wanted e x :
  evaluated wanted e = Some x →
  wanted = true ∧ ∃ text v, truthy e = Some text ∧ safeEval text = Some v.
Proof.
  unfold evaluated. destruct wanted; [|done].
  destruct (truthy e) as [text|]; [|done].
  destruct (safeEval text) as [v|] eqn:Hv; [|done]. eauto.
Qed.

(** An entry of the results stands for a player who has not folded, and
    it holds a value for a target only if the player holds a valid
    result for it. *)
Lemma collect_entry ps : ∀ i e,
  e ∈ (collect i ps).*1 →
  isFolded (player e) = false ∧
  (is_Some (entrySmall e) → validFor wantsSmall submittedSmall (player e)) ∧
  (is_Some (entryBig e) → validFor wantsBig submittedBig (player e)).
Proof.
  induction ps as [|p ps IH]; intros i e He; cbn [collect] in He.
  { by apply elem_of_nil in He. }
  destruct (isFolded p) eqn:Hp; [by eapply IH|].
  destruct (betType p) as [b|] eqn:Hb; [|by eapply IH].
  cbn [fmap list_fmap fst] in He.
  apply elem_of_cons in He as [->|He]; [|by eapply IH].
  cbn [player entrySmall entryBig]. split; [done|].
  split; intros [x Hx];
    destruct (evaluated _ _) as [ev|] eqn:Hev; try done;
    apply evaluated_Some in Hev as (Hw & text & v & Ht & Hv);
    by exists b, text, v.
Qed.

End Paid.

(** X20.  The resolver pays nobody without a valid equation: a player
    whom a resolution changes has not folded and holds a valid result
    for a target, that is, a bet type that asks for the target and a
    submitted equation for it that has a value. *)
Theorem no_payout_without_a_valid_equation `{Host} (g : GameState)
    (j : nat) (p : Player) :
  players g !! j = Some p →
  players (resolveEquationsAndDistributePot g) !! j ≠ Some p →
  isFolded p = false ∧
  (validFor wantsSmall submittedSmall p ∨ validFor wantsBig submittedBig p).
Proof.
  intros Hj Hchanged.
  set (rs := (collect 0 (players g)).*1).
  assert (Hwinner :
    (∃ s, smallWinner rs = Some s ∧ ref s = j)
    ∨ (∃ b, bigWinner rs = Some b ∧ ref b = j)).
  { destruct (smallWinner rs) as [s|] eqn:Hs;
      destruct (bigWinner rs) as [b|] eqn:Hb;
      try (destruct (decide (ref s = j)); [left; by exists s|]);
      try (destruct (decide (ref b = j)); [right; by exists b|]);
      destruct Hchanged; unfold resolveEquationsAndDistributePot;
      fold rs; rewrite Hs, Hb; cbn [players setPot];
      rewrite distribute_untouched; try done; congruence. }
  destruct Hwinner as [(s & Hs & Href)|(b & Hb & Href)].
  - apply smallWinner_valued in Hs as [Hin Hval].
    pose proof (results_lookup g s Hin) as Hlook.
    rewrite Href, Hj in Hlook. injection Hlook as ->.
    destruct (collect_entry _ _ _ Hin) as (Hfold & Hsmall & _).
    split; [done|]. left. by apply Hsmall.
  - apply bigWinner_valued in Hb as [Hin Hval].
    pose proof (results_lookup g b Hin) as Hlook.
    rewrite Href, Hj in Hlook. injection Hlook as ->.
    destruct (collect_entry _ _ _ Hin) as (Hfold & _ & Hbig).
    split; [done|]. right. by apply Hbig.
Qed.

(** Ana is paid at the showdown in which she and Ben bet small. *)
Lemma no_payout_without_a_valid_equation_witness :
  chips <$> players (resolveEquationsAndDistributePot (H := arithmeticOnly)
                       (showdown [anaSmall; benSmall])) !! 0%nat
  = Some 1051 ∧
  isFolded anaSmall = false ∧
  (validFor (H := arithmeticOnly) wantsSmall submittedSmall anaSmall
   ∨ validFor (H := arithmeticOnly) wantsBig submittedBig anaSmall).
Proof.
  split; [vm_compute; reflexivity|].
  apply (no_payout_without_a_valid_equation (H := arithmeticOnly)
           (showdown [anaSmall; benSmall]) 0); [reflexivity|].
  vm_compute. discriminate.
Defined.

(** ** The turn of a bot *)

Section Bot.

Context `{Host}.





Lemma numberToString_nonempty v : numberToString v ≠ "".
Proof.
  unfold numberToString. destruct v as [|q|q]; cbn; [done| |done].
  pose proof (DecimalPos.Unsigned.to_uint_nonnil q) as Hq.
  by destruct (Pos.to_uint q).
Qed.

Lemma generateFrom_nonempty values ops :
  values ≠ [] → generateFrom values ops ≠ "".
Proof.
  destruct values as [|v rest]; [done|]. intros _. cbn [generateFrom].
  pose proof (numberToString_nonempty v) as Hv.
  by destruct (numberToString v).
Qed.

Lemma findPlayer_alter test (h : Player → Player) (ps : list Player) i p :
  (∀ q, test (h q) = test q) →
  findPlayer test ps = Some (i, p) →
  findPlayer test (alter h i ps) = Some (i, h p).
Proof.
  intros Hh Hf. unfold findPlayer in *.
  apply list_find_Some in Hf as (Hi & Hp & Hbefore).
  apply list_find_Some. split; [by rewrite list_lookup_alter_eq, Hi|].
  split; [by rewrite Hh|].
  intros j y Hj Hlt. rewrite list_lookup_alter_ne in Hj by lia.
  by apply (Hbefore j y).
Qed.

(** The resolver changes nothing of a player but the chips. *)
Lemma resolve_frame {A : Type} (f : Player → A) g :
  (∀ v p, f (setChips v p) = f p) →
  f <$> players (resolveEquationsAndDistributePot g) = f <$> players g.
Proof.
  intros Hf. unfold resolveEquationsAndDistributePot. cbn [players setPot].
  set (g1 := setEquationResults _ g).
  change (players g) with (players g1). generalize g1. intros g2.
  assert (Hc : ∀ k a g0,
            f <$> players (credit k a g0) = f <$> players g0).
  { intros k a g0. cbn. by apply alter_frame. }
  unfold distribute.
  destruct (when _ _); [apply Hc|].
  destruct (when _ _); [apply Hc|].
  destruct (sameWinner _ _) as [[s b]|]; [apply Hc|].
  destruct (0 <? _)%nat.
  - destruct (notDisqualified _ (smallWinner _)); [apply Hc|].
    destruct (notDisqualified _ (bigWinner _)); [apply Hc|done].
  - destruct (smallWinner _) as [s|], (bigWinner _) as [b|]; try done;
      repeat first [rewrite players_payBig | rewrite players_paySmall
                   | rewrite Hc]; done.
Qed.

End Bot.



(** X22.  In the equation phase the turn of a bot in play that has no
    bet type yet and holds a number card never blocks the showdown: it
    returns, the bot has the bet type that the random draw picks among
    small, big, both, and it has submitted, for each target of that bet
    type, the equation made of its number cards in the order of its
    hand with the symbols of its operation cards between them.  The bot
    is the first player with its id. *)
Theorem bot_submits_its_equations `{Host} (g : GameState) (i : nat)
    (bot : Player) (b : BetType) :
  findPlayer (byId (id bot)) (players g) = Some (i, bot) →
  phase g = equation →
  betType bot = None →
  inPlay bot = true →
  numberValues (cards bot) ≠ [] →
  betTypes !! ((draw (random g)).1 mod 3)%nat = Some b →
  let text := generateEquation bot in
  let e := mkEquations (if wantsSmall b then Some text else None)
                       (if wantsBig b then Some text else None) in
  text ≠ "" ∧
  ∃ g', botTurn g i = Done g' ∧
    ∃ bot', players g' !! i = Some bot' ∧
      betType bot' = Some b ∧ submittedEquations bot' = Some e ∧
      hasSubmitted bot' = true.
Proof.
  intros Hf Hph Hnone Hin Hcards Hdraw text e.
  assert (Htext : text ≠ "") by (by apply generateFrom_nonempty).
  split; [done|].
  pose proof Hf as Hlook. apply findPlayer_Some in Hlook as [Hbot _].
  unfold botTurn. rewrite Hbot, Hph, Hnone.
  rewrite bool_decide_eq_true_2 by done.
  destruct (draw (random g)) as [r rnd]. cbn [fst] in Hdraw.
  change (length betTypes) with 3%nat. rewrite Hdraw.
  unfold handleBetType. change (phase (setRandom rnd g)) with (phase g).
  rewrite Hph, bool_decide_eq_true_2 by done. cbn [andThen].
  fold text. fold e.
  set (g1 := updatePlayer i (setBetType (Some b)) (setRandom rnd g)).
  set (bot1 := setBetType (Some b) bot).
  assert (Hf1 : findPlayer (byId (id bot)) (players g1) = Some (i, bot1)).
  { subst g1. cbn [players updatePlayer setPlayers setRandom].
    by apply findPlayer_alter. }
  change (mkAction submitEquation (id bot) None None (Some e) None)
    with (submitOf (id bot) e).
  rewrite (performAction_submit g1 (id bot) e i bot1 Hf1) by done.
  assert (Htruthy : truthy (Some text) = Some text).
  { cbn. destruct (text =? "")%string eqn:E; [|done].
    by apply String.eqb_eq in E. }
  assert (Hsub : hasSubmitted (setSubmittedEquations (Some e) bot1) = true).
  { unfold hasSubmitted, inPlay in *.
    apply andb_true_iff in Hin as [Hfold Hact].
    apply negb_true_iff in Hfold. cbn. rewrite Hfold, Hact. cbn.
    destruct b; cbn [wantsSmall wantsBig]; rewrite Htruthy;
      by rewrite !bool_decide_eq_true_2 by (by eexists). }
  rewrite (submit_valid g1 i bot1 e) by done. cbn zeta.
  set (g2 := updatePlayer i (setSubmittedEquations (Some e)) g1).
  assert (Hbot2 : players g2 !! i
                  = Some (setSubmittedEquations (Some e) bot1)).
  { subst g2 g1. cbn. by rewrite !list_lookup_alter_eq, Hbot. }
  destruct (forallb hasSubmitted (players g2)).
  - unfold advanceGamePhase. rewrite resolve_phase.
    change (phase g2) with (phase g). rewrite Hph. cbn [caught].
    eexists. split; [reflexivity|]. unfold endGame. cbn [players setPhase].
    set (f := fun p => (betType p, submittedEquations p,
                        isFolded p, isActive p)).
    pose proof (resolve_frame f (resolveEquationsAndDistributePot g2)
                  (fun _ _ => eq_refl)) as E1.
    rewrite (resolve_frame f g2 (fun _ _ => eq_refl)) in E1.
    apply (fmap_lookup _ _ _ i) in E1. rewrite Hbot2 in E1.
    destruct (players (resolveEquationsAndDistributePot
                         (resolveEquationsAndDistributePot g2)) !! i)
      as [bot'|]; [|done].
    subst f. cbn in E1. injection E1 as E1 E2 E3 E4. exists bot'.
    split; [done|]. split; [done|]. split; [done|].
    unfold hasSubmitted, submittedSmall, submittedBig in *. cbn in Hsub.
    by rewrite E1, E2, E3, E4.
  - cbn [caught]. eexists. split; [reflexivity|].
    eexists. split; [exact Hbot2|]. by repeat split.
Qed.

(** The bot at the showdown with Ana draws the bet type big and submits
    the equation of its hand. *)
Lemma bot_submits_its_equations_witness :
  generateEquation botAtShowdown = "3+5-2/7" ∧
  ∃ g', botTurn (H := arithmeticOnly) botShowdown 1 = Done g' ∧
    ∃ bot', players g' !! 1%nat = Some bot' ∧
      betType bot' = Some big ∧
      submittedEquations bot' = Some (mkEquations None (Some "3+5-2/7")) ∧
      hasSubmitted bot' = true.
Proof.
  split; [reflexivity|].
  apply (bot_submits_its_equations (H := arithmeticOnly) botShowdown 1
           botAtShowdown big); try reflexivity.
  vm_compute. discriminate.
Defined.

(** ** The builder of the client and the evaluator of the server *)

Section Builder.

Context `{Host}.

Lemma digit_plain c :
  isDigit c = true →
  isSeparator c = false ∧ isSpace c = false ∧ "s"%char ≠ c ∧ "("%char ≠ c.
Proof.
  destruct c as [[] [] [] [] [] [] [] []]; try discriminate; by vm_compute.
Qed.

Lemma append_String c (s t : string) :
  (String c s ++ t)%string = String c (s ++ t)%string.
Proof. reflexivity. Qed.

Lemma append_nothing (t : string) : ("" ++ t)%string = t.
Proof. reflexivity. Qed.

Lemma append_empty (s : string) : (s ++ "")%string = s.
Proof. induction s as [|c s IH]; [done|]. by rewrite append_String, IH. Qed.

Lemma append_assoc (a b c : string) :
  ((a ++ b) ++ c)%string = (a ++ (b ++ c))%string.
Proof.
  induction a as [|x a IH]; [done|]. by rewrite !append_String, IH.
Qed.

Lemma splitFrom_digits d : ∀ rest piece,
  everyDigit d = true →
  splitFrom (d ++ rest)%string 0 piece = splitFrom rest 0 (piece ++ d)%string.
Proof.
  induction d as [|c d IH]; intros rest piece Hd.
  - by rewrite append_empty.
  - cbn [everyDigit] in Hd. apply andb_true_iff in Hd as [Hc Hd].
    destruct (digit_plain c Hc) as (Hsep & _ & Hs & _).
    rewrite append_String. cbn [splitFrom String.prefix].
    destruct (ascii_dec "s" c) as [E|_]; [done|]. rewrite Hsep.
    rewrite IH by done. f_equal.
    by rewrite append_assoc, append_String.
Qed.

Lemma isDigit_byte c : isDigit c = true → (nat_of_ascii c < 128)%nat.
Proof.
  unfold isDigit. intros [_ Hc%Nat.leb_le]%andb_true_iff. lia.
Qed.

(** No character of [trim] longer than a byte starts or ends with a
    byte below 128. *)
Lemma isWideSpace_lead lead following :
  (lead < 128)%nat → isWideSpace lead following = false.
Proof.
  intros Hlead. unfold isWideSpace.
  destruct following as [|b [|c [|]]]; try done;
    by rewrite !(proj2 (Nat.eqb_neq lead _)) by lia.
Qed.

Lemma isWideSpace_last lead b c :
  (c < 128)%nat →
  isWideSpace lead [c] = false ∧ isWideSpace lead [b; c] = false.
Proof.
  intros Hc. unfold isWideSpace.
  rewrite !(proj2 (Nat.eqb_neq c _)) by lia.
  rewrite (proj2 (Nat.leb_gt 128 c)) by lia.
  by rewrite !andb_false_r.
Qed.

Lemma spaceAhead_plain c rest :
  isSpace c = false → (nat_of_ascii c < 128)%nat →
  spaceAhead (String c rest) = 0%nat.
Proof.
  intros Hc Hbyte. unfold spaceAhead. rewrite Hc.
  destruct rest as [|b [|c' rest]]; by rewrite ?isWideSpace_lead.
Qed.

Lemma spaceBehind_plain c rest :
  isSpace c = false → (nat_of_ascii c < 128)%nat →
  spaceBehind (String c rest) = 0%nat.
Proof.
  intros Hc Hbyte. unfold spaceBehind. rewrite Hc.
  destruct rest as [|b [|a rest]]; [done| |].
  - by rewrite (proj1 (isWideSpace_last (nat_of_ascii b) 0 _ Hbyte)).
  - rewrite (proj1 (isWideSpace_last (nat_of_ascii b) 0 _ Hbyte)).
    by rewrite (proj2 (isWideSpace_last (nat_of_ascii a) (nat_of_ascii b)
                         _ Hbyte)).
Qed.

Lemma trimFrom_digits width d :
  (∀ c rest, isDigit c = true → width (String c rest) = 0%nat) →
  everyDigit d = true → trimFrom width d 0 = d.
Proof.
  intros Hwidth. destruct d as [|c d]; [done|].
  intros [Hc _]%andb_true_iff. cbn [trimFrom]. by rewrite Hwidth.
Qed.

Lemma trimStart_digits d : everyDigit d = true → trimStart d = d.
Proof.
  apply trimFrom_digits. intros c rest Hc.
  destruct (digit_plain c Hc) as (_ & Hspace & _).
  by apply spaceAhead_plain, isDigit_byte.
Qed.

Lemma reverse_reverse s : ∀ a b,
  reverse (reverse s a) b = reverse a (s ++ b)%string.
Proof.
  induction s as [|c s IH]; intros a b; cbn [reverse]; [done|].
  by rewrite IH.
Qed.

Lemma everyDigit_reverse s : ∀ a,
  everyDigit s = true → everyDigit a = true → everyDigit (reverse s a) = true.
Proof.
  induction s as [|c s IH]; intros a Hs Ha; cbn in *; [done|].
  apply andb_true_iff in Hs as [Hc Hs]. apply IH; [done|].
  cbn. by rewrite Hc.
Qed.

Lemma trim_digits d : everyDigit d = true → trim d = d.
Proof.
  intros Hd. unfold trim. rewrite (trimStart_digits d Hd).
  rewrite trimFrom_digits; [|intros c rest Hc|by apply everyDigit_reverse].
  - rewrite reverse_reverse. cbn [reverse]. apply append_empty.
  - destruct (digit_plain c Hc) as (_ & Hspace & _).
    by apply spaceBehind_plain, isDigit_byte.
Qed.

Lemma numberToString_digits v : 0 ≤ v → everyDigit (numberToString v) = true.
Proof.
  intros Hv. unfold numberToString. destruct v as [|q|q]; [done| |lia].
  cbn. generalize (Pos.to_uint q). intros u.
  assert (everyDigit (DecimalString.NilEmpty.string_of_uint u) = true) as Hu.
  { induction u; cbn; done. }
  by destruct u.
Qed.

Lemma filled_eqb (d : string) : d ≠ "" → (d =? "")%string = false.
Proof. intros Hd. by apply String.eqb_neq. Qed.

Lemma tokensOf_number d parts :
  everyDigit d = true → d ≠ "" →
  tokensOf (d :: parts) = cons (mkToken number d) <$> tokensOf parts.
Proof.
  intros Hd Hne. unfold tokensOf. rewrite filter_cons_True.
  - cbn [tokenize]. rewrite (trim_digits d Hd), (filled_eqb d Hne).
    unfold isNumeral. by rewrite (filled_eqb d Hne), Hd.
  - rewrite (trim_digits d Hd), (filled_eqb d Hne). done.
Qed.

Lemma tokensOf_sqrt d parts :
  everyDigit d = true → d ≠ "" →
  tokensOf ("sqrt" :: d :: parts)
  = cons (mkToken sqrt ("Math.sqrt(" ++ d ++ ")")%string) <$> tokensOf parts.
Proof.
  intros Hd Hne. unfold tokensOf.
  rewrite filter_cons_True by done.
  rewrite filter_cons_True
    by (rewrite (trim_digits d Hd), (filled_eqb d Hne); done).
  cbn [tokenize]. change (trim "sqrt") with "sqrt".
  change ("sqrt" =? "")%string with false.
  change (isNumeral "sqrt") with false.
  change ("sqrt" =? "sqrt")%string with true. cbn iota.
  rewrite (trim_digits d Hd).
  assert (String.prefix "(" d = false) as ->.
  { destruct d as [|c d]; [done|]. cbn [everyDigit] in Hd.
    apply andb_true_iff in Hd as [Hc Hd].
    destruct (digit_plain c Hc) as (_ & _ & _ & Hparen).
    cbn [String.prefix]. by destruct (ascii_dec "(" c). }
  unfold isNumeral. by rewrite (filled_eqb d Hne), Hd.
Qed.

Lemma tokensOf_operator o parts :
  o ≠ squareRoot →
  tokensOf (slotSymbol o :: parts)
  = cons (mkToken operator (slotSymbol o)) <$> tokensOf parts.
Proof. intros Ho. destruct o; (done || reflexivity). Qed.

Lemma tokensOf_Math parts : tokensOf ("Math." :: parts) = tokensOf parts.
Proof. reflexivity. Qed.

Lemma splitFrom_operator o rest piece :
  o ≠ squareRoot →
  splitFrom (slotSymbol o ++ rest)%string 0 piece
  = piece :: slotSymbol o :: splitFrom rest 0 "".
Proof. intros Ho. destruct o; (done || reflexivity). Qed.

Lemma prefix_nothing s : String.prefix "" s = true.
Proof. by destruct s. Qed.

Lemma splitFrom_plain c rest piece :
  "s"%char ≠ c → isSeparator c = false →
  splitFrom (String c rest) 0 piece
  = splitFrom rest 0 (piece ++ String c "")%string.
Proof.
  intros Hs Hsep. cbn [splitFrom String.prefix].
  destruct (ascii_dec "s" c) as [E|_]; [done|]. by rewrite Hsep.
Qed.

Lemma splitFrom_sqrt rest :
  splitFrom ("Math.sqrt" ++ rest)%string 0 ""
  = "Math." :: "sqrt" :: splitFrom rest 0 "".
Proof.
  change ("Math.sqrt" ++ rest)%string
    with (String "M" (String "a" (String "t" (String "h" (String "."
            (String "s" (String "q" (String "r" (String "t" rest))))))))).
  rewrite !splitFrom_plain by done.
  cbn [splitFrom String.prefix].
  repeat (destruct (ascii_dec _ _) as [_|E]; [|done]).
  by rewrite prefix_nothing.
Qed.

Lemma slotsText_empty slot rest :
  slotCard slot = None → slotsText (slot :: rest) = slotsText rest.
Proof. intros E. unfold slotsText. cbn. by rewrite E. Qed.

Lemma slotsText_card slot rest c :
  slotCard slot = Some c →
  slotsText (slot :: rest) = (slotText c ++ slotsText rest)%string.
Proof. intros E. unfold slotsText. cbn. by rewrite E. Qed.

(** Reading the text of well-formed slots, the server finds the tokens
    of the builder: from the start of an operand, and after the digits
    [d] of a number that it still holds as the piece being read. *)
Lemma tokens_agree n : ∀ slots,
  (length slots ≤ n)%nat →
  (alternating true slots = true →
   tokensOf (splitFrom (slotsText slots) 0 "") = slotTokens slots)
  ∧ (alternating false slots = true →
     ∀ d, ∃ tail,
       splitFrom (slotsText slots) 0 d = d :: tail ∧
       tokensOf tail = slotTokens slots).
Proof.
  induction n as [|n IH]; intros slots Hn.
  { destruct slots; [|cbn in Hn; lia]. split; [done|].
    intros _ d. by exists []. }
  destruct slots as [|slot rest].
  { split; [done|]. intros _ d. by exists []. }
  cbn [length] in Hn.
  destruct (IH rest ltac:(lia)) as [IHa IHb].
  cbn [alternating slotTokens].
  destruct (slotCard slot) as [[v col|o]|] eqn:Hslot.
  - rewrite (slotsText_card slot rest _ Hslot). cbn [slotText]. split; [|done].
    intros Halt. apply andb_true_iff in Halt as [Hv Halt].
    apply Z.leb_le in Hv.
    pose proof (numberToString_digits v Hv) as Hd.
    destruct (IHb Halt (numberToString v)) as (tail & Hsplit & Htail).
    rewrite splitFrom_digits, append_nothing, Hsplit by done.
    rewrite tokensOf_number by (done || apply numberToString_nonempty).
    by rewrite Htail.
  - rewrite (slotsText_card slot rest _ Hslot).
    destruct (decide (o = squareRoot)) as [->|Ho].
    + cbn [slotText andb]. split; [|done].
      destruct rest as [|nextSlot rest']; [done|].
      destruct (slotCard nextSlot) as [[v col|o']|] eqn:Hnext; try done.
      intros Halt. apply andb_true_iff in Halt as [Hv Halt].
      apply Z.leb_le in Hv.
      pose proof (numberToString_digits v Hv) as Hd.
      cbn [length] in Hn.
      destruct (IH rest' ltac:(lia)) as [_ IHb'].
      destruct (IHb' Halt (numberToString v)) as (tail & Hsplit & Htail).
      rewrite (slotsText_card nextSlot rest' _ Hnext). cbn [slotText].
      rewrite splitFrom_sqrt, splitFrom_digits, append_nothing, Hsplit
        by done.
      rewrite tokensOf_Math, tokensOf_sqrt
        by (done || apply numberToString_nonempty).
      by rewrite Htail.
    + assert (slotText (OperationCard o) = slotSymbol o) as ->
        by (by destruct o).
      assert (∀ awaited rest0,
                (match o with
                 | squareRoot =>
                     awaited && match rest0 with
                                | nextSlot :: rest' =>
                                    match slotCard nextSlot with
                                    | Some (NumberCard v _) =>
                                        (0 <=? v) && alternating false rest'
                                    | _ => false
                                    end
                                | [] => false
                                end
                 | _ => negb awaited && alternating true rest0
                 end) = negb awaited && alternating true rest0) as Hop
        by (intros; by destruct o).
      rewrite !Hop. cbn [negb andb]. split; [done|].
      intros Halt d. rewrite splitFrom_operator by done.
      eexists. split; [reflexivity|].
      rewrite tokensOf_operator by done. rewrite (IHa Halt).
      by destruct o.
  - rewrite (slotsText_empty slot rest Hslot). by split.
Qed.


Lemma slotsText_filled slots :
  alternating true slots = true → slotsText slots ≠ "".
Proof.
  induction slots as [|slot rest IH]; [done|]. cbn [alternating].
  destruct (slotCard slot) as [[v col|o]|] eqn:Hslot.
  - intros _. rewrite (slotsText_card slot rest _ Hslot). cbn [slotText].
    pose proof (numberToString_nonempty v) as Hv.
    by destruct (numberToString v).
  - rewrite (slotsText_card slot rest _ Hslot).
    by destruct o.
  - rewrite (slotsText_empty slot rest Hslot). apply IH.
Qed.

End Builder.

(** X23.  The builder of the client and the server agree on a
    well-formed equation.  When the slots hold operands and binary
    operators in turn (an operand being a number card that is not
    negative, or a square root with such a number in the next slot,
    with empty slots anywhere between), [buildEquation] gives a text,
    and [safeEval] on the server gives for that text exactly the value
    that [calculateEquationResult] has shown in the builder: the server
    reads in the text the very tokens of the builder. *)
Theorem builder_and_server_agree `{Host} (slots : list CardSlot) :
  alternating true slots = true →
  ∃ text, buildEquation slots = Some text ∧
          safeEval text = calculateEquationResult slots.
Proof.
  intros Halt. exists (slotsText slots). split.
  - unfold buildEquation. fold (slotsText slots).
    by rewrite (filled_eqb _ (slotsText_filled slots Halt)).
  - destruct (tokens_agree (length slots) slots (le_n _)) as [Hagree _].
    unfold safeEval, calculateEquationResult, split.
    fold (tokensOf (splitFrom (slotsText slots) 0 "")).
    by rewrite (Hagree Halt).
Qed.

(** The builder shows 6 for 3 + the square root of 9, and the server
    finds 6. *)
Lemma builder_and_server_agree_witness :
  buildEquation threePlusRootNine = Some "3+Math.sqrt9" ∧
  safeEval (H := arithmeticOnly) "3+Math.sqrt9" = Some (ofZ 6) ∧
  safeEval (H := arithmeticOnly) "3+Math.sqrt9"
  = calculateEquationResult (H := arithmeticOnly) threePlusRootNine.
Proof.
  split; [reflexivity|]. split; [vm_compute; reflexivity|].
  destruct (builder_and_server_agree (H := arithmeticOnly)
              threePlusRootNine eq_refl) as (text & Htext & Hagree).
  injection Htext as <-. exact Hagree.
Defined.

(** The slots have to be well formed: with a number card right in front
    of a square root the builder shows no value, and the server, which
    drops the piece it cannot read, finds 3. *)
Lemma builder_and_server_differ :
  alternating true threeRootNine = false ∧
  buildEquation threeRootNine = Some "3Math.sqrt9" ∧
  calculateEquationResult (H := arithmeticOnly) threeRootNine = None ∧
  safeEval (H := arithmeticOnly) "3Math.sqrt9" = Some (ofZ 3).
Proof. repeat apply conj; vm_compute; reflexivity. Qed.

(** ** The nearest result wins *)

(** The order of the binary64 values, as [<] and [===] of JavaScript
    read it. *)
Section FloatOrder.

Import SpecFloat.

Ltac order_cases :=
  repeat match goal with
  | b : bool |- _ => destruct b
  end; cbn in *; try congruence;
  change (PosDef.Pos.compare_cont Eq) with Pos.compare in *;
  repeat match goal with
  | H : context [(?a ?= ?b)%Z] |- _ => destruct (Z.compare_spec a b)
  | |- context [(?a ?= ?b)%Z] => destruct (Z.compare_spec a b)
  end; try congruence; try lia;
  repeat match goal with
  | H : context [(?a ?= ?b)%positive] |- _ => destruct (Pos.compare_spec a b)
  | |- context [(?a ?= ?b)%positive] => destruct (Pos.compare_spec a b)
  end; cbn in *; try congruence; try lia.

Lemma SFcompare_Lt_trans x y z :
  SFcompare x y = Some Lt → SFcompare y z = Some Lt →
  SFcompare x z = Some Lt.
Proof.
  destruct x as [?|?| |? mx ex], y as [?|?| |? my ey], z as [?|?| |? mz ez];
    cbn; intros Hxy Hyz; order_cases.
Qed.

Lemma SFcompare_Lt_Eq x y z :
  SFcompare x y = Some Lt → SFcompare y z = Some Eq →
  SFcompare x z = Some Lt.
Proof.
  destruct x as [?|?| |? mx ex], y as [?|?| |? my ey], z as [?|?| |? mz ez];
    cbn; intros Hxy Hyz; order_cases.
Qed.

Lemma SFcompare_Lt_refl x y :
  SFcompare x y = Some Lt → SFcompare x x = Some Eq.
Proof.
  destruct x as [?|?| |? mx ex], y as [?|?| |? my ey];
    cbn; intros Hxy; order_cases.
Qed.

Lemma ltb_Lt x y :
  PrimFloat.ltb x y = true
  ↔ SFcompare (FloatOps.Prim2SF x) (FloatOps.Prim2SF y) = Some Lt.
Proof.
  rewrite FloatAxioms.ltb_spec. unfold SFltb.
  destruct (SFcompare _ _) as [[]|]; split; congruence.
Qed.

Lemma eqb_Eq x y :
  PrimFloat.eqb x y = true
  ↔ SFcompare (FloatOps.Prim2SF x) (FloatOps.Prim2SF y) = Some Eq.
Proof.
  rewrite FloatAxioms.eqb_spec. unfold SFeqb.
  destruct (SFcompare _ _) as [[]|]; split; congruence.
Qed.

Lemma ltb_trans x y z :
  PrimFloat.ltb x y = true → PrimFloat.ltb y z = true →
  PrimFloat.ltb x z = true.
Proof. rewrite !ltb_Lt. apply SFcompare_Lt_trans. Qed.

Lemma ltb_eqb x y z :
  PrimFloat.ltb x y = true → PrimFloat.eqb y z = true →
  PrimFloat.ltb x z = true.
Proof. rewrite !ltb_Lt, eqb_Eq. apply SFcompare_Lt_Eq. Qed.

(** A value below another is not NaN: it equals itself. *)
Lemma ltb_eqb_refl x y : PrimFloat.ltb x y = true → PrimFloat.eqb x x = true.
Proof. rewrite ltb_Lt, eqb_Eq. apply SFcompare_Lt_refl. Qed.

Lemma ltb_irrefl x : PrimFloat.ltb x x = false.
Proof.
  destruct (PrimFloat.ltb x x) eqn:E; [|done].
  pose proof (ltb_eqb_refl _ _ E) as E'.
  apply ltb_Lt in E. apply eqb_Eq in E'. congruence.
Qed.

Lemma not_below x y z :
  PrimFloat.ltb x z = false → PrimFloat.ltb y z = true →
  PrimFloat.ltb x y = false.
Proof.
  intros Hxz Hyz. destruct (PrimFloat.ltb x y) eqn:E; [|done].
  by rewrite (ltb_trans _ _ _ E Hyz) in Hxz.
Qed.

End FloatOrder.

Section Nearest.

(** The first pass keeps, with the least distance met so far, the
    entries at that distance: no entry met is below it. *)
Lemma closest_nearest goal value rs : ∀ minDiff winners seen,
  (∀ e v, e ∈ winners → value e = Some v →
     PrimFloat.eqb (distance v goal) minDiff = true) →
  (∀ r w, r ∈ seen → value r = Some w →
     PrimFloat.ltb (distance w goal) minDiff = false) →
  ∀ e v r w,
    e ∈ closest goal value rs minDiff winners → value e = Some v →
    r ∈ seen ++ rs → value r = Some w →
    PrimFloat.ltb (distance w goal) (distance v goal) = false.
Proof.
  induction rs as [|x rs IH]; intros minDiff winners seen Hwin Hseen
    e v r w He Hv Hr Hw; cbn [closest] in He.
  { rewrite app_nil_r in Hr.
    destruct (PrimFloat.ltb (distance w goal) (distance v goal)) eqn:E;
      [|done].
    pose proof (Hseen r w Hr Hw) as Hno.
    by rewrite (ltb_eqb _ _ _ E (Hwin e v He Hv)) in Hno. }
  rewrite (assoc_L _ seen [x] rs : seen ++ x :: rs = (seen ++ [x]) ++ rs)
    in Hr.
  destruct (value x) as [d|] eqn:Hx.
  - cbn zeta in He.
    destruct (PrimFloat.ltb (distance d goal) minDiff) eqn:Hlt.
    + eapply (IH _ _ (seen ++ [x])); [| |done..].
      * intros e' v' He' Hv'. apply list_elem_of_singleton in He' as ->.
        assert (v' = d) as -> by congruence. by eapply ltb_eqb_refl.
      * intros r' w' Hr' Hw'. apply elem_of_app in Hr' as [Hr'|Hr'].
        -- eapply not_below; [by eapply Hseen|done].
        -- apply list_elem_of_singleton in Hr' as ->.
           assert (w' = d) as -> by congruence. apply ltb_irrefl.
    + assert (Hseen' : ∀ r' w', r' ∈ seen ++ [x] → value r' = Some w' →
                PrimFloat.ltb (distance w' goal) minDiff = false).
      { intros r' w' Hr' Hw'. apply elem_of_app in Hr' as [Hr'|Hr'].
        - by eapply Hseen.
        - apply list_elem_of_singleton in Hr' as ->.
          assert (w' = d) as -> by congruence. done. }
      destruct (PrimFloat.eqb (distance d goal) minDiff) eqn:Heq.
      * eapply (IH _ _ (seen ++ [x])); [|exact Hseen'|done..].
        intros e' v' He' Hv'. apply elem_of_app in He' as [He'|He'].
        -- by eapply Hwin.
        -- apply list_elem_of_singleton in He' as ->.
           assert (v' = d) as -> by congruence. done.
      * by eapply (IH _ _ (seen ++ [x])).
  - eapply (IH _ _ (seen ++ [x])); [done| |done..].
    intros r' w' Hr' Hw'. apply elem_of_app in Hr' as [Hr'|Hr'].
    + by eapply Hseen.
    + apply list_elem_of_singleton in Hr' as ->. congruence.
Qed.

(** The first pass finds somebody as soon as an entry lies below the
    distance it starts from. *)
Lemma closest_found goal value rs : ∀ minDiff winners,
  winners ≠ []
  ∨ (∃ r w, r ∈ rs ∧ value r = Some w
            ∧ PrimFloat.ltb (distance w goal) minDiff = true) →
  closest goal value rs minDiff winners ≠ [].
Proof.
  induction rs as [|x rs IH]; intros minDiff winners Hsome;
    cbn [closest].
  { destruct Hsome as [Hw|(r & w & Hr & _)]; [done|].
    by apply elem_of_nil in Hr. }
  assert (Hrest : ∀ d,
            value x = Some d →
            PrimFloat.ltb (distance d goal) minDiff = false →
            winners ≠ []
            ∨ (∃ r w, r ∈ rs ∧ value r = Some w
                      ∧ PrimFloat.ltb (distance w goal) minDiff = true)).
  { intros d Hd Hlt. destruct Hsome as [Hw|(r & w & Hr & Hv & Hbelow)];
      [by left|].
    apply elem_of_cons in Hr as [->|Hr]; [congruence|].
    right. by exists r, w. }
  destruct (value x) as [d|] eqn:Hx.
  - cbn zeta.
    destruct (PrimFloat.ltb (distance d goal) minDiff) eqn:Hlt.
    { apply IH. by left. }
    destruct (PrimFloat.eqb (distance d goal) minDiff).
    + apply IH. destruct (Hrest d eq_refl Hlt) as [Hw|Hr]; [left|by right].
      by destruct winners.
    + apply IH. by apply (Hrest d).
  - apply IH. destruct Hsome as [Hw|(r & w & Hr & Hv & Hbelow)]; [by left|].
    apply elem_of_cons in Hr as [->|Hr]; [congruence|].
    right. by exists r, w.
Qed.

Lemma reduce_Some pick ws : ws ≠ [] → is_Some (reduce pick ws).
Proof. by destruct ws. Qed.

End Nearest.

(** X24.  The winner of a target is nearest to it: no entry of the
    results holds a value for the small target that lies closer to 1
    than the value of the small winner, and none holds a value for the
    big target that lies closer to 20 than the value of the big winner.
    (Ties are left to the colour comparison.) *)
Theorem winners_are_nearest (rs : list Entry) (r : Entry) :
  r ∈ rs →
  (∀ s v w, smallWinner rs = Some s →
     entrySmall s = Some v → entrySmall r = Some w →
     PrimFloat.ltb (distance w 1) (distance v 1) = false)
  ∧ (∀ b v w, bigWinner rs = Some b →
       entryBig b = Some v → entryBig r = Some w →
       PrimFloat.ltb (distance w 20) (distance v 20) = false).
Proof.
  intros Hr. split.
  - intros s v w Hs Hv Hw. apply reduce_elem in Hs.
    + by eapply (closest_nearest 1 entrySmall rs PrimFloat.infinity [] []);
        try done; intros ? ? []%elem_of_nil.
    + intros x y. cbn. destruct (PrimFloat.ltb _ _); [by left|by right].
  - intros b v w Hb Hv Hw. apply reduce_elem in Hb.
    + by eapply (closest_nearest 20 entryBig rs PrimFloat.infinity [] []);
        try done; intros ? ? []%elem_of_nil.
    + intros x y. cbn. destruct (PrimFloat.ltb _ _); [by left|by right].
Qed.

(** Ana reaches 2 and Ben 6 for the small target: Ana wins it, and Ben
    is not closer to 1; Ben reaches 10 and Ana 8 for the big target:
    Ben wins it, and Ana is not closer to 20. *)
Lemma winners_are_nearest_witness :
  let rs := (collect (H := arithmeticOnly) 0 [anaBoth; benBoth]).*1 in
  (entrySmall <$> smallWinner rs = Some (Some (ofZ 2)) ∧
   PrimFloat.ltb (distance (ofZ 6) 1) (distance (ofZ 2) 1) = false)
  ∧ (entryBig <$> bigWinner rs = Some (Some (ofZ 10)) ∧
     PrimFloat.ltb (distance (ofZ 8) 20) (distance (ofZ 10) 20) = false).
Proof.
  intros rs.
  assert (Hana : mkEntry 0 anaBoth (Some (ofZ 2)) (Some (ofZ 8)) ∈ rs).
  { vm_compute. apply list_elem_of_here. }
  assert (Hben : mkEntry 1 benBoth (Some (ofZ 6)) (Some (ofZ 10)) ∈ rs).
  { vm_compute. apply list_elem_of_further, list_elem_of_here. }
  split; (split; [vm_compute; reflexivity|]).
  - destruct (winners_are_nearest rs _ Hben) as [Hsmall _].
    apply (Hsmall (mkEntry 0 anaBoth (Some (ofZ 2)) (Some (ofZ 8))));
      vm_compute; reflexivity.
  - destruct (winners_are_nearest rs _ Hana) as [_ Hbig].
    apply (Hbig (mkEntry 1 benBoth (Some (ofZ 6)) (Some (ofZ 10))));
      vm_compute; reflexivity.
Defined.

(** X25.  A target has a winner as soon as one entry of the results
    holds a value for it at a finite distance: a small winner when the
    value is one for the small target, a big winner when it is one for
    the big target. *)
Theorem valid_result_gives_a_winner (rs : list Entry) (r : Entry)
    (w : PrimFloat.float) :
  r ∈ rs →
  (entrySmall r = Some w →
   PrimFloat.ltb (distance w 1) PrimFloat.infinity = true →
   is_Some (smallWinner rs))
  ∧ (entryBig r = Some w →
     PrimFloat.ltb (distance w 20) PrimFloat.infinity = true →
     is_Some (bigWinner rs)).
Proof.
  intros Hr. split; intros Hw Hfinite; apply reduce_Some, closest_found;
    right; by exists r, w.
Qed.

(** Ben alone holds a value for the big target, and wins it. *)
Lemma valid_result_gives_a_winner_witness :
  let rs := (collect (H := arithmeticOnly) 0 [anaSmall; benBig]).*1 in
  is_Some (bigWinner rs).
Proof.
  intros rs.
  assert (Hben : mkEntry 1 benBig None (Some (ofZ 10)) ∈ rs).
  { vm_compute. apply list_elem_of_further, list_elem_of_here. }
  destruct (valid_result_gives_a_winner rs _ (ofZ 10) Hben) as [_ Hbig].
  apply Hbig; vm_compute; reflexivity.
Defined.

(** ** One multiply card *)

Section OneMultiply.

Lemma multiplyCount_push card p :
  multiplyCount (push card p)
  = (multiplyCount p
     + (if bool_decide (card = OperationCard multiply) then 1 else 0))%nat.
Proof.
  unfold multiplyCount, push. cbn. rewrite filter_app, length_app.
  rewrite filter_cons, filter_nil.
  destruct (decide (card = OperationCard multiply)) as [E|E].
  - rewrite (bool_decide_eq_true_2 _ E). cbn. lia.
  - rewrite (bool_decide_eq_false_2 _ E). cbn. lia.
Qed.

Lemma hasMultiplyCard_false p :
  hasMultiplyCard p = false → multiplyCount p = 0%nat.
Proof.
  unfold hasMultiplyCard, multiplyCount.
  intros [Hcards ->]%orb_false_iff.
  induction (cards p) as [|c cs IH]; [done|].
  cbn in Hcards. apply orb_false_iff in Hcards as [Hc Hcs].
  apply bool_decide_eq_false in Hc.
  rewrite filter_cons_False; [by apply IH|done].
Qed.

Lemma multiplyCount_setIsSquareRoot b p :
  multiplyCount (setIsSquareRoot b p) = multiplyCount p.
Proof. reflexivity. Qed.

Lemma multiplyCount_hasMultiply p :
  multiplyCount p = 0%nat → multiplyCount (setHasMultiply true p) = 1%nat.
Proof. unfold multiplyCount. cbn. destruct (hasMultiply p); lia. Qed.

Lemma multiplyCount_setOperationCards v p :
  multiplyCount (setOperationCards v p) = multiplyCount p.
Proof. reflexivity. Qed.

Lemma dealPlayer_multiply target stack : ∀ p rnd,
  (multiplyCount p ≤ 1)%nat →
  (multiplyCount (dealtPlayer (dealPlayer target p stack rnd)) ≤ 1)%nat.
Proof.
  induction stack as [|card stack IH]; intros p rnd Hp; cbn [dealPlayer];
    destruct (target <=? numberCount p)%nat; try done.
  assert (Hother : card ≠ OperationCard multiply →
            (multiplyCount (setIsSquareRoot false (push card p)) ≤ 1)%nat).
  { intros Hc. rewrite multiplyCount_setIsSquareRoot, multiplyCount_push,
      (bool_decide_eq_false_2 _ Hc). lia. }
  destruct card as [v c|[]]; try (by apply IH, Hother).
  destruct (hasMultiplyCard p) eqn:Hm; [by apply IH|].
  apply hasMultiplyCard_false in Hm.
  destruct (isSquareRoot p); [by apply IH|].
  destruct (_ && _).
  { cbn [dealtPlayer]. by rewrite multiplyCount_hasMultiply. }
  destruct (isBot p).
  - destruct (draw rnd) as [r rnd2].
    destruct (operationCards p !! _).
    + apply IH.
      rewrite multiplyCount_setIsSquareRoot, multiplyCount_push,
        multiplyCount_setOperationCards, Hm.
      destruct (bool_decide _); lia.
    + cbn [dealtPlayer]. rewrite multiplyCount_push, Hm.
      destruct (bool_decide _); lia.
  - apply IH.
    rewrite multiplyCount_setIsSquareRoot, multiplyCount_push, Hm.
    destruct (bool_decide _); lia.
Qed.

Lemma dealEach_multiply target ps : ∀ stack rnd,
  Forall (fun p => (multiplyCount p ≤ 1)%nat) ps →
  Forall (fun p => (multiplyCount p ≤ 1)%nat)
    (passPlayers (dealEach target ps stack rnd)).
Proof.
  induction ps as [|p ps IH]; intros stack rnd Hps; cbn [dealEach]; [done|].
  apply Forall_cons in Hps as [Hp Hps].
  pose proof (dealPlayer_multiply target stack p rnd Hp) as Hq.
  destruct (dealPlayer target p stack rnd) as [q s r|q r|q s r req|q s r];
    cbn [dealtPlayer] in Hq; cbn [passPlayers];
    rewrite ?passPlayers_withPlayer; apply Forall_cons; split; auto.
Qed.

(** The retry empties the hands and leaves the flags. *)
Lemma returnCards_multiply g :
  Forall (fun p => (multiplyCount p ≤ 1)%nat) (players g) →
  Forall (fun p => (multiplyCount p ≤ 1)%nat) (players (returnCards g)).
Proof.
  intros Hps. cbn. apply Forall_fmap. eapply Forall_impl; [exact Hps|].
  intros p Hp. unfold multiplyCount in *. cbn in *. lia.
Qed.

Lemma openBetting_multiply g :
  Forall (fun p => (multiplyCount p ≤ 1)%nat) (players g) →
  Forall (fun p => (multiplyCount p ≤ 1)%nat) (players (openBetting g)).
Proof.
  intros Hps. destruct (openBetting_players g) as [->| ->]; [done|].
  apply Forall_fmap. eapply Forall_impl; [exact Hps|]. by intros p Hp.
Qed.

Lemma dealCardsWithin_multiply n : ∀ g target strict g',
  Forall (fun p => (multiplyCount p ≤ 1)%nat) (players g) →
  leaves (dealCardsWithin n g target strict) g' →
  Forall (fun p => (multiplyCount p ≤ 1)%nat) (players g').
Proof.
  induction n as [|n IH]; intros g target strict g' Hps;
    cbn [dealCardsWithin];
    pose proof (dealEach_multiply target (players g) (rev (deck g))
                  (random g) Hps) as Hpass;
    destruct (dealEach target (players g) _ _) as [ps stack rnd| |];
    cbn [passPlayers] in Hpass;
    try (by intros [[= <-]|[m [= _ <-]]]);
    cbn zeta; destruct (strict && _);
    try (intros ->%leaves_Done; by apply openBetting_multiply);
    destruct (existsb _ _);
    try (by intros ->%leaves_Done).
  - by intros [|[]].
  - apply IH. by apply returnCards_multiply.
Qed.

(** The swap of an offered multiply card: the offer becomes a card of
    the hand. *)
Lemma swapped_multiply ops p :
  hasMultiply p = true →
  multiplyCount
    (setHasMultiply false
       (push (OperationCard multiply) (setOperationCards ops p)))
  = multiplyCount p.
Proof.
  intros Hm. unfold multiplyCount, push. cbn. rewrite Hm.
  rewrite filter_app, length_app, filter_cons_True by done. cbn. lia.
Qed.

(** *** The hand of a player who holds a multiply card *)

Lemma holder_hasMultiplyCard p :
  OperationCard multiply ∈ cards p → hasMultiplyCard p = true.
Proof.
  intros Hin. unfold hasMultiplyCard. apply orb_true_iff. left.
  apply existsb_exists. exists (OperationCard multiply).
  split; [by apply list_elem_of_In|]. by apply bool_decide_eq_true_2.
Qed.

(** The deal of such a player adds cards at the end of the hand and
    never offers a swap. *)
Lemma dealPlayer_holder target stack : ∀ p rnd,
  OperationCard multiply ∈ cards p →
  let q := dealtPlayer (dealPlayer target p stack rnd) in
  hasMultiply q = hasMultiply p ∧ ∃ dealt, cards q = cards p ++ dealt.
Proof.
  induction stack as [|card stack IH]; intros p rnd Hin; cbn [dealPlayer];
    destruct (target <=? numberCount p)%nat; cbn zeta;
    try (split; [done|]; exists []; by rewrite app_nil_r).
  assert (Hpush : ∀ v,
            let q := dealtPlayer
                       (dealPlayer target
                          (setIsSquareRoot v (push card p)) stack rnd) in
            hasMultiply q = hasMultiply p
            ∧ ∃ dealt, cards q = cards p ++ dealt).
  { intros v.
    destruct (IH (setIsSquareRoot v (push card p)) rnd) as (E & dealt & Ed).
    { cbn. apply elem_of_app. by left. }
    split; [exact E|]. exists (card :: dealt). rewrite Ed. cbn.
    by rewrite <- app_assoc. }
  destruct card as [v c|[]]; try apply (Hpush false).
  - rewrite (holder_hasMultiplyCard p Hin). by apply IH.
  - apply (Hpush true).
Qed.

Lemma dealEach_holder target ps : ∀ stack rnd i p,
  ps !! i = Some p → OperationCard multiply ∈ cards p →
  ∃ q dealt,
    passPlayers (dealEach target ps stack rnd) !! i = Some q ∧
    hasMultiply q = hasMultiply p ∧ cards q = cards p ++ dealt.
Proof.
  induction ps as [|p0 ps IH]; intros stack rnd i p Hi Hin; [done|].
  cbn [dealEach].
  assert (Hrest : ∀ q0 j, i = S j →
            ∃ q dealt, (q0 :: ps) !! i = Some q ∧
              hasMultiply q = hasMultiply p ∧ cards q = cards p ++ dealt).
  { intros q0 j ->. exists p, []. by rewrite app_nil_r. }
  destruct i as [|j].
  - injection Hi as ->.
    destruct (dealPlayer_holder target stack p rnd Hin) as (E & dealt & Ed).
    destruct (dealPlayer target p stack rnd) as [q s r|q r|q s r req|q s r];
      cbn [dealtPlayer] in E, Ed; rewrite ?passPlayers_withPlayer;
      by exists q, dealt.
  - destruct (dealPlayer target p0 stack rnd) as [q s r|q r|q s r req|q s r];
      try (by eapply Hrest).
    rewrite passPlayers_withPlayer. by apply IH.
Qed.

(** A strict deal that starts from hands holding at most the target:
    what it does to the hand of a player who holds a multiply card, and
    what it has done when it returns with no offer pending and cards
    left in the deck. *)
Lemma fresh_deal g target g' :
  Forall (fun q => (numberCount q ≤ target)%nat) (players g) →
  leaves (dealCards g target true) g' →
  (∀ i p, players g !! i = Some p → OperationCard multiply ∈ cards p →
     ∃ q dealt, players g' !! i = Some q ∧
       hasMultiply q = hasMultiply p ∧ cards q = cards p ++ dealt)
  ∧ (dealCards g target true = Done g' →
     existsb hasMultiply (players g') = false → deck g' ≠ [] →
     Forall (fun q => numberCount q = target) (players g')).
Proof.
  intros Hle. unfold dealCards. rewrite (dealCardsWithin_fresh 1 g) by done.
  cbn [dealCardsWithin andb].
  pose proof (dealEach_holder target (players g) (rev (deck g)) (random g))
    as Hhold.
  destruct (dealEach target (players g) _ _) as [ps stack rnd|ps stack rnd req|]
    eqn:Hpass; cbn [passPlayers] in Hhold.
  - apply dealEach_count in Hpass; [|done].
    rewrite (afterPass_all_target _ _ _ _ _ Hpass). cbn [negb].
    intros ->%leaves_Done. split.
    + intros i p Hi Hin. destruct (Hhold i p Hi Hin) as (q & dealt & Hq & E).
      destruct (openBetting_players (afterPass ps stack rnd g)) as [-> | ->].
      * by exists q, dealt.
      * exists (setBet 0 q), dealt. cbn [players afterPass setRandom setDeck
          setPlayers]. by rewrite list_lookup_fmap, Hq.
    + intros _ Hno _. apply (no_pending_swap _ _ Hno).
      apply openBetting_counts. eapply Forall_impl; [exact Hpass|].
      intros q Hq. by right.
  - intros ->%leaves_Done. split; [exact Hhold|].
    intros _ Hno Hdeck. destruct Hdeck.
    apply halted_pass; [|done]. by eapply dealEach_Halted.
  - intros [[=]|(m & [= _ <-])]. split; [exact Hhold|done].
Qed.

End OneMultiply.

(** X26.  A deal gives no player a second multiply card.  When every
    player holds one multiply card at most, counting the card of a
    pending offer, the same is true in whatever state the deal leaves,
    also the one it leaves with the error of a bot that has no
    operation card to give: a multiply card met by a player who has one
    is discarded. *)
Theorem deal_gives_no_second_multiply (g : GameState) (target : nat)
    (strict : bool) (g' : GameState) :
  Forall (fun p => (multiplyCount p ≤ 1)%nat) (players g) →
  leaves (dealCards g target strict) g' →
  Forall (fun p => (multiplyCount p ≤ 1)%nat) (players g').
Proof.
  intros Hps Hg'. unfold dealCards in Hg'.
  by eapply dealCardsWithin_multiply.
Qed.

(** The first deal stops at the multiply card on top of the deck and
    offers it to Ana. *)
Lemma deal_gives_no_second_multiply_witness :
  dealCards multiplyOnTop 2 true = Done swapOffered ∧
  Forall (fun p => (multiplyCount p ≤ 1)%nat) (players swapOffered).
Proof.
  split; [vm_compute; reflexivity|].
  apply (deal_gives_no_second_multiply multiplyOnTop 2 true).
  - repeat constructor.
  - left. vm_compute. reflexivity.
Defined.

(** X27.  The swap of an offered multiply card.  A player with a
    pending offer gives an operation card of a type the player holds,
    at a table where the hands hold no more number cards than the deal
    of the phase goes up to and nobody holds two multiply cards,
    counting an offer.  In whatever state that leaves, the offer of the
    player is gone, the multiply card has joined the hand behind the
    cards held before, with the cards dealt since behind it, and still
    nobody holds two multiply cards.  The deal has gone on: when the
    swap returns in a dealing phase with no offer pending and cards
    left in the deck, every player holds the number of number cards
    the phase deals up to. *)
Theorem offered_swap_joins_the_hand (g : GameState) (i : nat)
    (p : Player) (t : OperationType) (g' : GameState) :
  players g !! i = Some p → hasMultiply p = true →
  t ∈ operationCards p →
  Forall (fun q => (multiplyCount q ≤ 1)%nat) (players g) →
  (∀ target, dealingTarget (phase g) = Some target →
     Forall (fun q => (numberCount q ≤ target)%nat) (players g)) →
  leaves (handleSwap g i t) g' →
  (∃ q dealt, players g' !! i = Some q ∧ hasMultiply q = false ∧
     cards q = cards p ++ OperationCard multiply :: dealt) ∧
  Forall (fun q => (multiplyCount q ≤ 1)%nat) (players g') ∧
  (∀ target, dealingTarget (phase g) = Some target →
     handleSwap g i t = Done g' →
     existsb hasMultiply (players g') = false → deck g' ≠ [] →
     Forall (fun q => numberCount q = target) (players g')).
Proof.
  intros Hp Hm Ht Hps Hfresh. unfold handleSwap. rewrite Hp.
  destruct (operationIndex t (operationCards p)) as [k|] eqn:Hk.
  2: { by apply operationIndex_None in Hk. }
  set (p1 := setHasMultiply false
               (push (OperationCard multiply)
                  (setOperationCards (delete k (operationCards p)) p))).
  set (g1 := updatePlayer i _ g).
  assert (Hp1 : players g1 !! i = Some p1).
  { subst g1. cbn. by rewrite list_lookup_alter_eq, Hp. }
  assert (Hps1 : Forall (fun q => (multiplyCount q ≤ 1)%nat) (players g1)).
  { cbn. apply Forall_lookup. intros j q Hj.
    destruct (decide (j = i)) as [->|Hne].
    - rewrite list_lookup_alter_eq, Hp in Hj. injection Hj as <-.
      rewrite (swapped_multiply _ p Hm).
      by apply (Forall_lookup_1 _ _ _ _ Hps Hp).
    - rewrite list_lookup_alter_ne in Hj by done.
      by apply (Forall_lookup_1 _ _ _ _ Hps Hj). }
  assert (Hfresh1 : ∀ target, dealingTarget (phase g) = Some target →
            Forall (fun q => (numberCount q ≤ target)%nat) (players g1)).
  { intros target Htarget. specialize (Hfresh target Htarget).
    cbn. apply Forall_lookup. intros j q Hj.
    destruct (decide (j = i)) as [->|Hne].
    - rewrite list_lookup_alter_eq, Hp in Hj. injection Hj as <-.
      pose proof (Forall_lookup_1 _ _ _ _ Hfresh Hp) as Hcount.
      unfold numberCount, push in *. cbn [cards setHasMultiply setCards
        setOperationCards].
      rewrite filter_app, length_app, filter_cons_False, filter_nil by done.
      cbn [length]. lia.
    - rewrite list_lookup_alter_ne in Hj by done.
      by apply (Forall_lookup_1 _ _ _ _ Hfresh Hj). }
  assert (Hin : OperationCard multiply ∈ cards p1).
  { cbn. apply elem_of_app. right. by left. }
  assert (Hdeal : ∀ target, dealingTarget (phase g) = Some target →
            leaves (dealCards g1 target true) g' →
            (∃ q dealt, players g' !! i = Some q ∧ hasMultiply q = false ∧
               cards q = cards p ++ OperationCard multiply :: dealt) ∧
            Forall (fun q => (multiplyCount q ≤ 1)%nat) (players g') ∧
            (dealCards g1 target true = Done g' →
             existsb hasMultiply (players g') = false → deck g' ≠ [] →
             Forall (fun q => numberCount q = target) (players g'))).
  { intros target Htarget Hg'.
    destruct (fresh_deal g1 target g' (Hfresh1 target Htarget) Hg')
      as [Hhold Hfill].
    destruct (Hhold i p1 Hp1 Hin) as (q & dealt & Hq & Eflag & Ecards).
    split; [|split; [|exact Hfill]].
    - exists q, dealt. split; [exact Hq|]. split; [by rewrite Eflag|].
      rewrite Ecards. cbn. by rewrite <- app_assoc.
    - unfold dealCards in Hg'. by eapply dealCardsWithin_multiply. }
  unfold continueDealing. change (phase g1) with (phase g).
  destruct (phase g) eqn:Hph;
    try (intros ->%leaves_Done; split;
         [exists p1, []; by rewrite Hp1|split; [exact Hps1|done]]).
  - intros Hg'. destruct (Hdeal 2%nat eq_refl Hg') as (H1 & H2 & H3).
    split; [exact H1|]. split; [exact H2|]. by intros target [= <-].
  - intros Hg'. destruct (Hdeal 4%nat eq_refl Hg') as (H1 & H2 & H3).
    split; [exact H1|]. split; [exact H2|]. by intros target [= <-].
Qed.

(** Ana gives her add card for the multiply card offered; the second
    multiply card of the deck, which she meets next, is discarded, and
    the deal fills the hands of Ana and Ben. *)
Lemma offered_swap_joins_the_hand_witness :
  ∃ g', handleSwap swapOffered 0 add = Done g' ∧
        cards <$> players g' !! 0%nat
        = Some [OperationCard multiply; NumberCard 2 bronze;
                NumberCard 3 silver] ∧
        (∃ q dealt, players g' !! 0%nat = Some q ∧ hasMultiply q = false ∧
           cards q = [] ++ OperationCard multiply :: dealt) ∧
        Forall (fun q => (multiplyCount q ≤ 1)%nat) (players g') ∧
        Forall (fun q => numberCount q = 2%nat) (players g').
Proof.
  eexists. split; [vm_compute; reflexivity|]. split; [reflexivity|].
  edestruct (offered_swap_joins_the_hand swapOffered 0
               (setHasMultiply true (newPlayer "p1" "Ana")) add)
    as (Hhand & Hone & Hfill);
    [reflexivity|reflexivity|by left|repeat constructor| |
     left; vm_compute; reflexivity|].
  { intros target [= <-]. repeat constructor; cbn; lia. }
  split; [exact Hhand|]. split; [exact Hone|].
  apply (Hfill 2%nat); [reflexivity|vm_compute; reflexivity|reflexivity|].
  vm_compute. discriminate.
Defined.
